(** * okayworld: the lockstep relay server, embedded and checked

    A shallow embedding of the server core of okayworld (server.js, second
    revision in the repository) together with the properties its design
    document states about it.

    Conventions of the embedding.
    - JavaScript numbers that the server uses as integers (frame numbers,
      controller ids, serials, hashes) are [Z]; [x|0] is [toInt32], with its
      wrap-around written out.  For the "f" of a message this is a
      restriction on the clients, not a check of the server: the test for
      an integer in [validateFrameOrCommandMessage] never fails, so that
      the server also takes a frame such as 20.5 or the text "200e-1".  It
      files the event under that very name, and [message.f+1] on a text is
      a concatenation.  Such messages are outside the embedding: every
      statement on frames is a statement on messages whose "f" is an
      integer number, of a size that a double holds exactly.
    - Times ([performance.now()], [pastHorizonPerfTime]) are exact rationals
      [Q]; rounding of doubles is not modelled.  A time computed here can
      differ from the double the server computes in its last places (1000/30
      is no double), and with it a floor or a comparison taken at the very
      boundary.
    - JavaScript strings are [string]; a character is one code unit.
    - Objects used as dictionaries are [gmap]s keyed by the property name
      (or by the integer whose decimal form is the property name).
    - Controller objects are shared between several tables, so they live in
      a store keyed by controller id and the tables hold ids.
    - Handlers that can throw return a [Result]; the state reached at the
      throw is kept, as the mutations made before it are not rolled back.
    - [socket.send] and [socket.close] are recorded in an output trace and
      are taken not to throw. *)

From Stdlib Require Import ZArith QArith Qround Qminmax Lia List Ascii String.
From Stdlib Require Import Sorting.Sorted Sorting.Permutation.
From stdpp Require Import base option gmap strings list pretty sorting.

Local Open Scope Z_scope.
Set Warnings "-register-all".
Local Set Warnings "-notation-overridden,-ambiguous-paths".

(** ** JavaScript primitives *)

(** [x|0]: ToInt32 of an integer-valued number. *)
Definition toInt32 (x : Z) : Z := (x + 2147483648) mod 4294967296 - 2147483648.

(** Property-name form of an integer (Number::toString, integers only). *)
Definition keyOf (n : Z) : string := pretty n.

(** [s.charCodeAt(i)] for the i-th character of [s]. *)
Definition charCode (ch : ascii) : Z := Z.of_N (N_of_ascii ch).

(** [s.length] *)
Definition strlen (s : string) : Z := Z.of_nat (String.length s).

(** [Array.prototype.sort(comparator)]: a stable sort (ECMAScript 2019;
    earlier V8 used insertion sort on the short arrays seen here). *)
Fixpoint sortInsert {A : Type} (cmp : A -> A -> Z) (x : A) (l : list A) : list A :=
  match l with
  | [] => [x]
  | y :: l' => if cmp x y <=? 0 then x :: y :: l' else y :: sortInsert cmp x l'
  end.

Definition arraySort {A : Type} (cmp : A -> A -> Z) (l : list A) : list A :=
  fold_right (sortInsert cmp) [] l.

(** [a<b] on two strings: code-unit lexicographic order. *)
Definition stringLt (a b : string) : bool := String.ltb a b.

(** The comparison [Array.prototype.sort()] uses without a comparator, on an
    array of strings. *)
Definition defaultCompare (a b : string) : Z :=
  if stringLt a b then -1 else if stringLt b a then 1 else 0.

(** ** JSON-shaped values *)

(** A number is an integer, negative zero, or any other double, which is
    then identified by the text [Number.prototype.toString] gives for it. *)
Inductive JsNumber :=
| NumInt (z : Z)
| NumNegZero
| NumOther (text : string).

Inductive value :=
| VNull
| VUndefined
| VBool (b : bool)
| VNumber (n : JsNumber)
| VString (s : string)
| VArray (elems : list value)
| VObject (props : list (string * value))
| VOther (text : string).

Definition numberToString (n : JsNumber) : string :=
  match n with
  | NumInt z => keyOf z
  | NumNegZero => "0"
  | NumOther t => t
  end.

(** ** defaultGameStateHash (server.js) *)

Module Hash.

(** function combine(a,b): [%] is the truncating remainder. *)
Definition combine (a b : Z) : Z := Z.rem (a * 65537 + b * 8191 + 127) 2147483647.

(** function recurseString(key) *)
Definition recurseString (key : string) : Z :=
  let hash :=
    fold_left (fun hash ch => combine hash (charCode ch))
              (list_ascii_of_string key) 0 in
  combine hash 300.

(** [container[key]] read from the table of the container's own properties,
    each already hashed; a name that is not there reads [undefined]. *)
Fixpoint hashedProperty (table : list (string * Z)) (key : string) : Z :=
  match table with
  | [] => 101
  | (k, h) :: rest => if String.eqb k key then h else hashedProperty rest key
  end.

(** function recurseContainer(container).  [table] lists the own properties
    of the container with [defaultGameStateHash] already applied to each
    value, so that [table]'s names are [Object.getOwnPropertyNames]. *)
Definition recurseContainer (table : list (string * Z)) : Z :=
  let keys := arraySort defaultCompare (map fst table) in
  let hash :=
    fold_left (fun hash key =>
                 let hash := combine hash (recurseString key) in
                 combine hash (hashedProperty table key))
              keys 0 in
  combine hash 200.

(** The 'number' case of the switch, after the negative-zero coercion. *)
Definition hashNumber (n : JsNumber) : Z :=
  let o := match n with NumNegZero => NumInt 0 | _ => n end in
  combine 106 (recurseString (numberToString o)).

(** Own properties of an array: the indices and [length]. *)
Fixpoint indexed {A : Type} (i : nat) (l : list A) : list (string * A) :=
  match l with
  | [] => []
  | x :: l' => (keyOf (Z.of_nat i), x) :: indexed (S i) l'
  end.

Definition arrayTable (hashes : list Z) : list (string * Z) :=
  indexed 0 hashes ++ [("length"%string, hashNumber (NumInt (Z.of_nat (length hashes))))].

Fixpoint defaultGameStateHash (o : value) : Z :=
  match o with
  | VNull => 100
  | VUndefined => 101
  | VBool true => 102
  | VBool false => 103
  | VArray elems =>
      combine 105 (recurseContainer (arrayTable (map defaultGameStateHash elems)))
  | VNumber n => hashNumber n
  | VString s => combine 107 (recurseString s)
  | VObject props =>
      combine 108 (recurseContainer
                     (map (fun kv => (fst kv, defaultGameStateHash (snd kv))) props))
  | VOther text => combine 109 (recurseString text)
  end.

(** *** The reference definition of the design document (section 6.5) *)

Definition combine_ref (a b : Z) : Z := (a * 65537 + b * 8191 + 127) mod 2147483647.

(** strings fold character codes, suffix 300 *)
Definition string_ref (s : string) : Z :=
  combine_ref
    (fold_left (fun h ch => combine_ref h (charCode ch)) (list_ascii_of_string s) 0)
    300.

(** own properties ordered by name *)
Fixpoint insertByName {B : Type} (p : string * B) (l : list (string * B)) : list (string * B) :=
  match l with
  | [] => [p]
  | q :: l' => if String.leb (fst p) (fst q) then p :: q :: l' else q :: insertByName p l'
  end.

Definition sortByName {B : Type} (l : list (string * B)) : list (string * B) :=
  fold_right insertByName [] l.

(** containers combine each (key-hash, value-hash) pair, suffix 200 *)
Definition container_ref (pairs : list (string * Z)) : Z :=
  combine_ref
    (fold_left (fun h p => combine_ref (combine_ref h (string_ref (fst p))) (snd p))
               (sortByName pairs) 0)
    200.

Definition number_ref (n : JsNumber) : Z :=
  combine_ref 106 (string_ref (match n with
                               | NumNegZero => numberToString (NumInt 0)
                               | _ => numberToString n
                               end)).

Fixpoint hash_ref (v : value) : Z :=
  match v with
  | VNull => 100
  | VUndefined => 101
  | VBool true => 102
  | VBool false => 103
  | VNumber n => number_ref n
  | VString s => combine_ref 107 (string_ref s)
  | VArray elems =>
      combine_ref 105
        (container_ref (indexed 0 (map hash_ref elems)
                        ++ [("length"%string, number_ref (NumInt (Z.of_nat (length elems))))]))
  | VObject props =>
      combine_ref 108 (container_ref (map (fun kv => (fst kv, hash_ref (snd kv))) props))
  | VOther text => combine_ref 109 (string_ref text)
  end.

(** A JavaScript object has each property name once. *)
Fixpoint wellFormed (v : value) : Prop :=
  match v with
  | VArray elems => fold_right (fun x P => wellFormed x /\ P) True elems
  | VObject props =>
      NoDup (map fst props) /\ fold_right (fun kv P => wellFormed (snd kv) /\ P) True props
  | _ => True
  end.

End Hash.

(** ** Constants of server.js *)

Definition FPS : Z := 30.
Definition PAST_HORIZON_FRAMES : Z := FPS / 2.
Definition FUTURE_HORIZON_FRAMES : Z := FPS * 3 / 2.
Definition TIMEOUT_MILLIS : Q := 5000.
Definition DEFAULT_HASH_SYNC_INTERVAL : Q := inject_Z (FPS * 5).
Definition DEFAULT_FRAME_BROADCAST_INTERVAL : Q := inject_Z FPS / 4.
Definition DEFAULT_MAX_CHAT_MESSAGE_LENGTH : Z := 1024.
Definition DEFAULT_CHAT_BURST_SIZE : Z := 5.
Definition MIN_USERNAME_LENGTH : Z := 3.
Definition MAX_USERNAME_LENGTH : Z := 16.
Definition MIN_PASSWORD_LENGTH : Z := 3.
Definition MAX_PASSWORD_LENGTH : Z := 64.
Definition MAX_USER_CONFIG_LENGTH : Z := 10000.

(** [1000/FPS], the length of a frame in milliseconds. *)
Definition frameMillis : Q := 1000 / inject_Z FPS.

(** ** Events *)

(** [.k]: "c" connect, "o" command, "f" frame, "d" disconnect. *)
Inductive EventKind := KConnect | KCommand | KFrame | KDisconnect.

(** An event object; a field the object does not have is [None]
    ([undefined] when read). *)
Record Event := mkEvent {
  ev_k : EventKind;
  ev_c : Z;
  ev_f : Z;
  ev_u : option string;
  ev_d : option string;
  ev_o : option string;
  ev_a : option string;
  ev_s : option Z;
  ev_i : option string
}.

Definition connectEvent (c : Z) (u : string) (f : Z) (d : string) : Event :=
  mkEvent KConnect c f (Some u) (Some d) None None None None.
Definition disconnectEvent (c f : Z) : Event :=
  mkEvent KDisconnect c f None None None None None None.
Definition frameEvent (c f : Z) (i : string) : Event :=
  mkEvent KFrame c f None None None None None (Some i).
Definition commandEvent (c f : Z) (o a : string) (s : Z) : Event :=
  mkEvent KCommand c f None None (Some o) (Some a) (Some s) None.

Definition EVENT_KIND_ORDERING (k : EventKind) : Z :=
  match k with KConnect => 0 | KCommand => 1 | KFrame => 2 | KDisconnect => 3 end.

(** [a<b] when each side is a string or [undefined]: with [undefined] on
    either side the comparison is false. *)
Definition ltStringOrUndefined (a b : option string) : bool :=
  match a, b with
  | Some x, Some y => stringLt x y
  | _, _ => false
  end.

(** [a<b] when each side is a number or [undefined]. *)
Definition ltNumberOrUndefined (a b : option Z) : bool :=
  match a, b with
  | Some x, Some y => x <? y
  | _, _ => false
  end.

Definition instanceEventComparator (a b : Event) : Z :=
  let ak := EVENT_KIND_ORDERING (ev_k a) in
  let bk := EVENT_KIND_ORDERING (ev_k b) in
  if ak <? bk then -1 else if ak >? bk then 1 else
  if ltStringOrUndefined (ev_u a) (ev_u b) then -1
  else if ltStringOrUndefined (ev_u b) (ev_u a) then 1 else
  if ltNumberOrUndefined (ev_s a) (ev_s b) then -1
  else if ltNumberOrUndefined (ev_s b) (ev_s a) then 1 else
  0.

(** [integerComparator], at the type of its one call site: the array it
    sorts holds property names, which are strings. *)
Definition integerComparator (a b : string) : Z :=
  if stringLt a b then -1 else if stringLt b a then 1 else 0.

(** ** Playsets, instances, controllers, users *)

Record ControllerStatus := mkStatus { cs_u : option string; cs_i : string }.

Record ConnectArg := mkConnectArg { ca_c : Z; ca_u : option string; ca_d : option string }.
Record CommandArg := mkCommandArg { co_c : Z; co_o : option string; co_a : option string }.
Record InputArg := mkInputArg { in_c : string; in_i : string }.

(** A registered playset; the game state is a JSON-shaped value. *)
Record Playset := mkPlayset {
  getName : string;
  advanceGameState :
    value -> list ConnectArg -> list CommandArg -> list InputArg -> list Z -> value;
  serializeGameState : value -> string;
  deserializeGameState : string -> value;
  hashGameState : option (value -> Z)
}.

Record Instance := mkInstance {
  playset : option Playset;
  pastHorizonFrameNumber : Z;
  pastHorizonState : value;
  pastHorizonPerfTime : Q;
  pastHorizonControllerStatus : gmap string ControllerStatus;
  events : gmap Z (list Event);
  broadcastControllers : gset Z;
  suspended : bool
}.

Inductive Lifecycle := LNew | LInbox | LLive | LOutbox.

(** A controller object.  The fields from [username] on are set at login and
    read only afterwards; before that they hold placeholders. *)
Record Controller := mkController {
  controllerId : Z;
  remoteAddress : string;
  isLocal : bool;
  lifecycle : Lifecycle;
  username : string;
  instanceName : string;
  playsetName : string;
  minFrameNumber : Z;
  lastCommandNumber : Z;
  commandRateCounters : gmap string Z;
  lastFrameInput : option string;
  globalChatTokens : Z;
  timeoutAt : option Q;
  disconnected : bool
}.

Record User := mkUser {
  u_username : string;
  u_password : string;
  u_config : string;
  u_admin : bool;
  u_selfServeAddress : option string
}.

Record Config := mkConfig {
  selfServeUserLimit : option Z;
  frameBroadcastInterval : option Q;
  hashSyncInterval : option Q;
  maxChatMessageLength : option Z;
  globalChatBurstSize : option Z
}.

(** Server-to-client messages. *)
Inductive ServerMsg :=
| MsgE (e : string)
| MsgD (d : string)
| MsgW (t : Z)
| MsgS (p : string) (c : Z) (x : gmap string ControllerStatus) (g : string)
       (f : Z) (e : list Event) (r : Z) (l : Z) (m : Z)
| MsgF (f : Z) (h : option Z)
| MsgEvent (ev : Event) (t : option Z).

(** What the server does to a controller's socket; [Refuse] is the error and
    close on a socket turned away for its origin before it has a controller. *)
Inductive Output :=
| Send (to : Z) (msg : ServerMsg)
| Close (to : Z)
| Refuse (address : string).

(** The globals of server.js. *)
Record Server := mkServer {
  config : Config;
  users : gmap string User;
  instances : gmap string Instance;
  store : gmap Z Controller;
  controllers : gset Z;
  nextControllerID : Z;
  selfServeUserCounts : gmap string Z;
  inboxControllers : gmap string Z;
  liveControllers : gmap string Z;
  outboxControllers : gmap string Z;
  requiredOrigin : option string;
  playsetCommandRateLimits : gmap string (gmap string Z);
  playsetInputLengthLimits : gmap string Z;
  playsetArgumentLengthLimits : gmap string Z;
  advanceTimers : list (string * Q);
  trace : list Output
}.

(** *** Field updates *)

Definition set_pastHorizonFrameNumber (v : Z) (i : Instance) : Instance :=
  mkInstance (playset i) v (pastHorizonState i) (pastHorizonPerfTime i)
    (pastHorizonControllerStatus i) (events i) (broadcastControllers i) (suspended i).
Definition set_pastHorizonState (v : value) (i : Instance) : Instance :=
  mkInstance (playset i) (pastHorizonFrameNumber i) v (pastHorizonPerfTime i)
    (pastHorizonControllerStatus i) (events i) (broadcastControllers i) (suspended i).
Definition set_pastHorizonPerfTime (v : Q) (i : Instance) : Instance :=
  mkInstance (playset i) (pastHorizonFrameNumber i) (pastHorizonState i) v
    (pastHorizonControllerStatus i) (events i) (broadcastControllers i) (suspended i).
Definition set_pastHorizonControllerStatus (v : gmap string ControllerStatus)
    (i : Instance) : Instance :=
  mkInstance (playset i) (pastHorizonFrameNumber i) (pastHorizonState i)
    (pastHorizonPerfTime i) v (events i) (broadcastControllers i) (suspended i).
Definition set_events (v : gmap Z (list Event)) (i : Instance) : Instance :=
  mkInstance (playset i) (pastHorizonFrameNumber i) (pastHorizonState i)
    (pastHorizonPerfTime i) (pastHorizonControllerStatus i) v
    (broadcastControllers i) (suspended i).
Definition set_broadcastControllers (v : gset Z) (i : Instance) : Instance :=
  mkInstance (playset i) (pastHorizonFrameNumber i) (pastHorizonState i)
    (pastHorizonPerfTime i) (pastHorizonControllerStatus i) (events i) v (suspended i).
Definition set_suspended (v : bool) (i : Instance) : Instance :=
  mkInstance (playset i) (pastHorizonFrameNumber i) (pastHorizonState i)
    (pastHorizonPerfTime i) (pastHorizonControllerStatus i) (events i)
    (broadcastControllers i) v.

Definition set_lifecycle (v : Lifecycle) (c : Controller) : Controller :=
  mkController (controllerId c) (remoteAddress c) (isLocal c) v (username c)
    (instanceName c) (playsetName c) (minFrameNumber c) (lastCommandNumber c)
    (commandRateCounters c) (lastFrameInput c) (globalChatTokens c) (timeoutAt c)
    (disconnected c).
Definition set_login (user inst play : string) (c : Controller) : Controller :=
  mkController (controllerId c) (remoteAddress c) (isLocal c) (lifecycle c) user
    inst play (minFrameNumber c) (lastCommandNumber c)
    (commandRateCounters c) (lastFrameInput c) (globalChatTokens c) (timeoutAt c)
    (disconnected c).
Definition set_minFrameNumber (v : Z) (c : Controller) : Controller :=
  mkController (controllerId c) (remoteAddress c) (isLocal c) (lifecycle c) (username c)
    (instanceName c) (playsetName c) v (lastCommandNumber c)
    (commandRateCounters c) (lastFrameInput c) (globalChatTokens c) (timeoutAt c)
    (disconnected c).
Definition set_lastCommandNumber (v : Z) (c : Controller) : Controller :=
  mkController (controllerId c) (remoteAddress c) (isLocal c) (lifecycle c) (username c)
    (instanceName c) (playsetName c) (minFrameNumber c) v
    (commandRateCounters c) (lastFrameInput c) (globalChatTokens c) (timeoutAt c)
    (disconnected c).
Definition set_commandRateCounters (v : gmap string Z) (c : Controller) : Controller :=
  mkController (controllerId c) (remoteAddress c) (isLocal c) (lifecycle c) (username c)
    (instanceName c) (playsetName c) (minFrameNumber c) (lastCommandNumber c)
    v (lastFrameInput c) (globalChatTokens c) (timeoutAt c) (disconnected c).
Definition set_lastFrameInput (v : option string) (c : Controller) : Controller :=
  mkController (controllerId c) (remoteAddress c) (isLocal c) (lifecycle c) (username c)
    (instanceName c) (playsetName c) (minFrameNumber c) (lastCommandNumber c)
    (commandRateCounters c) v (globalChatTokens c) (timeoutAt c) (disconnected c).
Definition set_globalChatTokens (v : Z) (c : Controller) : Controller :=
  mkController (controllerId c) (remoteAddress c) (isLocal c) (lifecycle c) (username c)
    (instanceName c) (playsetName c) (minFrameNumber c) (lastCommandNumber c)
    (commandRateCounters c) (lastFrameInput c) v (timeoutAt c) (disconnected c).
Definition set_timeoutAt (v : option Q) (c : Controller) : Controller :=
  mkController (controllerId c) (remoteAddress c) (isLocal c) (lifecycle c) (username c)
    (instanceName c) (playsetName c) (minFrameNumber c) (lastCommandNumber c)
    (commandRateCounters c) (lastFrameInput c) (globalChatTokens c) v (disconnected c).
Definition set_disconnected (v : bool) (c : Controller) : Controller :=
  mkController (controllerId c) (remoteAddress c) (isLocal c) (lifecycle c) (username c)
    (instanceName c) (playsetName c) (minFrameNumber c) (lastCommandNumber c)
    (commandRateCounters c) (lastFrameInput c) (globalChatTokens c) (timeoutAt c) v.

Definition set_users (v : gmap string User) (s : Server) : Server :=
  mkServer (config s) v (instances s) (store s) (controllers s) (nextControllerID s)
    (selfServeUserCounts s) (inboxControllers s) (liveControllers s)
    (outboxControllers s) (requiredOrigin s) (playsetCommandRateLimits s)
    (playsetInputLengthLimits s) (playsetArgumentLengthLimits s) (advanceTimers s)
    (trace s).
Definition set_instances (v : gmap string Instance) (s : Server) : Server :=
  mkServer (config s) (users s) v (store s) (controllers s) (nextControllerID s)
    (selfServeUserCounts s) (inboxControllers s) (liveControllers s)
    (outboxControllers s) (requiredOrigin s) (playsetCommandRateLimits s)
    (playsetInputLengthLimits s) (playsetArgumentLengthLimits s) (advanceTimers s)
    (trace s).
Definition set_store (v : gmap Z Controller) (s : Server) : Server :=
  mkServer (config s) (users s) (instances s) v (controllers s) (nextControllerID s)
    (selfServeUserCounts s) (inboxControllers s) (liveControllers s)
    (outboxControllers s) (requiredOrigin s) (playsetCommandRateLimits s)
    (playsetInputLengthLimits s) (playsetArgumentLengthLimits s) (advanceTimers s)
    (trace s).
Definition set_controllers (v : gset Z) (s : Server) : Server :=
  mkServer (config s) (users s) (instances s) (store s) v (nextControllerID s)
    (selfServeUserCounts s) (inboxControllers s) (liveControllers s)
    (outboxControllers s) (requiredOrigin s) (playsetCommandRateLimits s)
    (playsetInputLengthLimits s) (playsetArgumentLengthLimits s) (advanceTimers s)
    (trace s).
Definition set_nextControllerID (v : Z) (s : Server) : Server :=
  mkServer (config s) (users s) (instances s) (store s) (controllers s) v
    (selfServeUserCounts s) (inboxControllers s) (liveControllers s)
    (outboxControllers s) (requiredOrigin s) (playsetCommandRateLimits s)
    (playsetInputLengthLimits s) (playsetArgumentLengthLimits s) (advanceTimers s)
    (trace s).
Definition set_selfServeUserCounts (v : gmap string Z) (s : Server) : Server :=
  mkServer (config s) (users s) (instances s) (store s) (controllers s)
    (nextControllerID s) v (inboxControllers s) (liveControllers s)
    (outboxControllers s) (requiredOrigin s) (playsetCommandRateLimits s)
    (playsetInputLengthLimits s) (playsetArgumentLengthLimits s) (advanceTimers s)
    (trace s).
Definition set_inboxControllers (v : gmap string Z) (s : Server) : Server :=
  mkServer (config s) (users s) (instances s) (store s) (controllers s)
    (nextControllerID s) (selfServeUserCounts s) v (liveControllers s)
    (outboxControllers s) (requiredOrigin s) (playsetCommandRateLimits s)
    (playsetInputLengthLimits s) (playsetArgumentLengthLimits s) (advanceTimers s)
    (trace s).
Definition set_liveControllers (v : gmap string Z) (s : Server) : Server :=
  mkServer (config s) (users s) (instances s) (store s) (controllers s)
    (nextControllerID s) (selfServeUserCounts s) (inboxControllers s) v
    (outboxControllers s) (requiredOrigin s) (playsetCommandRateLimits s)
    (playsetInputLengthLimits s) (playsetArgumentLengthLimits s) (advanceTimers s)
    (trace s).
Definition set_outboxControllers (v : gmap string Z) (s : Server) : Server :=
  mkServer (config s) (users s) (instances s) (store s) (controllers s)
    (nextControllerID s) (selfServeUserCounts s) (inboxControllers s)
    (liveControllers s) v (requiredOrigin s) (playsetCommandRateLimits s)
    (playsetInputLengthLimits s) (playsetArgumentLengthLimits s) (advanceTimers s)
    (trace s).
Definition set_advanceTimers (v : list (string * Q)) (s : Server) : Server :=
  mkServer (config s) (users s) (instances s) (store s) (controllers s)
    (nextControllerID s) (selfServeUserCounts s) (inboxControllers s)
    (liveControllers s) (outboxControllers s) (requiredOrigin s)
    (playsetCommandRateLimits s) (playsetInputLengthLimits s)
    (playsetArgumentLengthLimits s) v (trace s).
Definition set_trace (v : list Output) (s : Server) : Server :=
  mkServer (config s) (users s) (instances s) (store s) (controllers s)
    (nextControllerID s) (selfServeUserCounts s) (inboxControllers s)
    (liveControllers s) (outboxControllers s) (requiredOrigin s)
    (playsetCommandRateLimits s) (playsetInputLengthLimits s)
    (playsetArgumentLengthLimits s) (advanceTimers s) v.

(** ** Handlers run in a state monad with exceptions *)

Inductive JsError :=
| TypeError (what : string)
| ReferenceError (what : string)
| Error (what : string).

Inductive Result (A : Type) :=
| Ok (a : A) (s : Server)
| Throw (e : JsError) (s : Server).
Arguments Ok {A} a s.
Arguments Throw {A} e s.

Definition M (A : Type) : Type := Server -> Result A.

Definition ret {A : Type} (a : A) : M A := fun s => Ok a s.
Definition bind {A B : Type} (m : M A) (k : A -> M B) : M B :=
  fun s => match m s with
           | Ok a s' => k a s'
           | Throw e s' => Throw e s'
           end.
Definition throw {A : Type} (e : JsError) : M A := fun s => Throw e s.
Definition gets {A : Type} (f : Server -> A) : M A := fun s => Ok (f s) s.
Definition modify (f : Server -> Server) : M unit := fun s => Ok tt (f s).

Declare Scope js_scope.
Delimit Scope js_scope with js.
Notation "'let!' x ':=' m 'in' k" := (bind m (fun x => k))
  (at level 10, x name, m at level 100, k at level 200) : js_scope.
Notation "m ';;' k" := (bind m (fun _ => k))
  (at level 100, k at level 200, right associativity) : js_scope.
Notation "'when' b 'then' m" := (if b then m else ret tt)
  (at level 10, b at level 100, m at level 200) : js_scope.
Local Open Scope js_scope.

(** The state a handler leaves behind, whether it returned or threw. *)
Definition finalState {A : Type} (r : Result A) : Server :=
  match r with Ok _ s => s | Throw _ s => s end.

Definition returned {A : Type} (r : Result A) : bool :=
  match r with Ok _ _ => true | Throw _ _ => false end.

(** A reference that does not lead to an object reads [undefined], and the
    property access on it throws. *)
Definition getController (cid : Z) : M Controller :=
  fun s => match store s !! cid with
           | Some c => Ok c s
           | None => Throw (TypeError "controller is undefined") s
           end.

Definition getInstance (name : string) : M Instance :=
  fun s => match instances s !! name with
           | Some i => Ok i s
           | None => Throw (TypeError "instance is undefined") s
           end.

Definition updController (cid : Z) (f : Controller -> Controller) : M unit :=
  let! c := getController cid in
  modify (fun s => set_store (<[cid := f c]> (store s)) s).

Definition updInstance (name : string) (f : Instance -> Instance) : M unit :=
  let! i := getInstance name in
  modify (fun s => set_instances (<[name := f i]> (instances s)) s).

Definition getPlayset (instance : Instance) : M Playset :=
  match playset instance with
  | Some p => ret p
  | None => throw (TypeError "instance.playset is null")
  end.

Definition emit (outs : list Output) : M unit :=
  modify (fun s => set_trace (trace s ++ outs) s).

(** [for(var i in object)] over integer keys visits them in ascending order. *)
Definition ascending (ids : gset Z) : list Z := merge_sort Z.le (elements ids).

(** [value || fallback] on an optional number. *)
Definition orDefault (o : option Z) (fallback : Z) : Z :=
  match o with
  | Some v => if v =? 0 then fallback else v
  | None => fallback
  end.

(** [""+x] on a string or [undefined]. *)
Definition stringOrUndefined (o : option string) : string :=
  match o with Some x => x | None => "undefined"%string end.

Definition Qgtb (a b : Q) : bool :=
  match Qcompare a b with Gt => true | _ => false end.
Definition Qltb (a b : Q) : bool := Qgtb b a.
Definition Qgeb (a b : Q) : bool := negb (Qltb a b).

(** ** Clock and frame arithmetic *)

Definition getPresentFrameNumber (instance : Instance) : Z :=
  pastHorizonFrameNumber instance + PAST_HORIZON_FRAMES.

Definition getTimingPongForInstance (now : Q) (instance : Instance) : Z :=
  let timeZero :=
    (pastHorizonPerfTime instance
     - inject_Z (pastHorizonFrameNumber instance) * 1000 / inject_Z FPS)%Q in
  Qfloor (now - timeZero)%Q.

(** The delay handed to [setTimeout], or [None] when nothing is scheduled. *)
Definition scheduleAdvance (now : Q) (instance : Instance) : option Q :=
  if suspended instance then None
  else
    let nextFrameTime :=
      (pastHorizonPerfTime instance
       + inject_Z (PAST_HORIZON_FRAMES + 1) * 1000 / inject_Z FPS)%Q in
    let wait := (nextFrameTime - now)%Q in
    Some (if Qltb wait 0 then 0%Q else wait).

(** [unsuspendInstance(instance)]: the instance as it is left, and the delay
    of the timer set, if one is. *)
Definition unsuspendInstance (now : Q) (instance : Instance) : Instance * option Q :=
  if suspended instance then
    let instance1 := set_suspended false instance in
    let freshHorizon := (now - inject_Z PAST_HORIZON_FRAMES * 1000 / inject_Z FPS)%Q in
    let instance2 :=
      if Qgtb freshHorizon (pastHorizonPerfTime instance1)
      then set_pastHorizonPerfTime freshHorizon instance1
      else instance1 in
    (instance2, scheduleAdvance now instance2)
  else (instance, None).

Definition suspendInstance (instance : Instance) : Instance :=
  if suspended instance then instance else set_suspended true instance.

Definition setTimer (now : Q) (name : string) (wait : option Q) : M unit :=
  match wait with
  | Some w => modify (fun s => set_advanceTimers (advanceTimers s ++ [(name, (now + w)%Q)]) s)
  | None => ret tt
  end.

Definition unsuspend (now : Q) (name : string) : M unit :=
  let! instance := getInstance name in
  let r := unsuspendInstance now instance in
  updInstance name (fun _ => fst r);;
  setTimer now name (snd r).

(** ** Event store and broadcast *)

Definition addInstanceEvent (event : Event) (instance : Instance) : Instance :=
  match events instance !! ev_f event with
  | None => set_events (<[ev_f event := [event]]> (events instance)) instance
  | Some l => set_events (<[ev_f event := l ++ [event]]> (events instance)) instance
  end.

Definition subscribeControllerToBroadcasts (cid : Z) : M unit :=
  let! c := getController cid in
  updInstance (instanceName c)
    (fun i => set_broadcastControllers ({[controllerId c]} ∪ broadcastControllers i) i).

Definition unsubscribeControllerFromBroadcasts (cid : Z) : M unit :=
  let! c := getController cid in
  updInstance (instanceName c)
    (fun i => set_broadcastControllers (broadcastControllers i ∖ {[controllerId c]}) i).

(** The sends of the loop in [broadcastEventToInstance]. *)
Definition eventSends (now : Q) (instance : Instance) (event : Event)
    (addTimestamp : bool) : list Output :=
  map (fun i =>
         if addTimestamp && (toInt32 i =? ev_c event)
         then Send i (MsgEvent event (Some (getTimingPongForInstance now instance)))
         else Send i (MsgEvent event None))
      (ascending (broadcastControllers instance)).

Definition broadcastEventToInstance (now : Q) (name : string) (event : Event)
    (addTimestamp : bool) : M unit :=
  updInstance name (addInstanceEvent event);;
  let! instance := getInstance name in
  emit (eventSends now instance event addTimestamp).

Definition storeAndEchoInstanceEvent (now : Q) (name : string) (event : Event)
    (addTimestamp : bool) : M unit :=
  updInstance name (addInstanceEvent event);;
  let! instance := getInstance name in
  when bool_decide (ev_c event ∈ broadcastControllers instance) then
    emit [Send (ev_c event)
            (MsgEvent event
               (if addTimestamp then Some (getTimingPongForInstance now instance)
                else None))].

Definition eventsPile (instance : Instance) : list Event :=
  flat_map (fun key => default [] (events instance !! key))
           (ascending (dom (events instance))).

Definition sendInstanceSnapshot (cid : Z) : M unit :=
  let! c := getController cid in
  let! instance := getInstance (instanceName c) in
  let! p := getPlayset instance in
  let! conf := gets config in
  emit [Send cid
          (MsgS (getName p) (controllerId c) (pastHorizonControllerStatus instance)
             (serializeGameState p (pastHorizonState instance))
             (pastHorizonFrameNumber instance) (eventsPile instance) FPS
             (orDefault (maxChatMessageLength conf) DEFAULT_MAX_CHAT_MESSAGE_LENGTH)
             (globalChatTokens c))].

(** ** Controller lifecycle *)

Definition resetConnectionTimeout (now : Q) (cid : Z) : M unit :=
  updController cid (set_timeoutAt (Some (now + TIMEOUT_MILLIS)%Q)).

Definition abandonConnectionTimeout (cid : Z) : M unit :=
  updController cid (set_timeoutAt None).

Definition makeControllerLive (now : Q) (cid : Z) : M unit :=
  updController cid (set_lifecycle LLive);;
  let! c := getController cid in
  modify (fun s => set_liveControllers (<[username c := cid]> (liveControllers s)) s);;
  let! instance := getInstance (instanceName c) in
  let instanceFrameNow := getPresentFrameNumber instance in
  updController cid (fun c => set_commandRateCounters ∅
                                (set_minFrameNumber instanceFrameNow
                                   (set_lastCommandNumber 0 c)));;
  let! us := gets users in
  match us !! username c with
  | None => throw (TypeError "users[controller.username] is undefined")
  | Some u =>
      let connect := connectEvent (controllerId c) (username c) instanceFrameNow (u_config u) in
      broadcastEventToInstance now (instanceName c) connect false;;
      subscribeControllerToBroadcasts cid;;
      let! conf := gets config in
      updController cid
        (set_globalChatTokens (orDefault (globalChatBurstSize conf) DEFAULT_CHAT_BURST_SIZE));;
      sendInstanceSnapshot cid;;
      resetConnectionTimeout now cid
  end.

Definition isLive (l : Lifecycle) : bool := match l with LLive => true | _ => false end.
Definition isOutbox (l : Lifecycle) : bool := match l with LOutbox => true | _ => false end.
Definition isInbox (l : Lifecycle) : bool := match l with LInbox => true | _ => false end.
Definition isNew (l : Lifecycle) : bool := match l with LNew => true | _ => false end.

Definition disconnectController (now : Q) (cid : Z) : M unit :=
  let! c := getController cid in
  (when isLive (lifecycle c) then
     updController cid (set_lifecycle LOutbox);;
     modify (fun s => set_outboxControllers (<[username c := cid]> (outboxControllers s)) s);;
     modify (fun s => set_liveControllers (delete (username c) (liveControllers s)) s);;
     let! instance := getInstance (instanceName c) in
     let frameNumber := getPresentFrameNumber instance in
     let frameNumber :=
       if frameNumber <? minFrameNumber c then minFrameNumber c else frameNumber in
     unsubscribeControllerFromBroadcasts cid;;
     broadcastEventToInstance now (instanceName c)
       (disconnectEvent (controllerId c) frameNumber) false);;
  abandonConnectionTimeout cid;;
  let! c := getController cid in
  let! table := gets controllers in
  (when bool_decide (controllerId c ∈ table) && negb (isOutbox (lifecycle c)) then
     (when isInbox (lifecycle c) then
        modify (fun s => set_inboxControllers (delete (username c) (inboxControllers s)) s));;
     modify (fun s => set_controllers (controllers s ∖ {[controllerId c]}) s));;
  updController cid (set_disconnected true).

Definition controllerError (now : Q) (cid : Z) (errorString : string) : M unit :=
  emit [Send cid (MsgE errorString)];;
  emit [Close cid];;
  disconnectController now cid.

Definition controllerDone (now : Q) (cid : Z) (resultString : string) : M unit :=
  emit [Send cid (MsgD resultString)];;
  emit [Close cid];;
  disconnectController now cid.

(** ** Client-to-server messages *)

(** A parsed inbound message.  A field the message does not carry is [None].
    [m_f] and [m_s] are integers, the text fields are strings; [m_c] is
    whatever the client put under "c".  That [m_f] is an integer is assumed
    of the client: the server does not refuse a message whose "f" is not
    one. *)
Record Message := mkMessage {
  m_k : string;
  m_f : option Z;
  m_i : option string;
  m_s : option Z;
  m_o : option string;
  m_a : option string;
  m_u : option string;
  m_p : option string;
  m_n : option string;
  m_c : option value
}.

(** ToBoolean and ToString on a JSON-shaped value. *)
Definition truthy (v : value) : bool :=
  match v with
  | VNull | VUndefined => false
  | VBool b => b
  | VNumber (NumInt z) => negb (z =? 0)
  | VNumber NumNegZero => false
  | VNumber (NumOther t) => negb (String.eqb t "NaN")
  | VString s => negb (String.eqb s "")
  | VArray _ | VObject _ | VOther _ => true
  end.

Fixpoint valueToString (v : value) : string :=
  match v with
  | VNull => "null"
  | VUndefined => "undefined"
  | VBool true => "true"
  | VBool false => "false"
  | VNumber n => numberToString n
  | VString s => s
  | VArray elems =>
      (fix join (l : list value) : string :=
         match l with
         | [] => ""
         | x :: rest =>
             let item := match x with
                         | VNull | VUndefined => ""
                         | _ => valueToString x
                         end in
             match rest with
             | [] => item
             | _ => item +:+ "," +:+ join rest
             end
         end) elems
  | VObject _ => "[object Object]"
  | VOther t => t
  end%string.

(** ** Inbound validation *)

Definition validateFrameOrCommandMessage (now : Q) (cid : Z) (message : Message) : M bool :=
  let! c := getController cid in
  if negb (isLive (lifecycle c)) then
    controllerError now cid "game message sent without a valid login";; ret false
  else
  match m_f message with
  | None => controllerError now cid "malformed message, no frame number";; ret false
  | Some f =>
      (* message.f !== message.f|0 groups as (message.f !== message.f)|0 *)
      if negb (Z.lor (Z.b2z (negb (f =? f))) 0 =? 0) then
        controllerError now cid "malformed message, non-integer frame number";; ret false
      else if toInt32 f <? minFrameNumber c then
        controllerError now cid "out-of-order message";; ret false
      else
        let! instance := getInstance (instanceName c) in
        let present := getPresentFrameNumber instance in
        if toInt32 f >? present + FUTURE_HORIZON_FRAMES then
          controllerError now cid "client timestamps are running too fast";; ret false
        else if f <? pastHorizonFrameNumber instance then
          ret false
        else ret true
  end.

(** [value > limit] where the limit is read from a table and may be
    [undefined], which makes the comparison false. *)
Definition exceeds (n : Z) (limit : option Z) : bool :=
  match limit with Some l => n >? l | None => false end.

Definition onFrameMessage (now : Q) (cid : Z) (message : Message) : M unit :=
  let! valid := validateFrameOrCommandMessage now cid message in
  when valid then
    let! c := getController cid in
    let inp := stringOrUndefined (m_i message) in
    let! limits := gets playsetInputLengthLimits in
    if exceeds (strlen inp) (limits !! playsetName c) then
      controllerError now cid "client sent too-large input message"
    else
      let f := default 0 (m_f message) in
      updController cid (fun c => set_commandRateCounters ∅
                                    (set_lastCommandNumber 0
                                       (set_minFrameNumber (f + 1) c)));;
      let event := frameEvent (controllerId c) f inp in
      (if negb (bool_decide (Some inp = lastFrameInput c)) then
         updController cid (set_lastFrameInput (Some inp));;
         broadcastEventToInstance now (instanceName c) event true
       else
         storeAndEchoInstanceEvent now (instanceName c) event true);;
      resetConnectionTimeout now cid.

Definition bumpCounter (cmd : string) (counters : gmap string Z) : gmap string Z :=
  match counters !! cmd with
  | Some n => <[cmd := n + 1]> counters
  | None => <[cmd := 1]> counters
  end.

Definition onCommandMessage (now : Q) (cid : Z) (message : Message) : M unit :=
  let! valid := validateFrameOrCommandMessage now cid message in
  when valid then
    let! c := getController cid in
    let serial := toInt32 (default 0 (m_s message)) in
    if serial =? 0 then
      controllerError now cid "client sent command message without serial"
    else
    let arg := match m_a message with Some a => a | None => ""%string end in
    let playsetName := playsetName c in
    let! argLimits := gets playsetArgumentLengthLimits in
    if exceeds (strlen arg) (argLimits !! playsetName) then
      controllerError now cid "client sent too-large command argument"
    else
    let cmd := stringOrUndefined (m_o message) in
    let! rateLimits := gets playsetCommandRateLimits in
    match rateLimits !! playsetName with
    | None => throw (TypeError "playsetCommandRateLimits[playsetName] is undefined")
    | Some limits =>
    match limits !! cmd with
    | None => controllerError now cid "client sent invalid command for this playset"
    | Some limit =>
    if match commandRateCounters c !! cmd with
       | Some n => n >=? limit
       | None => false
       end
    then controllerError now cid "client exceeded command rate limit"
    else
      let f := default 0 (m_f message) in
      (when f >? minFrameNumber c then
         updController cid (fun c => set_commandRateCounters ∅
                                       (set_lastCommandNumber 0
                                          (set_minFrameNumber f c))));;
      let! c := getController cid in
      (when serial <=? lastCommandNumber c then
         controllerError now cid "client sent out-of-order command message");;
      let! c := getController cid in
      let event := commandEvent (controllerId c) f cmd arg serial in
      updController cid (set_lastCommandNumber serial);;
      updController cid (fun c => set_commandRateCounters
                                    (bumpCounter cmd (commandRateCounters c)) c);;
      broadcastEventToInstance now (instanceName c) event false;;
      resetConnectionTimeout now cid
    end end.

(** ** The horizon advancer *)

Record Partition := mkPartition {
  connects : list ConnectArg;
  commands : list CommandArg;
  disconnects : list Z
}.

(** The loop over the sorted events of the frame. *)
Fixpoint partitionEvents (name : string) (evs : list Event) (acc : Partition) : M Partition :=
  match evs with
  | [] => ret acc
  | e :: rest =>
      match ev_k e with
      | KConnect =>
          updInstance name
            (fun i => set_pastHorizonControllerStatus
                        (<[keyOf (ev_c e) := mkStatus (ev_u e) ""]>
                           (pastHorizonControllerStatus i)) i);;
          partitionEvents name rest
            (mkPartition (connects acc ++ [mkConnectArg (ev_c e) (ev_u e) (ev_d e)])
               (commands acc) (disconnects acc))
      | KCommand =>
          partitionEvents name rest
            (mkPartition (connects acc)
               (commands acc ++ [mkCommandArg (ev_c e) (ev_o e) (ev_a e)])
               (disconnects acc))
      | KFrame =>
          let! instance := getInstance name in
          match pastHorizonControllerStatus instance !! keyOf (ev_c e) with
          | Some st =>
              updInstance name
                (fun i => set_pastHorizonControllerStatus
                            (<[keyOf (ev_c e) := mkStatus (cs_u st) (stringOrUndefined (ev_i e))]>
                               (pastHorizonControllerStatus i)) i);;
              partitionEvents name rest acc
          | None => throw (Error "event order invariant violation")
          end
      | KDisconnect =>
          partitionEvents name rest
            (mkPartition (connects acc) (commands acc) (disconnects acc ++ [ev_c e]))
      end
  end.

(** [Object.getOwnPropertyNames(status)] followed by
    [.sort(integerComparator)].  The names are distinct strings, on which the
    comparator never answers 0, so the order they are listed in before the
    sort does not show in the result. *)
Definition controllersConnected (status : gmap string ControllerStatus) : list string :=
  arraySort integerComparator (map fst (map_to_list status)).

Definition buildInputs (status : gmap string ControllerStatus) : list InputArg :=
  map (fun c => mkInputArg c (default ""%string (cs_i <$> status !! c)))
      (controllersConnected status).

(** The loop over [disconnects] after the playset has run. *)
Fixpoint disconnectLoop (now : Q) (name : string) (ds : list Z) : M unit :=
  match ds with
  | [] => ret tt
  | d :: rest =>
      let! instance := getInstance name in
      match pastHorizonControllerStatus instance !! keyOf d with
      | None => throw (TypeError "pastHorizonControllerStatus[disconnects[i]] is undefined")
      | Some st =>
          let username := stringOrUndefined (cs_u st) in
          let! inbox := gets inboxControllers in
          match inbox !! username with
          | Some ctr =>
              modify (fun s => set_inboxControllers (delete username (inboxControllers s)) s);;
              makeControllerLive now ctr
          | None => ret tt
          end;;
          let! outbox := gets outboxControllers in
          modify (fun s => set_outboxControllers (delete username (outboxControllers s)) s);;
          match outbox !! username with
          | None => throw (TypeError "oldController is undefined")
          | Some old =>
              let! oldController := getController old in
              modify (fun s => set_controllers
                                 (controllers s ∖ {[controllerId oldController]}) s);;
              updInstance name
                (fun i => set_pastHorizonControllerStatus
                            (delete (keyOf d) (pastHorizonControllerStatus i)) i);;
              disconnectLoop now name rest
          end
      end
  end.

(** [n % interval == 0] for an integer [n]. *)
Definition isMultiple (n : Z) (interval : Q) : bool :=
  negb (Qeq_bool interval 0) && (Qden (Qred (inject_Z n / interval)) =? 1)%positive.

(** The arguments [advanceHorizonState] hands to
    [playset.advanceGameState], next to the state. *)
Record PlaysetCall := mkCall {
  call_connects : list ConnectArg;
  call_commands : list CommandArg;
  call_inputs : list InputArg;
  call_disconnects : list Z
}.

(** The first half of [advanceHorizonState]: take the frame's events, sort
    and partition them, and build the inputs. *)
Definition prepareAdvance (name : string) : M PlaysetCall :=
  let! instance := getInstance name in
  let frame := pastHorizonFrameNumber instance in
  let evs := default [] (events instance !! frame) in
  updInstance name (fun i => set_events (delete frame (events i)) i);;
  let sorted := arraySort instanceEventComparator evs in
  let! parts := partitionEvents name sorted (mkPartition [] [] []) in
  let! instance := getInstance name in
  let inputs := buildInputs (pastHorizonControllerStatus instance) in
  ret (mkCall (connects parts) (commands parts) inputs (disconnects parts)).

Definition advanceHorizonState (now : Q) (name : string) : M unit :=
  let! call := prepareAdvance name in
  let! instance := getInstance name in
  let! p := getPlayset instance in
  updInstance name
    (fun i => set_pastHorizonState
                (advanceGameState p (pastHorizonState i) (call_connects call)
                   (call_commands call) (call_inputs call) (call_disconnects call)) i);;
  disconnectLoop now name (call_disconnects call);;
  updInstance name
    (fun i => set_pastHorizonFrameNumber (pastHorizonFrameNumber i + 1) i);;
  let! instance := getInstance name in
  let! conf := gets config in
  let frame := pastHorizonFrameNumber instance in
  let broadcastFrame :=
    match frameBroadcastInterval conf with
    | Some interval => isMultiple frame interval
    | None => isMultiple frame DEFAULT_FRAME_BROADCAST_INTERVAL
    end in
  let hashFrame :=
    match hashGameState p with
    | Some _ =>
        match hashSyncInterval conf with
        | Some interval => isMultiple frame interval
        | None => isMultiple frame DEFAULT_HASH_SYNC_INTERVAL
        end
    | None => false
    end in
  let msg :=
    match hashGameState p with
    | Some hash =>
        if hashFrame then Some (MsgF frame (Some (hash (pastHorizonState instance))))
        else if broadcastFrame then Some (MsgF frame None) else None
    | None => if broadcastFrame then Some (MsgF frame None) else None
    end in
  match msg with
  | Some m => emit (map (fun i => Send i m) (ascending (broadcastControllers instance)))
  | None => ret tt
  end.

(** The [while(now>=nextFrameTime)] loop of [onAdvanceTimeout]. *)
Fixpoint advanceWhile (fuel : nat) (now : Q) (name : string) (nextFrameTime : Q) : M unit :=
  match fuel with
  | O => ret tt
  | S fuel' =>
      if Qgeb now nextFrameTime then
        advanceHorizonState now name;;
        updInstance name
          (fun i => set_pastHorizonPerfTime (pastHorizonPerfTime i + frameMillis)%Q i);;
        advanceWhile fuel' now name (nextFrameTime + frameMillis)%Q
      else ret tt
  end.

(** How many times the loop condition holds. *)
Definition advancesDue (now nextFrameTime : Q) : nat :=
  if Qgeb now nextFrameTime
  then Z.to_nat (Qfloor ((now - nextFrameTime) / frameMillis)%Q + 1)
  else O.

Definition onAdvanceTimeout (now : Q) (name : string) : M unit :=
  let! instance := getInstance name in
  let nextFrameTime :=
    (pastHorizonPerfTime instance
     + inject_Z (PAST_HORIZON_FRAMES + 1) * 1000 / inject_Z FPS)%Q in
  advanceWhile (advancesDue now nextFrameTime) now name nextFrameTime;;
  let! instance := getInstance name in
  if bool_decide (events instance = ∅) && bool_decide (broadcastControllers instance = ∅)
  then updInstance name suspendInstance
  else setTimer now name (scheduleAdvance now instance).

(** ** Passwords *)

(** Node's [crypto] is outside the program: the SHA-256 hex digest of a
    string is a parameter, and the random salt is an input of the handler
    that draws it. *)
Record Crypto := mkCrypto { sha256hex : string -> string }.

Definition makePasswordHash (cr : Crypto) (salt password : string) : string :=
  (salt +:+ "#" +:+ sha256hex cr (salt +:+ password))%string.

(** [s.slice(0,s.indexOf("#"))] *)
Definition saltOf (hashWanted : string) : string :=
  match String.index 0 "#" hashWanted with
  | Some n => String.substring 0 n hashWanted
  | None => String.substring 0 (String.length hashWanted - 1) hashWanted
  end.

Definition doesPasswordMatchHash (cr : Crypto) (password hashWanted : string) : bool :=
  let salt := saltOf hashWanted in
  String.eqb hashWanted (salt +:+ "#" +:+ sha256hex cr (salt +:+ password))%string.

(** ** Login *)

Definition onLoginMessage (cr : Crypto) (now : Q) (cid : Z) (message : Message) : M unit :=
  let! c := getController cid in
  if negb (isNew (lifecycle c)) then
    controllerError now cid "client sent login message at inappropriate time"
  else
  let u := stringOrUndefined (m_u message) in
  let! us := gets users in
  if negb (match us !! u with
           | Some user =>
               doesPasswordMatchHash cr (stringOrUndefined (m_p message)) (u_password user)
           | None => false
           end)
  then controllerError now cid "incorrect username/password"
  else
  let instanceName := stringOrUndefined (m_n message) in
  let! insts := gets instances in
  match insts !! instanceName with
  | None => controllerError now cid "instance name does not exist"
  | Some instance =>
      let! inbox := gets inboxControllers in
      let! live := gets liveControllers in
      if bool_decide (is_Some (inbox !! u)) || bool_decide (is_Some (live !! u)) then
        controllerError now cid "you are already logged in (check other browser tabs)"
      else
        unsuspend now instanceName;;
        let! p := getPlayset instance in
        updController cid (set_login u instanceName (getName p));;
        let! instance := getInstance instanceName in
        emit [Send cid (MsgW (getTimingPongForInstance now instance))];;
        let! outbox := gets outboxControllers in
        if bool_decide (is_Some (outbox !! u)) then
          updController cid (set_lifecycle LInbox);;
          modify (fun s => set_inboxControllers (<[u := cid]> (inboxControllers s)) s);;
          abandonConnectionTimeout cid
        else makeControllerLive now cid
  end.

(** ** Self-serve user creation *)

Fixpoint usernameCharacters (first : bool) (chars : list ascii) : option string :=
  match chars with
  | [] => None
  | ch :: rest =>
      let code := charCode ch in
      if ((code <? 65) || (code >? 90)) && ((code <? 97) || (code >? 122))
         && ((code <? 48) || (code >? 57))
      then Some "usernames must be ASCII alphanumeric"%string
      else if first && (code >=? 48) && (code <=? 57)
      then Some "usernames may not start with a number"%string
      else usernameCharacters false rest
  end.

Definition validateUsername (now : Q) (username : string) (cid : Z) : M bool :=
  if strlen username <? MIN_USERNAME_LENGTH then
    controllerError now cid ("username too short, minimum " +:+ pretty MIN_USERNAME_LENGTH);;
    ret false
  else if strlen username >? MAX_USERNAME_LENGTH then
    controllerError now cid ("username too short, minimum " +:+ pretty MAX_USERNAME_LENGTH);;
    ret false
  else
    match usernameCharacters true (list_ascii_of_string username) with
    | Some err => controllerError now cid err;; ret false
    | None => ret true
    end.

(** [password] is [None] when [typeof(password)] is not "string". *)
Definition validatePassword (now : Q) (password : option string) (cid : Z) : M bool :=
  match password with
  | None =>
      controllerError now cid "malformed password data (not a Unicode string)";; ret false
  | Some password =>
      if strlen password <? MIN_PASSWORD_LENGTH then
        controllerError now cid ("password too short, minimum " +:+ pretty MIN_PASSWORD_LENGTH);;
        ret false
      else if strlen password >? MAX_PASSWORD_LENGTH then
        controllerError now cid ("password too short, minimum " +:+ pretty MAX_PASSWORD_LENGTH);;
        ret false
      else ret true
  end.

(** The function names its second parameter [message] and then uses
    [controller], which is not bound there. *)
Definition validateUserConfigLength (config : string) : M bool :=
  if strlen config >? MAX_USER_CONFIG_LENGTH then
    throw (ReferenceError "controller is not defined")
  else ret true.

Definition onCreateUserMessage (cr : Crypto) (salt : string) (now : Q) (cid : Z)
    (message : Message) : M unit :=
  let usernameWanted := stringOrUndefined (m_u message) in
  let! ok := validateUsername now usernameWanted cid in
  when ok then
  let passwordWanted := m_p message in
  let! ok := validatePassword now passwordWanted cid in
  when ok then
  let configWanted :=
    match m_c message with
    | Some v => if truthy v then valueToString v else ""%string
    | None => ""%string
    end in
  let! ok := validateUserConfigLength configWanted in
  when ok then
  let! c := getController cid in
  let! counts := gets selfServeUserCounts in
  let existingCount := orDefault (counts !! remoteAddress c) 0 in
  let! conf := gets config in
  (when match selfServeUserLimit conf with
        | None => true
        | Some limit => existingCount >=? limit
        end
   then controllerError now cid "you are not authorized for self-serve user creation");;
  let! us := gets users in
  (when bool_decide (is_Some (us !! usernameWanted))
   then controllerError now cid "username already in use");;
  modify (fun s => set_users
                     (<[usernameWanted :=
                          mkUser usernameWanted
                            (makePasswordHash cr salt (stringOrUndefined passwordWanted))
                            configWanted false (Some (remoteAddress c))]> (users s)) s);;
  modify (fun s => set_selfServeUserCounts
                     (<[remoteAddress c := existingCount + 1]> (selfServeUserCounts s)) s);;
  controllerDone now cid "user created".

(** ** Snapshot loading *)

Fixpoint parseDigits (s : string) (acc : Z) : option Z :=
  match s with
  | EmptyString => Some acc
  | String ch rest =>
      let code := charCode ch in
      if (48 <=? code) && (code <=? 57)
      then parseDigits rest (acc * 10 + (code - 48))
      else None
  end.

(** The integer a property name is the decimal form of, if it is one. *)
Definition parseInteger (s : string) : option Z :=
  let parsed :=
    match s with
    | EmptyString => None
    | String "-" rest => Z.opp <$> parseDigits rest 0
    | _ => parseDigits s 0
    end in
  match parsed with
  | Some z => if String.eqb (keyOf z) s then Some z else None
  | None => None
  end.

(** [c|0] on a property name.  Names that are the decimal form of an integer
    convert to it; every other name is taken to convert to NaN and so to 0
    (hexadecimal, exponent and padded spellings are not modelled). *)
Definition keyToInt32 (c : string) : Z :=
  match parseInteger c with
  | Some z => toInt32 z
  | None => 0
  end.

Definition isArrayIndex (key : string) : bool :=
  match parseInteger key with
  | Some z => (0 <=? z) && (z <? 4294967295)
  | None => false
  end.

(** [for(var c in object)] on a parsed JSON object whose properties are
    listed in text order: array indices ascending, then the other names in
    text order. *)
Definition forInOrder (keys : list string) : list string :=
  map keyOf (merge_sort Z.le (omap (fun k => if isArrayIndex k then parseInteger k else None) keys))
  ++ filter (fun k => isArrayIndex k = false) keys.

Record SnapshotInstance := mkSnapshotInstance {
  si_playsetName : string;
  si_state : string + value;
  si_controllerStatus : option (list (string * ControllerStatus))
}.

Record Snapshot := mkSnapshot {
  o_config : option Config;
  o_users : gmap string User;
  o_nextControllerID : Z;
  o_instances : list (string * SnapshotInstance)
}.

(** What [loadPlaysets] leaves behind. *)
Record Registry := mkRegistry {
  playsets : gmap string Playset;
  commandRateLimits : gmap string (gmap string Z);
  inputLengthLimits : gmap string Z;
  argumentLengthLimits : gmap string Z
}.

(** The body of the loop over [o.instances] in [loadServerState]. *)
Definition loadInstance (reg : Registry) (now : Q) (inst : SnapshotInstance)
    : JsError + Instance :=
  let playset := playsets reg !! si_playsetName inst in
  let state :=
    match si_state inst with
    | inl text =>
        match playset with
        | Some p => inr (deserializeGameState p text)
        | None => inl (TypeError "playset is null")
        end
    | inr v => inr v
    end in
  match state with
  | inl e => inl e
  | inr state =>
      let controllerStatus := default [] (si_controllerStatus inst) in
      inr (mkInstance playset 1 state
             (now - inject_Z PAST_HORIZON_FRAMES * inject_Z FPS / 1000)%Q
             (list_to_map controllerStatus)
             {[ 1 := map (fun c => disconnectEvent (keyToInt32 c) 1)
                         (forInOrder (map fst controllerStatus)) ]}
             ∅ true)
  end.

Fixpoint loadInstances (reg : Registry) (now : Q) (l : list (string * SnapshotInstance))
    (acc : gmap string Instance) : JsError + gmap string Instance :=
  match l with
  | [] => inr acc
  | (k, inst) :: rest =>
      match loadInstance reg now inst with
      | inl e => inl e
      | inr i => loadInstances reg now rest (<[k := i]> acc)
      end
  end.

Definition emptyConfig : Config := mkConfig None None None None None.

Definition countSelfServe (us : gmap string User) : gmap string Z :=
  map_fold (fun _ u counts =>
              match u_selfServeAddress u with
              | Some a => <[a := orDefault (counts !! a) 0 + 1]> counts
              | None => counts
              end) ∅ us.

Definition loadServerState (reg : Registry) (origin : option string) (now : Q)
    (o : Snapshot) : JsError + Server :=
  match loadInstances reg now (o_instances o) ∅ with
  | inl e => inl e
  | inr insts =>
      inr (mkServer (default emptyConfig (o_config o)) (o_users o) insts ∅ ∅
             (o_nextControllerID o) (countSelfServe (o_users o)) ∅ ∅ ∅ origin
             (commandRateLimits reg) (inputLengthLimits reg) (argumentLengthLimits reg)
             [] [])
  end.

(** ** Sockets and dispatch *)

Inductive Payload :=
| Unparsable
| NotAnObject
| One (message : Message)
| Many (messages : list (option Message)).

Definition newController (id : Z) (address : string) (local : bool) : Controller :=
  mkController id address local LNew "" "" "" 0 0 ∅ None 0 None false.

Definition onSocketConnection (now : Q) (address : string) (origin : option string) : M unit :=
  let local := bool_decide (address ∈ ["::1"; "127.0.0.1"; "::ffff:127.0.0.1"]%string) in
  let! required := gets requiredOrigin in
  if negb local
     && match required with
        | Some r => negb (String.eqb r "") && negb (bool_decide (origin = Some r))
        | None => false
        end
  then emit [Refuse address]
  else
    let! id := gets nextControllerID in
    modify (fun s => set_store (<[id := newController id address local]> (store s)) s);;
    resetConnectionTimeout now id;;
    modify (fun s => set_controllers ({[id]} ∪ controllers s) s);;
    modify (fun s => set_nextControllerID (nextControllerID s + 1) s).

(** The message kinds whose handlers are part of this development. *)
Definition onInboundMessage (cr : Crypto) (salt : string) (now : Q) (cid : Z)
    (message : Message) : M unit :=
  if String.eqb (m_k message) "f" then onFrameMessage now cid message
  else if String.eqb (m_k message) "o" then onCommandMessage now cid message
  else if String.eqb (m_k message) "l" then onLoginMessage cr now cid message
  else if String.eqb (m_k message) "selfServeCreateUser"
  then onCreateUserMessage cr salt now cid message
  else controllerError now cid "unknown message type".

(** Kinds with a handler in server.js that is not embedded here. *)
Definition notEmbedded : list string :=
  ["g"; "prelogin"; "changeMyPassword"; "getMyConfig"; "setMyConfig";
   "dirtyShutdown"; "cleanShutdown"]%string.

Fixpoint dispatchAll (cr : Crypto) (salt : string) (now : Q) (cid : Z)
    (messages : list (option Message)) : M unit :=
  match messages with
  | [] => ret tt
  | m :: rest =>
      let! c := getController cid in
      when negb (disconnected c) then
        match m with
        | None => controllerError now cid "non-JSON network message"
        | Some message =>
            onInboundMessage cr salt now cid message;;
            dispatchAll cr salt now cid rest
        end
  end.

Definition onSocketMessage (cr : Crypto) (salt : string) (now : Q) (cid : Z)
    (e : Payload) : M unit :=
  let! c := getController cid in
  when negb (disconnected c) then
    match e with
    | Unparsable => controllerError now cid "server could not parse network message"
    | NotAnObject => controllerError now cid "non-JSON network message"
    | One message => onInboundMessage cr salt now cid message
    | Many messages => dispatchAll cr salt now cid messages
    end.

Definition onSocketError (now : Q) (cid : Z) : M unit :=
  let! c := getController cid in
  when negb (disconnected c) then controllerError now cid "server detected network error".

Definition onSocketClose (now : Q) (cid : Z) : M unit :=
  let! c := getController cid in
  when negb (disconnected c) then disconnectController now cid.

Definition handleControllerTimeout (now : Q) (cid : Z) : M unit :=
  controllerError now cid "connection timed out".

(** ** The server as a transition system *)

Inductive Input :=
| SocketConnection (address : string) (origin : option string)
| SocketMessage (cid : Z) (e : Payload) (salt : string)
| SocketError (cid : Z)
| SocketClose (cid : Z)
| ControllerTimeout (cid : Z)
| AdvanceTimeout (name : string) (due : Q).

Definition embedded (m : option Message) : bool :=
  match m with
  | Some message => negb (bool_decide (m_k message ∈ notEmbedded))
  | None => true
  end.

Definition isTimer (name : string) (due : Q) (t : string * Q) : bool :=
  String.eqb (fst t) name && Qeq_bool (snd t) due.

Fixpoint removeTimer (name : string) (due : Q) (l : list (string * Q)) : list (string * Q) :=
  match l with
  | [] => []
  | t :: rest => if isTimer name due t then rest else t :: removeTimer name due rest
  end.

(** Whether the event can happen in state [s] at time [now]: sockets exist,
    timers have been set and are due. *)
Definition enabled (now : Q) (inp : Input) (s : Server) : bool :=
  match inp with
  | SocketConnection _ _ => true
  | SocketMessage cid e _ =>
      bool_decide (is_Some (store s !! cid))
      && match e with
         | One message => embedded (Some message)
         | Many messages => forallb embedded messages
         | _ => true
         end
  | SocketError cid | SocketClose cid => bool_decide (is_Some (store s !! cid))
  | ControllerTimeout cid =>
      match store s !! cid with
      | Some c => match timeoutAt c with Some t => Qle_bool t now | None => false end
      | None => false
      end
  | AdvanceTimeout name due =>
      existsb (isTimer name due) (advanceTimers s) && Qle_bool due now
  end.

Definition handle (cr : Crypto) (now : Q) (inp : Input) : M unit :=
  match inp with
  | SocketConnection address origin => onSocketConnection now address origin
  | SocketMessage cid e salt => onSocketMessage cr salt now cid e
  | SocketError cid => onSocketError now cid
  | SocketClose cid => onSocketClose now cid
  | ControllerTimeout cid => handleControllerTimeout now cid
  | AdvanceTimeout name due =>
      modify (fun s => set_advanceTimers (removeTimer name due (advanceTimers s)) s);;
      onAdvanceTimeout now name
  end.

(** [reachable cr reg t s]: the server, started from some snapshot with the
    playset registry [reg], can be in state [s] at time [t]. *)
Inductive reachable (cr : Crypto) (reg : Registry) : Q -> Server -> Prop :=
| reach_load origin now o s :
    loadServerState reg origin now o = inr s ->
    reachable cr reg now s
| reach_step t s now inp s' :
    reachable cr reg t s ->
    Qle_bool t now = true ->
    enabled now inp s = true ->
    handle cr now inp s = Ok tt s' ->
    reachable cr reg now s'.

(** Running a list of timed inputs, stopping at the first that is not
    enabled, goes back in time, or throws. *)
Fixpoint run (cr : Crypto) (t : Q) (inputs : list (Q * Input)) (s : Server) : option Server :=
  match inputs with
  | [] => Some s
  | (now, inp) :: rest =>
      if Qle_bool t now && enabled now inp s then
        match handle cr now inp s with
        | Ok _ s' => run cr now rest s'
        | Throw _ _ => None
        end
      else None
  end.

(** ** Concrete servers used by the examples *)

Definition sampleState : value :=
  VObject [("dots"%string,
            VArray [VNumber (NumInt 3); VNumber NumNegZero; VString "a"; VNull]);
           ("n"%string, VBool true)].

(** A stand-in digest; the examples do not depend on which one it is. *)
Definition toyCrypto : Crypto := mkCrypto (fun s => s).

Definition idsOf (l : list Z) : value := VArray (map (fun c => VNumber (NumInt c)) l).

(** A playset whose state is the log of what [advanceGameState] was handed:
    per frame, the controllers of the connects, of the commands, of the
    inputs, and the disconnects, in the order received. *)
Definition recordingPlayset : Playset :=
  mkPlayset "testgame1"
    (fun state connects commands inputs disconnects =>
       match state with
       | VArray log =>
           VArray (log ++ [VArray [idsOf (map ca_c connects);
                                   idsOf (map co_c commands);
                                   VArray (map (fun i => VString (in_c i)) inputs);
                                   idsOf disconnects]])
       | _ => state
       end)
    (fun _ => "[]"%string) (fun _ => VArray []) None.

Definition testRegistry : Registry :=
  mkRegistry {[ "testgame1"%string := recordingPlayset ]}
             {[ "testgame1"%string := {[ "fire"%string := 3 ]} ]}
             {[ "testgame1"%string := 20000 ]}
             {[ "testgame1"%string := 20000 ]}.

Definition userRecord (name : string) : User :=
  mkUser name (makePasswordHash toyCrypto "ab" "pw") "" false None.

Definition testUsers : gmap string User :=
  {[ "alice"%string := userRecord "alice"; "bob"%string := userRecord "bob" ]}.

(** serverstate.json: one instance "room", no controller status stored. *)
Definition freshSnapshot : Snapshot :=
  mkSnapshot None testUsers 2
    [("room"%string, mkSnapshotInstance "testgame1" (inr (VArray [])) None)].

(** serverstate.json as written by a shutdown while alice (controller 5) was
    connected. *)
Definition savedSnapshot : Snapshot :=
  mkSnapshot None testUsers 6
    [("room"%string,
      mkSnapshotInstance "testgame1" (inr (VArray []))
        (Some [("5"%string, mkStatus (Some "alice"%string) "")]))].

Definition started (o : Snapshot) : option Server :=
  match loadServerState testRegistry None 0 o with
  | inr s => Some s
  | inl _ => None
  end.

Definition noFields (k : string) : Message :=
  mkMessage k None None None None None None None None None.

Definition loginMessage (u : string) : Message :=
  mkMessage "l" None None None None None (Some u) (Some "pw"%string) (Some "room"%string) None.

Definition frameMessage (f : Z) (i : string) : Message :=
  mkMessage "f" (Some f) (Some i) None None None None None None None.

Definition commandMessage (f s : Z) (o : string) : Message :=
  mkMessage "o" (Some f) None (Some s) (Some o) None None None None None.

Definition createUserMessage (u p : string) : Message :=
  mkMessage "selfServeCreateUser" None None None None None (Some u) (Some p) None None.

(** The k-th deadline of the advance timer once the instance was woken at
    time 1000, and its firing exactly then. *)
Definition tick (k : nat) : Q * Input :=
  let due := ((3100 # 3) + inject_Z (Z.of_nat k) * (100 # 3))%Q in
  (due, AdvanceTimeout "room" due).

Definition ticks (n : nat) : list (Q * Input) := map tick (seq 0 n).

Definition connectAndLogin (t : Q) (cid : Z) (u : string) : list (Q * Input) :=
  [(t, SocketConnection "203.0.113.7" None);
   (t, SocketMessage cid (One (loginMessage u)) "")].

(** Scenario S2 of the design document with bob's command arriving first:
    alice is controller 2, bob controller 3, both send "fire" with serial 1
    for frame 20, and the horizon then advances up to frame 20. *)
Definition bobFirst : list (Q * Input) :=
  connectAndLogin 1000 2 "alice" ++ connectAndLogin 1000 3 "bob"
  ++ [(1010%Q, SocketMessage 3 (One (commandMessage 20 1 "fire")) "");
      (1020%Q, SocketMessage 2 (One (commandMessage 20 1 "fire")) "")]
  ++ ticks 19.

Definition aliceFirst : list (Q * Input) :=
  connectAndLogin 1000 2 "alice" ++ connectAndLogin 1000 3 "bob"
  ++ [(1010%Q, SocketMessage 2 (One (commandMessage 20 1 "fire")) "");
      (1020%Q, SocketMessage 3 (One (commandMessage 20 1 "fire")) "")]
  ++ ticks 19.

(** alice logs in as controller 2; seven sockets connect and stay silent;
    bob logs in as controller 10; the horizon advances past their connects. *)
Definition twoAndTen : list (Q * Input) :=
  connectAndLogin 1000 2 "alice"
  ++ map (fun _ => (1000%Q, SocketConnection "203.0.113.7" None)) (seq 0 7)
  ++ connectAndLogin 1000 10 "bob"
  ++ ticks 16.

(** What the playset is handed at the next advance of "room". *)
Definition nextCall (s : Server) : option PlaysetCall :=
  match prepareAdvance "room" s with
  | Ok call _ => Some call
  | Throw _ _ => None
  end.

Definition roomOf (s : Server) : option Instance := instances s !! "room"%string.

(** The server after starting from a snapshot at time 0 and taking the
    inputs. *)
Definition after (o : Snapshot) (inputs : list (Q * Input)) : option Server :=
  match started o with
  | Some s => run toyCrypto 0 inputs s
  | None => None
  end.

Definition observe {A B : Type} (f : A -> option B) (o : option A) : option B :=
  match o with Some a => f a | None => None end.

Definition commandsHanded (s : Server) : option (list Z) :=
  match nextCall s with
  | Some call => Some (map co_c (call_commands call))
  | None => None
  end.

Definition inputsHanded (s : Server) : option (list string) :=
  match nextCall s with
  | Some call => Some (map in_c (call_inputs call))
  | None => None
  end.

(** serverstate.json with self-serve creation allowed, five users per
    address. *)
Definition selfServeSnapshot : Snapshot :=
  mkSnapshot (Some (mkConfig (Some 5) None None None None)) testUsers 2
    [("room"%string, mkSnapshotInstance "testgame1" (inr (VArray [])) None)].

Definition createUser (u p : string) : list (Q * Input) :=
  [(1000%Q, SocketConnection "203.0.113.7" None);
   (1000%Q, SocketMessage 2 (One (createUserMessage u p)) "cd")].

(** What [selfServeCreateUser] left behind: the user record under a name, the
    count for the caller's address, and everything done to the sockets. *)
Definition creationOutcome (u : string) (s : Server)
    : option (option User * option Z * list Output) :=
  Some (users s !! u, selfServeUserCounts s !! "203.0.113.7"%string, trace s).

(** The first advance after a restart, taken when its timer is due. *)
Definition firstAdvance (s : Server) : Result unit :=
  handle toyCrypto (3100 # 3) (AdvanceTimeout "room" (3100 # 3)) s.

(** ** Summaries of handler runs, used to state what a run leaves behind *)

(** The send of [storeAndEchoInstanceEvent]. *)
Definition echoSends (now : Q) (instance : Instance) (event : Event)
    (addTimestamp : bool) : list Output :=
  if bool_decide (ev_c event ∈ broadcastControllers instance) then
    [Send (ev_c event)
       (MsgEvent event
          (if addTimestamp then Some (getTimingPongForInstance now instance) else None))]
  else [].

(** A LIVE controller as [disconnectController] leaves it, and its instance
    once it has been unsubscribed and its Disconnect stored. *)
Definition outboxed (c : Controller) : Controller :=
  set_disconnected true (set_timeoutAt None (set_lifecycle LOutbox c)).

Definition departureEvent (c : Controller) (inst : Instance) : Event :=
  let present := getPresentFrameNumber inst in
  disconnectEvent (controllerId c)
    (if present <? minFrameNumber c then minFrameNumber c else present).

Definition departed (c : Controller) (inst : Instance) : Instance :=
  addInstanceEvent (departureEvent c inst)
    (set_broadcastControllers (broadcastControllers inst ∖ {[controllerId c]}) inst).

(** The state [disconnectController] leaves for a LIVE controller [c] stored
    under [cid] and logged into [inst]. *)
Definition leftOutbox (now : Q) (cid : Z) (c : Controller) (inst : Instance)
    (s : Server) : Server :=
  set_trace (trace s ++ eventSends now (departed c inst) (departureEvent c inst) false)
    (set_instances (<[instanceName c := departed c inst]> (instances s))
       (set_liveControllers (delete (username c) (liveControllers s))
          (set_outboxControllers (<[username c := cid]> (outboxControllers s))
             (set_store (<[cid := outboxed c]> (store s)) s)))).

(** The state [controllerError] leaves for a LIVE controller. *)
Definition refused (now : Q) (cid : Z) (c : Controller) (inst : Instance)
    (err : string) (s : Server) : Server :=
  leftOutbox now cid c inst
    (set_trace (trace s ++ [Send cid (MsgE err); Close cid]) s).

(** The state [disconnectController] leaves for a controller that is not
    LIVE. *)
Definition leftAlone (cid : Z) (c : Controller) (s : Server) : Server :=
  let removed :=
    if bool_decide (controllerId c ∈ controllers s) && negb (isOutbox (lifecycle c))
    then set_controllers (controllers s ∖ {[controllerId c]})
           (if isInbox (lifecycle c)
            then set_inboxControllers (delete (username c) (inboxControllers s)) s
            else s)
    else s in
  set_store (<[cid := set_disconnected true (set_timeoutAt None c)]> (store s)) removed.

(** The checks of [validateFrameOrCommandMessage] that a message stamped [f]
    passes to be admitted. *)
Definition passesValidation (c : Controller) (inst : Instance) (f : Z) : Prop :=
  lifecycle c = LLive
  /\ minFrameNumber c <= toInt32 f
  /\ toInt32 f <= getPresentFrameNumber inst + FUTURE_HORIZON_FRAMES
  /\ pastHorizonFrameNumber inst <= f.

(** The event an admitted frame message is turned into, and the state
    [onFrameMessage] then leaves. *)
Definition admittedFrameEvent (c : Controller) (f : Z) (message : Message) : Event :=
  frameEvent (controllerId c) f (stringOrUndefined (m_i message)).

Definition frameAdmitted (now : Q) (cid : Z) (c : Controller) (inst : Instance) (f : Z)
    (message : Message) (s : Server) : Server :=
  let inp := stringOrUndefined (m_i message) in
  let event := admittedFrameEvent c f message in
  let inst' := addInstanceEvent event inst in
  let c' := set_commandRateCounters ∅ (set_lastCommandNumber 0 (set_minFrameNumber (f + 1) c)) in
  let changed := negb (bool_decide (Some inp = lastFrameInput c)) in
  set_store
    (<[cid := set_timeoutAt (Some (now + TIMEOUT_MILLIS)%Q)
                (if changed then set_lastFrameInput (Some inp) c' else c')]> (store s))
    (set_trace
       (trace s ++ (if changed then eventSends now inst' event true
                    else echoSends now inst' event true))
       (set_instances (<[instanceName c := inst']> (instances s)) s)).

(** The controller as the command handler sees it once the frame window has
    been moved to [f]. *)
Definition windowAt (f : Z) (c : Controller) : Controller :=
  if f >? minFrameNumber c
  then set_commandRateCounters ∅ (set_lastCommandNumber 0 (set_minFrameNumber f c))
  else c.

(** What a command message must satisfy, next to the validation, to reach the
    serial test: a serial, an argument within the limit, a verb the playset
    declares, and a rate counter below the cap. *)
Definition reachesSerialTest (c : Controller) (message : Message) (s : Server) : Prop :=
  toInt32 (default 0 (m_s message)) <> 0
  /\ exceeds (strlen (default ""%string (m_a message)))
             (playsetArgumentLengthLimits s !! playsetName c) = false
  /\ exists limits limit,
       playsetCommandRateLimits s !! playsetName c = Some limits
       /\ limits !! stringOrUndefined (m_o message) = Some limit
       /\ match commandRateCounters c !! stringOrUndefined (m_o message) with
          | Some n => n >=? limit
          | None => false
          end = false.

Definition admittedCommandEvent (c : Controller) (f : Z) (message : Message) : Event :=
  commandEvent (controllerId c) f (stringOrUndefined (m_o message))
    (default ""%string (m_a message)) (toInt32 (default 0 (m_s message))).

(** The tail of [onCommandMessage], from the construction of the event on,
    for the controller [c] found in the store. *)
Definition commandStored (now : Q) (cid : Z) (c : Controller) (inst : Instance) (f : Z)
    (message : Message) (s : Server) : Server :=
  let event := admittedCommandEvent c f message in
  let inst' := addInstanceEvent event inst in
  set_store
    (<[cid := set_timeoutAt (Some (now + TIMEOUT_MILLIS)%Q)
                (set_commandRateCounters
                   (bumpCounter (stringOrUndefined (m_o message)) (commandRateCounters c))
                   (set_lastCommandNumber (toInt32 (default 0 (m_s message))) c))]>
       (store s))
    (set_trace (trace s ++ eventSends now inst' event false)
       (set_instances (<[instanceName c := inst']> (instances s)) s)).

Definition windowState (f : Z) (cid : Z) (c : Controller) (s : Server) : Server :=
  if f >? minFrameNumber c then set_store (<[cid := windowAt f c]> (store s)) s else s.

(** The state [onCommandMessage] leaves when the serial is not above the last
    one of the window: the error is raised, and the handler goes on. *)
Definition outOfOrder (now : Q) (cid : Z) (c : Controller) (inst : Instance) (f : Z)
    (message : Message) (s : Server) : Server :=
  let c1 := windowAt f c in
  commandStored now cid (outboxed c1) (departed c1 inst) f message
    (refused now cid c1 inst "client sent out-of-order command message"
       (windowState f cid c s)).

(** An event is in the store of an instance. *)
Definition stored (event : Event) (inst : Instance) : Prop :=
  exists bucket, events inst !! ev_f event = Some bucket /\ In event bucket.

(** ** Claims as predicates, and the servers they are tried on *)

Definition emptyServer : Server :=
  mkServer emptyConfig ∅ ∅ ∅ ∅ 0 ∅ ∅ ∅ ∅ None ∅ ∅ ∅ [] [].

(** The server reached from a snapshot by a list of inputs. *)
Definition reached (o : Snapshot) (inputs : list (Q * Input)) : Server :=
  default emptyServer (after o inputs).

(** The controller object with a given id, and the instance with a given
    name, in a server that has them. *)
Definition controllerOf (s : Server) (cid : Z) : Controller :=
  default (newController 0 "" false) (store s !! cid).

Definition instanceOf (s : Server) (name : string) : Instance :=
  default (mkInstance None 0 VNull 0 ∅ ∅ ∅ true) (instances s !! name).

(** What a handler run added to the output trace. *)
Definition sent (r : Result unit) (s : Server) : list Output :=
  drop (length (trace s)) (trace (finalState r)).


(** Two messages that differ at most in what they say under "u" and "c". *)
Definition sameButIdentity (m1 m2 : Message) : Prop :=
  m_k m1 = m_k m2 /\ m_f m1 = m_f m2 /\ m_i m1 = m_i m2 /\ m_s m1 = m_s m2
  /\ m_o m1 = m_o m2 /\ m_a m1 = m_a m2 /\ m_p m1 = m_p m2 /\ m_n m1 = m_n m2.

(** Every event that [s'] stores and [s] did not, and every event sent
    between the two, carries the controller id [id]. *)
Definition newEventsCarry (id : Z) (s s' : Server) : Prop :=
  (forall name inst' event,
      instances s' !! name = Some inst' -> stored event inst' ->
      (exists inst, instances s !! name = Some inst /\ stored event inst)
      \/ ev_c event = id)
  /\ exists new,
       trace s' = trace s ++ new
       /\ forall to event t, In (Send to (MsgEvent event t)) new -> ev_c event = id.

(** alice (controller 2) logs in and idles while the horizon advances. *)
Definition aliceIdle (n : nat) : list (Q * Input) :=
  connectAndLogin 1000 2 "alice" ++ ticks n.

Definition idleAt100 : Server := reached freshSnapshot (aliceIdle 99).

(** alice sends the input of frame 104 when the horizon is at 50; her
    [minFrameNumber] is 105 when the horizon reaches 100. *)
Definition aheadAt100 : Server :=
  reached freshSnapshot
    (aliceIdle 49
     ++ [(fst (tick 48), SocketMessage 2 (One (frameMessage 104 "x")) "")]
     ++ map tick (seq 49 50)).

(** alice (2) and bob (3) are logged in; nothing else has happened. *)
Definition bothLoggedIn : Server :=
  reached freshSnapshot (connectAndLogin 1000 2 "alice" ++ connectAndLogin 1000 3 "bob").

(** ... and alice has sent "fire" with serial 1 for frame 20. *)
Definition firedOnce : Server :=
  reached freshSnapshot
    (connectAndLogin 1000 2 "alice" ++ connectAndLogin 1000 3 "bob"
     ++ [(1010%Q, SocketMessage 2 (One (commandMessage 20 1 "fire")) "")]).

(** A message for frame 20 that carries an input and a command, and one
    that also claims to come from bob, controller 3. *)
Definition honestMessage : Message :=
  mkMessage "f" (Some 20) (Some "x"%string) (Some 1) (Some "fire"%string) None
            None None None None.

Definition forgedMessage : Message :=
  mkMessage "f" (Some 20) (Some "x"%string) (Some 1) (Some "fire"%string) None
            (Some "bob"%string) None None (Some (VNumber (NumInt 3))).

(** alice's first input after logging in, for frame 20. *)
Definition afterFirstInput : Server :=
  finalState (onFrameMessage 1010 2 (frameMessage 20 "x") bothLoggedIn).

(** ** Properties of the handlers, as predicates *)

(** An ASCII letter or digit, and a digit, by character code. *)
Definition isAlphanumeric (ch : ascii) : bool :=
  let code := charCode ch in
  ((65 <=? code) && (code <=? 90)) || ((97 <=? code) && (code <=? 122))
  || ((48 <=? code) && (code <=? 57)).

Definition isDigit (ch : ascii) : bool :=
  let code := charCode ch in (48 <=? code) && (code <=? 57).

(** The names [validateUsername] lets through. *)
Definition acceptableUsername (name : string) : bool :=
  (MIN_USERNAME_LENGTH <=? strlen name) && (strlen name <=? MAX_USERNAME_LENGTH)
  && forallb isAlphanumeric (list_ascii_of_string name)
  && match list_ascii_of_string name with
     | ch :: _ => negb (isDigit ch)
     | [] => true
     end.

Definition acceptablePassword (password : option string) : bool :=
  match password with
  | Some p => (MIN_PASSWORD_LENGTH <=? strlen p) && (strlen p <=? MAX_PASSWORD_LENGTH)
  | None => false
  end.

(** The accounts: the users table and the count of self-serve users per
    address. *)
Definition accounts (s : Server) : gmap string User * gmap string Z :=
  (users s, selfServeUserCounts s).

Definition asksForUser (m : option Message) : bool :=
  match m with
  | Some message => String.eqb (m_k message) "selfServeCreateUser"
  | None => false
  end.

(** The input carries a "selfServeCreateUser" message. *)
Definition createsUser (inp : Input) : bool :=
  match inp with
  | SocketMessage _ (One message) _ => asksForUser (Some message)
  | SocketMessage _ (Many messages) _ => existsb asksForUser messages
  | _ => false
  end.

(** One socket has connected to the server started from [freshSnapshot]. *)
Definition oneSocket : Server :=
  reached freshSnapshot [(1000%Q, SocketConnection "203.0.113.7" None)].

(** The order of the kinds: "c" before "o" before "f" before "d". *)
Definition kindBefore (a b : Event) : Prop :=
  EVENT_KIND_ORDERING (ev_k a) <= EVENT_KIND_ORDERING (ev_k b).

Definition ofKind (k : EventKind) (e : Event) : bool :=
  EVENT_KIND_ORDERING (ev_k e) =? EVENT_KIND_ORDERING k.

(** The frame number, the perf time, the suspension flag and the playset of
    an instance: what the relay of events leaves alone and the advance of
    the horizon moves. *)
Definition tempo (i : Instance) : Z * Q * bool * option Playset :=
  (pastHorizonFrameNumber i, pastHorizonPerfTime i, suspended i, playset i).

(** An update of an instance that leaves its [tempo] alone. *)
Definition gentle (h : Instance -> Instance) : Prop := forall i, tempo (h i) = tempo i.

(** alice has logged in at time 1000, which woke the instance "room". *)
Definition aliceLoggedIn : Server := reached freshSnapshot (connectAndLogin 1000 2 "alice").

(** An update of a controller object that leaves its id, its address and
    its locality alone. *)
Definition mild (h : Controller -> Controller) : Prop :=
  forall c, (controllerId (h c), remoteAddress (h c), isLocal (h c))
            = (controllerId c, remoteAddress c, isLocal c).

(** Every instance of [s] is an instance of [s'], with the same playset and
    a past horizon that is not behind. *)
Definition neverBack (s s' : Server) : Prop :=
  forall name i, instances s !! name = Some i ->
    exists i', instances s' !! name = Some i'
      /\ pastHorizonFrameNumber i <= pastHorizonFrameNumber i'
      /\ playset i' = playset i.

(** Every controller object carries the id it is stored under, and that id
    is below the id the next connection gets. *)
Definition idsAssigned (s : Server) : Prop :=
  forall cid c, store s !! cid = Some c ->
    controllerId c = cid /\ cid < nextControllerID s.

(** An update of an instance that changes at most the controller status and
    the game state. *)
Definition calm (h : Instance -> Instance) : Prop :=
  forall i, (events (h i), tempo (h i), broadcastControllers (h i))
            = (events i, tempo i, broadcastControllers i).

(** Every bucket of the instance holds events stamped with the bucket's
    frame, and no bucket is for a frame less than [d] frames past the
    horizon. *)
Definition aheadBy (d : Z) (i : Instance) : Prop :=
  forall f bucket, events i !! f = Some bucket ->
    pastHorizonFrameNumber i + d <= f /\ Forall (fun e => ev_f e = f) bucket.

Definition aheadMap (margin : string -> Z) (m : gmap string Instance) : Prop :=
  forall name i, m !! name = Some i -> aheadBy (margin name) i.

Definition ahead (margin : string -> Z) (s : Server) : Prop :=
  aheadMap margin (instances s).

(** No stored event is for a frame behind the horizon. *)
Definition eventsAhead (s : Server) : Prop := ahead (fun _ => 0) s.

(** While [name] is advanced: its bucket for the frame of the horizon is
    gone. *)
Definition oneAhead (name : string) (n : string) : Z :=
  if String.eqb n name then 1 else 0.

(** ** What a handler does to a part of the state *)

(** [steps R m]: whenever [m] returns, the state it leaves is related by [R]
    to the state it was run in. *)
Definition steps {A : Type} (R : relation Server) (m : M A) : Prop :=
  forall s a s', m s = Ok a s' -> R s s'.

(** [keeps f m]: the part [f] of the state is afterwards what it was. *)
Definition same {B : Type} (f : Server -> B) : relation Server := fun s s' => f s' = f s.

Definition keeps {A B : Type} (f : Server -> B) (m : M A) : Prop := steps (same f) m.

(** [preserves P m]: a state that satisfies [P] is left satisfying [P]. *)
Definition carries (P : Server -> Prop) : relation Server := fun s s' => P s -> P s'.

Definition preserves {A : Type} (P : Server -> Prop) (m : M A) : Prop := steps (carries P) m.

(** The order of strings that [<] of JS is the strict part of. *)
Definition stringLe (a b : string) : Prop := String.leb a b = true.

(** The margins in use: none is more than the distance from the horizon to
    the present. *)
Definition small (margin : string -> Z) : Prop :=
  forall name, 0 <= margin name <= PAST_HORIZON_FRAMES.


(** An update of a controller object that leaves its id, its lifecycle state
    and its instance alone. *)
Definition steady (h : Controller -> Controller) : Prop :=
  forall c, (controllerId (h c), lifecycle (h c), instanceName (h c))
            = (controllerId c, lifecycle c, instanceName c).

(** Every subscriber of an instance is a LIVE controller logged into that
    instance. *)
Definition subscribed (st : gmap Z Controller) (ins : gmap string Instance) : Prop :=
  forall name i cid, ins !! name = Some i -> cid ∈ broadcastControllers i ->
    exists c, st !! cid = Some c /\ lifecycle c = LLive /\ instanceName c = name.

Definition orderly (s : Server) : Prop :=
  idsAssigned s /\ subscribed (store s) (instances s).

(** The controller stored under [cid] is not LIVE. *)
Definition offAir (cid : Z) (s : Server) : Prop :=
  exists c, store s !! cid = Some c /\ lifecycle c <> LLive.

(** [leads P m Q]: run in a state that satisfies [P], [m] leaves, when it
    returns, a state that satisfies [Q]. *)
Definition leads {A : Type} (P : Server -> Prop) (m : M A) (Q : Server -> Prop) : Prop :=
  forall s a s', m s = Ok a s' -> P s -> Q s'.

(** ** Account calls *)

Definition set_password (v : string) (u : User) : User :=
  mkUser (u_username u) v (u_config u) (u_admin u) (u_selfServeAddress u).

Definition set_userConfig (v : string) (u : User) : User :=
  mkUser (u_username u) (u_password u) v (u_admin u) (u_selfServeAddress u).

(** [message.u in users &&
     doesPasswordMatchHash(message.p,users[message.u].password)]: the user
    the message names, when its password is the one of the message.
    [users] is a finite map: the names every JS object inherits from its
    prototype are not in it. *)
Definition knownUser (cr : Crypto) (message : Message) (us : gmap string User)
    : option User :=
  match us !! stringOrUndefined (m_u message) with
  | Some user =>
      if doesPasswordMatchHash cr (stringOrUndefined (m_p message)) (u_password user)
      then Some user
      else None
  | None => None
  end.

(** The salt that [makePasswordHash] draws is an argument, as in
    [onCreateUserMessage]. *)
Definition onChangePasswordMessage (cr : Crypto) (salt : string) (now : Q) (cid : Z)
    (message : Message) : M unit :=
  let passwordWanted := stringOrUndefined (m_p message) in
  let! ok := validatePassword now (Some passwordWanted) cid in
  when ok then
  let! us := gets users in
  match knownUser cr message us with
  | None => controllerError now cid "incorrect username/password"
  | Some user =>
      modify (fun s => set_users
                         (<[stringOrUndefined (m_u message) :=
                              set_password (makePasswordHash cr salt passwordWanted) user]>
                            (users s)) s);;
      controllerDone now cid "password changed"
  end.

Definition onGetConfigMessage (cr : Crypto) (now : Q) (cid : Z) (message : Message)
    : M unit :=
  let! us := gets users in
  match knownUser cr message us with
  | None => controllerError now cid "incorrect username/password"
  | Some user => controllerDone now cid (u_config user)
  end.

(** [(d||"")+""] *)
Definition configText (d : option value) : string :=
  match d with
  | Some v => if truthy v then valueToString v else ""%string
  | None => ""%string
  end.

(** [d] is what the message carries under "d". *)
Definition onSetConfigMessage (cr : Crypto) (now : Q) (cid : Z) (message : Message)
    (d : option value) : M unit :=
  let configWanted := configText d in
  let! ok := validateUserConfigLength configWanted in
  when ok then
  let! us := gets users in
  match knownUser cr message us with
  | None => controllerError now cid "incorrect username/password"
  | Some user =>
      modify (fun s => set_users
                         (<[stringOrUndefined (m_u message) :=
                              set_userConfig configWanted user]> (users s)) s);;
      let! us := gets users in
      match us !! stringOrUndefined (m_u message) with
      | Some user => controllerDone now cid (u_config user)
      | None => throw (TypeError "users[message.u] is undefined")
      end
  end.

(** The outputs that relay an event. *)
Definition isRelay (o : Output) : bool :=
  match o with
  | Send _ (MsgEvent _ _) => true
  | _ => false
  end.

(** alice, connected but not logged in, asks for her configuration to be
    set. *)
Definition configCall : Message :=
  mkMessage "setMyConfig" None None None None None (Some "alice"%string) (Some "pw"%string)
    None None.

(** serverstate.json with one user, dave, whose password is "longpw"; one
    socket has connected, and dave asks for his password to be changed. *)
Definition daveSnapshot : Snapshot :=
  mkSnapshot None
    {[ "dave"%string :=
         mkUser "dave" (makePasswordHash toyCrypto "ab12" "longpw") "" false None ]}
    2 [("room"%string, mkSnapshotInstance "testgame1" (inr (VArray [])) None)].

Definition daveConnected : Server :=
  reached daveSnapshot [(1000%Q, SocketConnection "203.0.113.7" None)].

Definition passwordCall : Message :=
  mkMessage "changeMyPassword" None None None None None (Some "dave"%string)
    (Some "longpw"%string) None None.

(** ** The default advance of a playset *)

(** The callbacks [defaultPlaysetAdvanceGameState] calls on [this].  In
    server.js they change the state they are handed; here they return it.
    [applyCommand] and [applyStateFrame] are optional. *)
Record PlaysetCallbacks := mkCallbacks {
  applyConnect : value -> Z -> option string -> option string -> value;
  applyCommand : option (value -> Z -> option string -> option string -> value);
  applyControllerFrame :
    value -> string -> string -> list (option string * option string) -> value;
  applyStateFrame : option (value -> value);
  applyDisconnect : value -> Z -> value
}.

(** One turn of the loop over [commands]: the call of [applyCommand], and
    the push onto [controllerCommands]. *)
Definition commandTurn (this : PlaysetCallbacks)
    (acc : value * gmap string (list (option string * option string)))
    (cmd : CommandArg) : value * gmap string (list (option string * option string)) :=
  let state :=
    match applyCommand this with
    | Some f => f (fst acc) (co_c cmd) (co_o cmd) (co_a cmd)
    | None => fst acc
    end in
  let controllerCommands :=
    match snd acc !! keyOf (co_c cmd) with
    | Some l => <[keyOf (co_c cmd) := l ++ [(co_o cmd, co_a cmd)]]> (snd acc)
    | None => <[keyOf (co_c cmd) := [(co_o cmd, co_a cmd)]]> (snd acc)
    end in
  (state, controllerCommands).

Definition defaultPlaysetAdvanceGameState (this : PlaysetCallbacks) (state : value)
    (connects : list ConnectArg) (commands : list CommandArg) (inputs : list InputArg)
    (disconnects : list Z) : value :=
  let state :=
    fold_left (fun st c => applyConnect this st (ca_c c) (ca_u c) (ca_d c)) connects state in
  let r := fold_left (commandTurn this) commands (state, ∅) in
  let controllerCommands := snd r in
  let state :=
    fold_left (fun st inp =>
                 applyControllerFrame this st (in_c inp) (in_i inp)
                   (default [] (controllerCommands !! in_c inp)))
              inputs (fst r) in
  let state :=
    match applyStateFrame this with
    | Some f => f state
    | None => state
    end in
  fold_left (applyDisconnect this) disconnects state.

(** The verbs and arguments of the commands of controller [c], in the order
    of the list. *)
Definition commandsOf (c : string) (commands : list CommandArg)
    : list (option string * option string) :=
  map (fun cmd => (co_o cmd, co_a cmd))
      (filter (fun cmd => keyOf (co_c cmd) = c) commands).

(** * Properties *)

(** ** The structural hash *)

Section HashFacts.
Import Hash.

(** Induction over values that reaches inside arrays and objects. *)
Lemma value_nested_ind (P : value -> Prop) :
  P VNull -> P VUndefined -> (forall b, P (VBool b)) -> (forall n, P (VNumber n)) ->
  (forall s, P (VString s)) ->
  (forall elems, Forall P elems -> P (VArray elems)) ->
  (forall props, Forall (fun kv => P (snd kv)) props -> P (VObject props)) ->
  (forall t, P (VOther t)) ->
  forall v, P v.
Proof.
  intros Hnull Hundef Hbool Hnum Hstr Harr Hobj Hother.
  fix IH 1. intros [ | | b | n | s | elems | props | t].
  - exact Hnull.
  - exact Hundef.
  - apply Hbool.
  - apply Hnum.
  - apply Hstr.
  - apply Harr. induction elems as [|x xs IHxs]; constructor; [apply IH|exact IHxs].
  - apply Hobj. induction props as [|[k x] xs IHxs]; constructor; [apply IH|exact IHxs].
  - apply Hother.
Qed.

Lemma combine_ref_range a b : 0 <= combine_ref a b < 2147483647.
Proof. unfold combine_ref. apply Z.mod_pos_bound. lia. Qed.

(** On non-negative operands the remainder of the code is the modulus of the
    reference. *)
Lemma combine_is_ref a b : 0 <= a -> 0 <= b -> combine a b = combine_ref a b.
Proof.
  intros Ha Hb. unfold combine, combine_ref.
  apply Z.rem_mod_nonneg; lia.
Qed.

(** Every intermediate value of [combine] is an integer a double holds
    exactly. *)
Lemma combine_exact a b :
  0 <= a < 2147483647 -> 0 <= b < 2147483647 ->
  0 <= a * 65537 + b * 8191 + 127 < 2 ^ 53.
Proof. intros Ha Hb. split; [lia|]. change (2 ^ 53) with 9007199254740992. lia. Qed.

Lemma charCode_range ch : 0 <= charCode ch < 256.
Proof.
  unfold charCode. pose proof (N_ascii_bounded ch). lia.
Qed.

Lemma fold_chars_is_ref (l : list ascii) acc :
  0 <= acc ->
  fold_left (fun hash ch => combine hash (charCode ch)) l acc
  = fold_left (fun h ch => combine_ref h (charCode ch)) l acc.
Proof.
  revert acc. induction l as [|ch l IH]; intros acc Hacc; simpl; [done|].
  pose proof (charCode_range ch).
  rewrite combine_is_ref by lia. apply IH. apply combine_ref_range.
Qed.

Lemma fold_chars_ref_nonneg (l : list ascii) acc :
  0 <= acc -> 0 <= fold_left (fun h ch => combine_ref h (charCode ch)) l acc.
Proof.
  revert acc. induction l as [|ch l IH]; intros acc Hacc; simpl; [done|].
  apply IH. apply combine_ref_range.
Qed.

Lemma recurseString_is_ref s : recurseString s = string_ref s.
Proof.
  unfold recurseString, string_ref. rewrite fold_chars_is_ref by lia.
  apply combine_is_ref; [|lia]. apply fold_chars_ref_nonneg. lia.
Qed.

Lemma string_ref_range s : 0 <= string_ref s < 2147483647.
Proof. apply combine_ref_range. Qed.

Lemma hashNumber_is_ref n : hashNumber n = number_ref n.
Proof.
  unfold hashNumber, number_ref.
  rewrite recurseString_is_ref.
  rewrite combine_is_ref by (pose proof (string_ref_range (numberToString
    match n with NumNegZero => NumInt 0 | _ => n end)); lia).
  by destruct n.
Qed.

Lemma hash_ref_range v : 0 <= hash_ref v < 2147483647.
Proof.
  destruct v as [ | | [|] | n | s | elems | props | t]; simpl;
    try lia; apply combine_ref_range.
Qed.

(** The comparator-less sort orders names as [String.leb] does. *)
Lemma defaultCompare_leb a b : (defaultCompare a b <=? 0) = String.leb a b.
Proof.
  unfold defaultCompare, stringLt, String.ltb, String.leb.
  rewrite (String.compare_antisym b a).
  destruct (String.compare a b); reflexivity.
Qed.

Lemma sortInsert_names {B : Type} (p : string * B) (l : list (string * B)) :
  sortInsert defaultCompare (fst p) (map fst l) = map fst (insertByName p l).
Proof.
  induction l as [|q l IH]; simpl; [done|].
  rewrite defaultCompare_leb. destruct (String.leb (fst p) (fst q)); simpl; [done|].
  by rewrite IH.
Qed.

Lemma sorted_names {B : Type} (l : list (string * B)) :
  arraySort defaultCompare (map fst l) = map fst (sortByName l).
Proof.
  induction l as [|p l IH]; simpl; [done|].
  unfold arraySort in *. simpl. rewrite IH. apply sortInsert_names.
Qed.

Lemma insertByName_In {B : Type} (p q : string * B) l :
  In q (insertByName p l) -> q = p \/ In q l.
Proof.
  induction l as [|r l IH]; simpl.
  - intros [<-|[]]; auto.
  - destruct (String.leb (fst p) (fst r)); simpl.
    + intros [<-|[<-|H]]; auto.
    + intros [<-|H]; auto. destruct (IH H); auto.
Qed.

Lemma sortByName_In {B : Type} (q : string * B) l : In q (sortByName l) -> In q l.
Proof.
  induction l as [|p l IH]; simpl; [done|].
  intros H. apply insertByName_In in H as [->|H]; auto.
Qed.

(** Reading a name from the table gives the value listed with it. *)
Lemma hashedProperty_In table k h :
  NoDup (map fst table) -> In (k, h) table -> hashedProperty table k = h.
Proof.
  induction table as [|[k' h'] table IH]; simpl; [done|].
  intros Hnd [Heq|Hin].
  - injection Heq as -> ->. by rewrite String.eqb_refl.
  - apply NoDup_cons in Hnd as [Hnotin Hnd].
    destruct (String.eqb_spec k' k) as [->|Hne].
    + exfalso. apply Hnotin. apply list_elem_of_In.
      change k with (fst (k, h)). by apply in_map.
    + by apply IH.
Qed.

Lemma fold_left_agree {A B : Type} (f g : A -> B -> A) (l : list B) :
  (forall x, In x l -> forall a, f a x = g a x) ->
  forall a, fold_left f l a = fold_left g l a.
Proof.
  induction l as [|x l IH]; intros Hfg a; simpl; [done|].
  rewrite Hfg by (by left). apply IH. intros y Hy. apply Hfg. by right.
Qed.

Lemma fold_left_over_map {A B C : Type} (f : A -> C -> A) (g : B -> C) (l : list B) :
  forall a, fold_left f (map g l) a = fold_left (fun a x => f a (g x)) l a.
Proof. induction l as [|x l IH]; intros a; simpl; [done|apply IH]. Qed.

Lemma fold_pairs_is_ref (l : list (string * Z)) acc :
  0 <= acc -> Forall (fun p => 0 <= snd p) l ->
  fold_left (fun hash p => combine (combine hash (recurseString (fst p))) (snd p)) l acc
  = fold_left (fun h p => combine_ref (combine_ref h (string_ref (fst p))) (snd p)) l acc
  /\ 0 <= fold_left (fun h p => combine_ref (combine_ref h (string_ref (fst p))) (snd p)) l acc.
Proof.
  revert acc. induction l as [|p l IH]; intros acc Hacc Hl; simpl; [done|].
  apply Forall_cons in Hl as [Hp Hl].
  rewrite recurseString_is_ref.
  pose proof (string_ref_range (fst p)).
  rewrite (combine_is_ref acc) by lia.
  pose proof (combine_ref_range acc (string_ref (fst p))).
  rewrite combine_is_ref by lia.
  apply IH; [apply combine_ref_range|done].
Qed.

(** [recurseContainer] on a table with distinct names and non-negative
    entries is the reference fold over the pairs ordered by name. *)
Lemma recurseContainer_is_ref table :
  NoDup (map fst table) -> Forall (fun p => 0 <= snd p) table ->
  recurseContainer table = container_ref table.
Proof.
  intros Hnd Hpos. unfold recurseContainer, container_ref.
  rewrite sorted_names.
  rewrite fold_left_over_map.
  rewrite (fold_left_agree _
             (fun hash p => combine (combine hash (recurseString (fst p))) (snd p))).
  2:{ intros [k h] Hin a. simpl. f_equal.
      apply hashedProperty_In; [done|]. by apply sortByName_In. }
  assert (Forall (fun p : string * Z => 0 <= snd p) (sortByName table)) as Hsorted.
  { apply Forall_forall. intros p Hp. rewrite Forall_forall in Hpos.
    apply Hpos. apply list_elem_of_In, sortByName_In, list_elem_of_In, Hp. }
  destruct (fold_pairs_is_ref (sortByName table) 0 ltac:(lia) Hsorted) as [-> Hge].
  apply combine_is_ref; lia.
Qed.

Lemma pretty_N_go_not_length x s :
  s <> "length"%string -> pretty_N_go x s <> "length"%string.
Proof.
  revert s. induction (N.lt_wf_0 x) as [x _ IH]; intros s Hs.
  assert (x = 0 \/ 0 < x)%N as [->|Hpos] by lia.
  - by rewrite pretty_N_go_0.
  - rewrite pretty_N_go_step by done. apply IH.
    { by apply N.div_lt. }
    unfold pretty_N_char. by repeat case_match.
Qed.

Lemma keyOf_not_length z : keyOf z <> "length"%string.
Proof.
  unfold keyOf. destruct z as [|p|p].
  - done.
  - change (pretty (Z.pos p)) with (pretty (N.pos p)).
    unfold pretty, pretty_N. simpl. by apply pretty_N_go_not_length.
  - change (pretty (Z.neg p)) with ("-" +:+ pretty p)%string. done.
Qed.

Lemma indexed_names {A : Type} (l : list A) i :
  map fst (indexed i l) = map (fun n => keyOf (Z.of_nat n)) (seq i (length l)).
Proof.
  revert i. induction l as [|x l IH]; intros i; simpl; [done|]. by rewrite IH.
Qed.

Lemma indexed_values {A : Type} (P : A -> Prop) (l : list A) i :
  Forall P l -> Forall (fun p => P (snd p)) (indexed i l).
Proof.
  intros H. revert i. induction H as [|x l Hx Hl IH]; intros i; simpl; constructor; auto.
Qed.

(** An array's own property names, the indices and "length", are distinct. *)
Lemma arrayTable_names_distinct {A : Type} (l : list A) (h : A) :
  NoDup (map fst (indexed 0 l ++ [("length"%string, h)])).
Proof.
  rewrite map_app, indexed_names. simpl.
  apply NoDup_app. split; [|split].
  - assert (Inj (=) (=) (fun n => keyOf (Z.of_nat n))) as Hinj.
    { intros a b Hab. apply (inj pretty) in Hab. lia. }
    apply (NoDup_fmap_2 (fun n => keyOf (Z.of_nat n))), NoDup_seq.
  - intros k Hk Hlen. apply list_elem_of_In, in_map_iff in Hk as (n & <- & _).
    apply list_elem_of_singleton in Hlen. by apply keyOf_not_length in Hlen.
  - apply NoDup_singleton.
Qed.

Lemma wellFormed_elems elems :
  wellFormed (VArray elems) -> Forall wellFormed elems.
Proof.
  simpl. induction elems as [|x l IH]; simpl; [constructor|].
  intros [Hx Hl]. constructor; auto.
Qed.

Lemma wellFormed_props props :
  wellFormed (VObject props) ->
  NoDup (map fst props) /\ Forall (fun kv => wellFormed (snd kv)) props.
Proof.
  simpl. intros [Hnd H]. split; [done|]. clear Hnd.
  induction props as [|x l IH]; simpl in *; [constructor|].
  destruct H as [Hx Hl]. constructor; auto.
Qed.

(** C8.  On every JSON-shaped value the default structural hash of the
    server equals the reference definition: 100, 101, 102, 103 for null,
    undefined, true and false; negative zero hashed as zero; the prefixes
    105 (array), 106 (number), 107 (string), 108 (object) and 109 (other);
    containers folding the (name hash, value hash) pairs of their own
    properties in name order and closing with 200; strings folding their
    character codes and closing with 300; all with
    combine(a,b) = (a*65537 + b*8191 + 127) mod 2147483647. *)
Theorem default_hash_is_reference (v : value) :
  wellFormed v -> defaultGameStateHash v = hash_ref v.
Proof.
  induction v as [ | | b | n | s | elems IH | props IH | t] using value_nested_ind;
    intros Hwf.
  - reflexivity.
  - reflexivity.
  - by destruct b.
  - apply hashNumber_is_ref.
  - simpl. rewrite recurseString_is_ref. apply combine_is_ref; [lia|apply string_ref_range].
  - apply wellFormed_elems in Hwf.
    assert (map defaultGameStateHash elems = map hash_ref elems) as Hmap.
    { clear -IH Hwf. induction elems as [|x l IHl]; simpl; [done|].
      apply Forall_cons in IH as [Hx IH]. apply Forall_cons in Hwf as [Hwx Hwf].
      f_equal; auto. }
    simpl. unfold arrayTable. rewrite Hmap, !length_map, hashNumber_is_ref.
    rewrite recurseContainer_is_ref.
    + apply combine_is_ref; [lia|apply combine_ref_range].
    + apply arrayTable_names_distinct.
    + apply Forall_app. split.
      * apply (indexed_values (fun h => 0 <= h)). apply Forall_forall.
        intros h Hh. apply list_elem_of_In, in_map_iff in Hh as (x & <- & _).
        apply hash_ref_range.
      * constructor; [|constructor]. simpl. apply combine_ref_range.
  - apply wellFormed_props in Hwf as [Hnd Hwf].
    assert (map (fun kv => (fst kv, defaultGameStateHash (snd kv))) props
            = map (fun kv => (fst kv, hash_ref (snd kv))) props) as Hmap.
    { clear -IH Hwf. induction props as [|x l IHl]; simpl; [done|].
      apply Forall_cons in IH as [Hx IH]. apply Forall_cons in Hwf as [Hwx Hwf].
      f_equal; [f_equal|]; auto. }
    simpl. rewrite Hmap. rewrite recurseContainer_is_ref.
    + apply combine_is_ref; [lia|apply combine_ref_range].
    + by rewrite map_map.
    + apply Forall_forall. intros p Hp.
      apply list_elem_of_In, in_map_iff in Hp as (x & <- & _). apply hash_ref_range.
  - simpl. rewrite recurseString_is_ref. apply combine_is_ref; [lia|apply string_ref_range].
Qed.

Lemma default_hash_is_reference_witness :
  wellFormed sampleState /\ defaultGameStateHash sampleState = hash_ref sampleState.
Proof.
  assert (wellFormed sampleState) as H.
  { simpl. repeat split.
    apply NoDup_cons. split; [|apply NoDup_singleton].
    rewrite list_elem_of_singleton. discriminate. }
  split; [exact H|]. exact (default_hash_is_reference sampleState H).
Defined.

(** Negative zero hashes as zero. *)
Lemma default_hash_negative_zero :
  defaultGameStateHash (VNumber NumNegZero) = defaultGameStateHash (VNumber (NumInt 0)).
Proof. reflexivity. Qed.

(** The own property names are taken in ascending order. *)
Lemma sortByName_sorted {B : Type} (l : list (string * B)) :
  Sorted (fun p q => String.leb (fst p) (fst q) = true) (sortByName l).
Proof.
  induction l as [|p l IH]; simpl; [constructor|].
  revert IH. generalize (sortByName l) as sorted. clear l.
  induction sorted as [|q l IHl]; intros Hs; simpl.
  - repeat constructor.
  - destruct (String.leb (fst p) (fst q)) eqn:Hle.
    + constructor; [done|]. by constructor.
    + apply Sorted_inv in Hs as [Hs Hhd]. constructor; [by apply IHl|].
      destruct l as [|r l]; simpl.
      * constructor. destruct (String.leb_total (fst p) (fst q)); congruence.
      * destruct (String.leb (fst p) (fst r)).
        -- constructor. destruct (String.leb_total (fst p) (fst q)); congruence.
        -- constructor. by apply HdRel_inv in Hhd.
Qed.
End HashFacts.

(** ** Canonical order of a frame's events *)

(** The comparator reads [.k], [.u] and [.s]; the controller id plays no
    part in it. *)
Lemma instanceEventComparator_ignores_controller (a b : Event) (c c' : Z) :
  instanceEventComparator
    (mkEvent (ev_k a) c (ev_f a) (ev_u a) (ev_d a) (ev_o a) (ev_a a) (ev_s a) (ev_i a))
    (mkEvent (ev_k b) c' (ev_f b) (ev_u b) (ev_d b) (ev_o b) (ev_a b) (ev_s b) (ev_i b))
  = instanceEventComparator a b.
Proof. reflexivity. Qed.

(** Two commands with the same serial compare equal whoever sent them. *)
Lemma commands_compare_equal (c c' f f' s : Z) (o o' a a' : string) :
  instanceEventComparator (commandEvent c f o a s) (commandEvent c' f' o' a' s) = 0.
Proof.
  unfold instanceEventComparator, commandEvent; simpl.
  rewrite Z.ltb_irrefl. reflexivity.
Qed.

(** C1.  Evaluation at the failing input: the bucket of frame 20 holds the
    command of controller 3 followed by the command of controller 2, both
    with serial 1.  The sort leaves the bucket as it is, and in the run of
    scenario S2 in which bob's command reaches the server first the playset
    is handed the commands of controllers 3 and 2 in that order, while in the
    run in which alice's comes first it is handed 2 and 3: the order is the
    arrival order, not the ascending controller order. *)
Theorem commands_reach_playset_in_arrival_order :
  arraySort instanceEventComparator
    [commandEvent 3 20 "fire" "" 1; commandEvent 2 20 "fire" "" 1]
  = [commandEvent 3 20 "fire" "" 1; commandEvent 2 20 "fire" "" 1]
  /\ observe commandsHanded (after freshSnapshot bobFirst) = Some [3; 2]
  /\ observe commandsHanded (after freshSnapshot aliceFirst) = Some [2; 3].
Proof. repeat split; vm_compute; reflexivity. Qed.

(** In that run the horizon stands at frame 20 when the commands are taken. *)
Lemma bobFirst_reaches_frame_20 :
  observe (fun s => match roomOf s with
                    | Some i => Some (pastHorizonFrameNumber i, events i !! 20)
                    | None => None
                    end) (after freshSnapshot bobFirst)
  = Some (20, Some [commandEvent 3 20 "fire" "" 1; commandEvent 2 20 "fire" "" 1]).
Proof. vm_compute. reflexivity. Qed.

(** ** The inputs argument *)

(** C2.  Evaluation at the failing input: with controllers 2 and 10 in
    [controller_status] the inputs list controller 10 before controller 2,
    both for that status taken alone and in a run of the server in which
    alice is controller 2 and bob controller 10. *)
Theorem inputs_list_ten_before_two :
  buildInputs {[ "2"%string := mkStatus (Some "alice"%string) "l";
                 "10"%string := mkStatus (Some "bob"%string) "r" ]}
  = [mkInputArg "10" "r"; mkInputArg "2" "l"]
  /\ observe inputsHanded (after freshSnapshot twoAndTen) = Some ["10"; "2"]%string.
Proof. split; vm_compute; reflexivity. Qed.

(** [integerComparator] on property names is the order of their text. *)
Lemma integerComparator_is_textual :
  integerComparator "10" "2" = -1 /\ integerComparator (keyOf 10) (keyOf 2) = -1.
Proof. split; vm_compute; reflexivity. Qed.

(** ** The first advance after loading a snapshot *)

(** Loading the snapshot puts the Disconnect of the stored controller into
    the bucket of frame 1 and keeps the stored status. *)
Lemma savedSnapshot_loaded :
  observe (fun s => match roomOf s with
                    | Some i => Some (pastHorizonFrameNumber i, events i !! 1,
                                      pastHorizonControllerStatus i !! "5"%string,
                                      suspended i)
                    | None => None
                    end) (started savedSnapshot)
  = Some (1, Some [disconnectEvent 5 1], Some (mkStatus (Some "alice"%string) ""), true).
Proof. vm_compute. reflexivity. Qed.

(** C3.  Evaluation at the failing input: the server is started from a
    snapshot whose instance "room" stores controller 5 (alice) as connected;
    bob logs in, which wakes the instance; the advance of frame 1 is run when
    its timer is due.  The playset is handed the disconnect of controller 5,
    and then [advanceHorizonState] throws a TypeError at
    [oldController.id], because no OUTBOX controller exists for alice: the
    entry of controller 5 is still in [controller_status] and
    [past_horizon_frame] is still 1. *)
Theorem first_advance_after_restart_throws :
  observe (fun s =>
             match firstAdvance s with
             | Ok _ _ => None
             | Throw e s' =>
                 match roomOf s' with
                 | Some i => Some (e, pastHorizonFrameNumber i,
                                   pastHorizonControllerStatus i !! "5"%string,
                                   pastHorizonState i)
                 | None => None
                 end
             end) (after savedSnapshot (connectAndLogin 1000 6 "bob"))
  = Some (TypeError "oldController is undefined", 1,
          Some (mkStatus (Some "alice"%string) ""),
          VArray [VArray [idsOf []; idsOf []; VArray [VString "5"]; idsOf [5]]]).
Proof. vm_compute. reflexivity. Qed.

(** Without stored controllers the same advance completes. *)
Lemma first_advance_without_stored_controllers :
  observe (fun s =>
             match firstAdvance s with
             | Ok _ s' => pastHorizonFrameNumber <$> roomOf s'
             | Throw _ _ => None
             end) (after freshSnapshot (connectAndLogin 1000 2 "bob"))
  = Some 2.
Proof. vm_compute. reflexivity. Qed.

(** ** Self-serve user creation *)

(** C7.  Evaluation at two failing inputs.  (1) The configuration has no
    [selfServeUserLimit]: the caller is told it is not authorized, and the
    user "carol" is created all the same, the count of the caller's address
    becomes 1, and the success message D is sent.  (2) Self-serve creation is
    allowed and the name "alice" is taken: the caller is told so, and the
    record of alice is replaced by one with the caller's password, the count
    becomes 1 and D is sent. *)
Theorem selfServeCreateUser_continues_after_error :
  observe (creationOutcome "carol") (after freshSnapshot (createUser "carol" "secret"))
  = Some (Some (mkUser "carol" (makePasswordHash toyCrypto "cd" "secret") "" false
                  (Some "203.0.113.7"%string)),
          Some 1,
          [Send 2 (MsgE "you are not authorized for self-serve user creation");
           Close 2; Send 2 (MsgD "user created"); Close 2])
  /\ observe (creationOutcome "alice") (after selfServeSnapshot (createUser "alice" "secret"))
     = Some (Some (mkUser "alice" (makePasswordHash toyCrypto "cd" "secret") "" false
                     (Some "203.0.113.7"%string)),
             Some 1,
             [Send 2 (MsgE "username already in use");
              Close 2; Send 2 (MsgD "user created"); Close 2]).
Proof. split; vm_compute; reflexivity. Qed.

(** Before the call alice had the record of the snapshot and the address had
    created no user. *)
Lemma selfServeSnapshot_before :
  observe (creationOutcome "alice") (started selfServeSnapshot)
  = Some (Some (userRecord "alice"), None, []).
Proof. vm_compute. reflexivity. Qed.

(** ** Unsuspending *)

(** C9.  [unsuspendInstance] on a suspended instance clears [suspended] and
    sets [pastHorizonPerfTime] to the larger of its previous value and
    now - PAST_HORIZON_FRAMES * 1000 / FPS, whatever the previous value,
    leaving the other fields as they were; on an instance that is not
    suspended it changes nothing and sets no timer. *)
Theorem unsuspendInstance_takes_max (now : Q) (instance : Instance) :
  if suspended instance then
    fst (unsuspendInstance now instance)
    = set_pastHorizonPerfTime
        (Qmax (pastHorizonPerfTime instance)
              (now - inject_Z PAST_HORIZON_FRAMES * 1000 / inject_Z FPS)%Q)
        (set_suspended false instance)
  else unsuspendInstance now instance = (instance, None).
Proof.
  unfold unsuspendInstance. destruct (suspended instance) eqn:Hs; [|reflexivity].
  simpl. unfold Qgtb, Qmax, GenericMinMax.gmax.
  rewrite <- (Qcompare_antisym (pastHorizonPerfTime instance)).
  destruct (Qcompare (pastHorizonPerfTime instance) _); reflexivity.
Qed.

(** The horizon that unsuspending falls back to is half a second old. *)
Lemma fresh_horizon_is_500 (now : Q) :
  (now - inject_Z PAST_HORIZON_FRAMES * 1000 / inject_Z FPS == now - 500)%Q.
Proof. apply Qplus_comp; [reflexivity|]. reflexivity. Qed.

(** ** The advance loop *)

Lemma Qgeb_false_lt (a b : Q) : Qgeb a b = false <-> (a < b)%Q.
Proof.
  unfold Qgeb, Qltb, Qgtb. rewrite Qgt_alt.
  destruct (Qcompare b a); simpl; split; intros H; congruence.
Qed.

(** The fuel given to the loop of [onAdvanceTimeout] is the number of times
    its condition holds: after that many rounds the condition is false. *)
Lemma advancesDue_suffices (now nextFrameTime : Q) :
  Qgeb now (nextFrameTime
            + inject_Z (Z.of_nat (advancesDue now nextFrameTime)) * frameMillis)%Q
  = false.
Proof.
  apply Qgeb_false_lt. unfold advancesDue.
  destruct (Qgeb now nextFrameTime) eqn:Hge.
  - assert (nextFrameTime <= now)%Q as Hle.
    { apply Qnot_lt_le. intros Hlt. apply Qgeb_false_lt in Hlt. congruence. }
    assert (0 < frameMillis)%Q as Hpos by reflexivity.
    set (q := ((now - nextFrameTime) / frameMillis)%Q).
    assert (0 <= q)%Q as Hq.
    { unfold q. apply Qle_shift_div_l; [done|]. rewrite Qmult_0_l.
      apply (Qplus_le_l _ _ nextFrameTime). ring_simplify. exact Hle. }
    assert (0 <= Qfloor q) as Hfloor.
    { change 0 with (Qfloor 0). by apply Qfloor_resp_le. }
    rewrite Z2Nat.id by lia.
    pose proof (Qlt_floor q) as Hlt.
    apply (Qmult_lt_r _ _ frameMillis Hpos) in Hlt.
    assert (q * frameMillis == now - nextFrameTime)%Q as Heq.
    { unfold q. field. intros H0. by rewrite H0 in Hpos. }
    rewrite Heq in Hlt.
    apply (Qplus_lt_l _ _ (- nextFrameTime)). ring_simplify.
    ring_simplify in Hlt. exact Hlt.
  - apply Qgeb_false_lt in Hge. simpl. ring_simplify. exact Hge.
Qed.

(** ** Symbolic execution of the handlers *)

(** Read the fields of the states in the goal. *)
Ltac sred :=
  cbn [config users instances store controllers nextControllerID selfServeUserCounts
       inboxControllers liveControllers outboxControllers requiredOrigin
       playsetCommandRateLimits playsetInputLengthLimits playsetArgumentLengthLimits
       advanceTimers trace
       set_users set_instances set_store set_controllers set_nextControllerID
       set_selfServeUserCounts set_inboxControllers set_liveControllers
       set_outboxControllers set_advanceTimers set_trace
       playset pastHorizonFrameNumber pastHorizonState pastHorizonPerfTime
       pastHorizonControllerStatus events broadcastControllers suspended
       set_pastHorizonFrameNumber set_pastHorizonState set_pastHorizonPerfTime
       set_pastHorizonControllerStatus set_events set_broadcastControllers set_suspended
       controllerId remoteAddress isLocal lifecycle username instanceName playsetName
       minFrameNumber lastCommandNumber commandRateCounters lastFrameInput
       globalChatTokens timeoutAt disconnected
       set_lifecycle set_login set_minFrameNumber set_lastCommandNumber
       set_commandRateCounters set_lastFrameInput set_globalChatTokens set_timeoutAt
       set_disconnected
       isLive isOutbox isInbox isNew negb andb orb fst snd];
  rewrite ?insert_insert_eq, <- ?app_assoc.

(** Two states with the same fields are the same state. *)
Lemma server_eq (a b : Server) :
  config a = config b -> users a = users b -> instances a = instances b ->
  store a = store b -> controllers a = controllers b ->
  nextControllerID a = nextControllerID b ->
  selfServeUserCounts a = selfServeUserCounts b ->
  inboxControllers a = inboxControllers b -> liveControllers a = liveControllers b ->
  outboxControllers a = outboxControllers b -> requiredOrigin a = requiredOrigin b ->
  playsetCommandRateLimits a = playsetCommandRateLimits b ->
  playsetInputLengthLimits a = playsetInputLengthLimits b ->
  playsetArgumentLengthLimits a = playsetArgumentLengthLimits b ->
  advanceTimers a = advanceTimers b -> trace a = trace b -> a = b.
Proof. destruct a, b. simpl. intros. subst. reflexivity. Qed.

Ltac same_state := apply server_eq; sred; try reflexivity.

Ltac look := rewrite ?lookup_insert_eq; rewrite ?lookup_insert_ne by done.

Lemma bind_Ok {A B : Type} (m : M A) (k : A -> M B) s a s' :
  m s = Ok a s' -> bind m k s = k a s'.
Proof. unfold bind. by intros ->. Qed.

Lemma bind_assoc {A B C : Type} (m : M A) (k1 : A -> M B) (k2 : B -> M C) s :
  bind (bind m k1) k2 s = bind m (fun a => bind (k1 a) k2) s.
Proof. unfold bind. by destruct (m s). Qed.

Lemma bind_ret {A B : Type} (a : A) (k : A -> M B) s : bind (ret a) k s = k a s.
Proof. reflexivity. Qed.

Lemma bind_modify {B : Type} f (k : unit -> M B) s : bind (modify f) k s = k tt (f s).
Proof. reflexivity. Qed.

Lemma bind_gets {A B : Type} (f : Server -> A) (k : A -> M B) s :
  bind (gets f) k s = k (f s) s.
Proof. reflexivity. Qed.

Lemma bind_emit {B : Type} outs (k : unit -> M B) s :
  bind (emit outs) k s = k tt (set_trace (trace s ++ outs) s).
Proof. reflexivity. Qed.

Lemma getController_Ok cid s c : store s !! cid = Some c -> getController cid s = Ok c s.
Proof. unfold getController. by intros ->. Qed.

Lemma getInstance_Ok name s i : instances s !! name = Some i -> getInstance name s = Ok i s.
Proof. unfold getInstance. by intros ->. Qed.

Lemma updController_Ok cid f s c :
  store s !! cid = Some c ->
  updController cid f s = Ok tt (set_store (<[cid := f c]> (store s)) s).
Proof.
  intros H. unfold updController.
  by rewrite (bind_Ok _ _ _ _ _ (getController_Ok _ _ _ H)).
Qed.

Lemma updInstance_Ok name f s i :
  instances s !! name = Some i ->
  updInstance name f s = Ok tt (set_instances (<[name := f i]> (instances s)) s).
Proof.
  intros H. unfold updInstance.
  by rewrite (bind_Ok _ _ _ _ _ (getInstance_Ok _ _ _ H)).
Qed.

Ltac mnorm :=
  sred;
  repeat (first [rewrite bind_assoc | rewrite bind_ret | rewrite bind_modify
                | rewrite bind_gets | rewrite bind_emit]; sred).

Ltac side := sred; look; first [eassumption | reflexivity].

Ltac mctl := erewrite (bind_Ok (getController _)) by (apply getController_Ok; side).
Ltac minst := erewrite (bind_Ok (getInstance _)) by (apply getInstance_Ok; side).
Ltac mupdc := erewrite (bind_Ok (updController _ _)) by (apply updController_Ok; side).
Ltac mupdi := erewrite (bind_Ok (updInstance _ _)) by (apply updInstance_Ok; side).

(** One step of the handler at the head of the goal. *)
Ltac mstep := mnorm; first [mctl | minst | mupdc | mupdi]; mnorm.

Lemma broadcastEventToInstance_Ok now name event addTimestamp s i :
  instances s !! name = Some i ->
  broadcastEventToInstance now name event addTimestamp s
  = Ok tt (set_trace (trace s ++ eventSends now (addInstanceEvent event i) event addTimestamp)
             (set_instances (<[name := addInstanceEvent event i]> (instances s)) s)).
Proof.
  intros H. unfold broadcastEventToInstance.
  mstep. mstep. reflexivity.
Qed.

Lemma storeAndEchoInstanceEvent_Ok now name event addTimestamp s i :
  instances s !! name = Some i ->
  storeAndEchoInstanceEvent now name event addTimestamp s
  = Ok tt (set_trace (trace s ++ echoSends now (addInstanceEvent event i) event addTimestamp)
             (set_instances (<[name := addInstanceEvent event i]> (instances s)) s)).
Proof.
  intros H. unfold storeAndEchoInstanceEvent, echoSends.
  mstep. mstep. case_bool_decide.
  - unfold emit, modify. reflexivity.
  - unfold ret. f_equal. same_state. by rewrite app_nil_r.
Qed.

Ltac mbroadcast :=
  first [ erewrite (bind_Ok (broadcastEventToInstance _ _ _ _))
            by (apply broadcastEventToInstance_Ok; side)
        | erewrite (bind_Ok (storeAndEchoInstanceEvent _ _ _ _))
            by (apply storeAndEchoInstanceEvent_Ok; side) ];
  mnorm.

Lemma disconnectController_live now cid s c inst :
  store s !! cid = Some c -> lifecycle c = LLive ->
  instances s !! instanceName c = Some inst ->
  disconnectController now cid s = Ok tt (leftOutbox now cid c inst s).
Proof.
  intros Hc Hlive Hi. unfold disconnectController.
  mstep. rewrite Hlive. sred.
  mstep. mstep.
  unfold unsubscribeControllerFromBroadcasts. mstep. mstep.
  mbroadcast.
  unfold abandonConnectionTimeout. mstep. mstep.
  rewrite andb_false_r. mnorm.
  erewrite updController_Ok by side.
  unfold leftOutbox, departed, departureEvent, outboxed. f_equal. same_state.
Qed.

Lemma controllerError_live now cid err s c inst :
  store s !! cid = Some c -> lifecycle c = LLive ->
  instances s !! instanceName c = Some inst ->
  controllerError now cid err s = Ok tt (refused now cid c inst err s).
Proof.
  intros Hc Hlive Hi. unfold controllerError. mnorm.
  erewrite disconnectController_live by side. reflexivity.
Qed.

Lemma disconnectController_not_live now cid s c :
  store s !! cid = Some c -> lifecycle c <> LLive ->
  disconnectController now cid s = Ok tt (leftAlone cid c s).
Proof.
  intros Hc Hlive. unfold disconnectController.
  mstep. destruct (lifecycle c) eqn:Hl; [| |done|]; sred; mnorm;
    unfold abandonConnectionTimeout; mstep; mstep; rewrite Hl; sred;
    unfold leftAlone; rewrite Hl; sred;
    destruct (bool_decide (controllerId c ∈ controllers s)); sred; mnorm;
    erewrite updController_Ok by side; f_equal; same_state.
Qed.

Lemma controllerError_not_live now cid err s c :
  store s !! cid = Some c -> lifecycle c <> LLive ->
  controllerError now cid err s
  = Ok tt (leftAlone cid c (set_trace (trace s ++ [Send cid (MsgE err); Close cid]) s)).
Proof.
  intros Hc Hlive. unfold controllerError. mnorm.
  erewrite disconnectController_not_live by (first [side | done]). reflexivity.
Qed.

(** The integer test of the validator never fires: the comparison is made
    before the [|0]. *)
Lemma integer_test_is_vacuous f : negb (Z.lor (Z.b2z (negb (f =? f))) 0 =? 0) = false.
Proof. by rewrite Z.eqb_refl. Qed.

(** A message that passes the two checks made on [f|0] and is stamped below
    the past horizon is refused without any effect. *)
Lemma validate_lagged now cid message s c instance f :
  store s !! cid = Some c -> lifecycle c = LLive ->
  instances s !! instanceName c = Some instance ->
  m_f message = Some f ->
  minFrameNumber c <= toInt32 f ->
  toInt32 f <= getPresentFrameNumber instance + FUTURE_HORIZON_FRAMES ->
  f < pastHorizonFrameNumber instance ->
  validateFrameOrCommandMessage now cid message s = Ok false s.
Proof.
  intros Hc Hlive Hi Hf Hmin Hmax Hlag.
  unfold validateFrameOrCommandMessage.
  mstep. rewrite Hlive, Hf, integer_test_is_vacuous. sred.
  destruct (Z.ltb_spec (toInt32 f) (minFrameNumber c)); [lia|].
  mstep.
  destruct (Z.gtb_spec (toInt32 f) (getPresentFrameNumber instance + FUTURE_HORIZON_FRAMES));
    [lia|].
  destruct (Z.ltb_spec f (pastHorizonFrameNumber instance)); [|lia].
  reflexivity.
Qed.

Lemma validate_passes now cid message s c instance f :
  store s !! cid = Some c ->
  instances s !! instanceName c = Some instance ->
  m_f message = Some f ->
  passesValidation c instance f ->
  validateFrameOrCommandMessage now cid message s = Ok true s.
Proof.
  intros Hc Hi Hf (Hlive & Hmin & Hmax & Hph).
  unfold validateFrameOrCommandMessage.
  mstep. rewrite Hlive, Hf, integer_test_is_vacuous. sred.
  destruct (Z.ltb_spec (toInt32 f) (minFrameNumber c)); [lia|].
  mstep.
  destruct (Z.gtb_spec (toInt32 f) (getPresentFrameNumber instance + FUTURE_HORIZON_FRAMES));
    [lia|].
  destruct (Z.ltb_spec f (pastHorizonFrameNumber instance)); [lia|].
  reflexivity.
Qed.

(** An admitted frame message: what [onFrameMessage] does. *)
Lemma onFrameMessage_admitted now cid message s c inst f :
  store s !! cid = Some c ->
  instances s !! instanceName c = Some inst ->
  m_f message = Some f ->
  passesValidation c inst f ->
  exceeds (strlen (stringOrUndefined (m_i message)))
          (playsetInputLengthLimits s !! playsetName c) = false ->
  onFrameMessage now cid message s = Ok tt (frameAdmitted now cid c inst f message s).
Proof.
  intros Hc Hi Hf Hpass Hlen. unfold onFrameMessage.
  rewrite (bind_Ok _ _ _ _ _ (validate_passes _ _ _ _ _ _ _ Hc Hi Hf Hpass)).
  mstep. rewrite Hlen, Hf. change (default 0 (Some f)) with f. mstep.
  unfold frameAdmitted, admittedFrameEvent, resetConnectionTimeout.
  destruct (bool_decide (Some (stringOrUndefined (m_i message)) = lastFrameInput c)); sred.
  - mbroadcast. erewrite updController_Ok by side. f_equal. same_state.
  - mstep. mbroadcast. erewrite updController_Ok by side. f_equal. same_state.
Qed.

Lemma windowAt_fields f c :
  lifecycle (windowAt f c) = lifecycle c /\ instanceName (windowAt f c) = instanceName c
  /\ controllerId (windowAt f c) = controllerId c
  /\ playsetName (windowAt f c) = playsetName c
  /\ username (windowAt f c) = username c.
Proof. unfold windowAt. by destruct (f >? minFrameNumber c). Qed.

Lemma windowState_store f cid c s :
  store s !! cid = Some c -> store (windowState f cid c s) !! cid = Some (windowAt f c).
Proof.
  intros Hc. unfold windowState, windowAt.
  destruct (f >? minFrameNumber c); sred; by look.
Qed.

Lemma windowState_instances f cid c s : instances (windowState f cid c s) = instances s.
Proof. unfold windowState. by destruct (f >? minFrameNumber c). Qed.

(** The part of [onCommandMessage] up to the serial test. *)
Lemma onCommandMessage_to_serial_test now cid message s c inst f :
  store s !! cid = Some c ->
  instances s !! instanceName c = Some inst ->
  m_f message = Some f ->
  passesValidation c inst f ->
  reachesSerialTest c message s ->
  onCommandMessage now cid message s
  = (let serial := toInt32 (default 0 (m_s message)) in
     let c1 := windowAt f c in
     (when serial <=? lastCommandNumber c1 then
        controllerError now cid "client sent out-of-order command message");;
     let! c := getController cid in
     let event := admittedCommandEvent c f message in
     updController cid (set_lastCommandNumber serial);;
     updController cid (fun c => set_commandRateCounters
                                   (bumpCounter (stringOrUndefined (m_o message))
                                      (commandRateCounters c)) c);;
     broadcastEventToInstance now (instanceName c) event false;;
     resetConnectionTimeout now cid) (windowState f cid c s).
Proof.
  intros Hc Hi Hf Hpass (Hserial & Harg & limits & limit & Hlimits & Hlimit & Hrate).
  unfold onCommandMessage.
  rewrite (bind_Ok _ _ _ _ _ (validate_passes _ _ _ _ _ _ _ Hc Hi Hf Hpass)).
  mstep. cbv zeta.
  destruct (Z.eqb_spec (toInt32 (default 0 (m_s message))) 0) as [|_]; [done|].
  replace (match m_a message with Some a => a | None => ""%string end)
    with (default ""%string (m_a message)) by (by destruct (m_a message)).
  mnorm. rewrite Harg. mnorm. rewrite Hlimits, Hlimit, Hrate, Hf.
  change (default 0 (Some f)) with f.
  unfold windowState, windowAt.
  destruct (f >? minFrameNumber c).
  - mstep. mstep. reflexivity.
  - mnorm. mstep. reflexivity.
Qed.

Lemma commandTail_Ok now cid message s c inst f :
  store s !! cid = Some c ->
  instances s !! instanceName c = Some inst ->
  (let! c := getController cid in
   let event := admittedCommandEvent c f message in
   updController cid (set_lastCommandNumber (toInt32 (default 0 (m_s message))));;
   updController cid (fun c => set_commandRateCounters
                                 (bumpCounter (stringOrUndefined (m_o message))
                                    (commandRateCounters c)) c);;
   broadcastEventToInstance now (instanceName c) event false;;
   resetConnectionTimeout now cid) s
  = Ok tt (commandStored now cid c inst f message s).
Proof.
  intros Hc Hi. mstep. mstep. mstep. mbroadcast.
  unfold resetConnectionTimeout. erewrite updController_Ok by side.
  unfold commandStored. f_equal. same_state.
Qed.

(** A command whose serial is above the last one of its window. *)
Lemma onCommandMessage_in_order now cid message s c inst f :
  store s !! cid = Some c ->
  instances s !! instanceName c = Some inst ->
  m_f message = Some f ->
  passesValidation c inst f ->
  reachesSerialTest c message s ->
  lastCommandNumber (windowAt f c) < toInt32 (default 0 (m_s message)) ->
  onCommandMessage now cid message s
  = Ok tt (commandStored now cid (windowAt f c) inst f message (windowState f cid c s)).
Proof.
  intros Hc Hi Hf Hpass Hreach Hserial.
  rewrite (onCommandMessage_to_serial_test _ _ _ _ _ _ _ Hc Hi Hf Hpass Hreach).
  cbv zeta.
  destruct (Z.leb_spec (toInt32 (default 0 (m_s message)))
              (lastCommandNumber (windowAt f c))); [lia|].
  rewrite bind_ret.
  destruct (windowAt_fields f c) as (_ & Hname & _).
  apply commandTail_Ok.
  - by apply windowState_store.
  - by rewrite windowState_instances, Hname.
Qed.

(** A command whose serial is not above the last one of its window: the
    error is raised and the command is stored and relayed all the same. *)
Lemma onCommandMessage_out_of_order now cid message s c inst f :
  store s !! cid = Some c ->
  instances s !! instanceName c = Some inst ->
  m_f message = Some f ->
  passesValidation c inst f ->
  reachesSerialTest c message s ->
  toInt32 (default 0 (m_s message)) <= lastCommandNumber (windowAt f c) ->
  onCommandMessage now cid message s = Ok tt (outOfOrder now cid c inst f message s).
Proof.
  intros Hc Hi Hf Hpass Hreach Hserial.
  rewrite (onCommandMessage_to_serial_test _ _ _ _ _ _ _ Hc Hi Hf Hpass Hreach).
  cbv zeta.
  destruct (Z.leb_spec (toInt32 (default 0 (m_s message)))
              (lastCommandNumber (windowAt f c))); [|lia].
  destruct (windowAt_fields f c) as (Hlife & Hname & Hid & _).
  destruct Hpass as (Hlive & _).
  erewrite (bind_Ok (controllerError _ _ _)).
  2:{ apply controllerError_live with (c := windowAt f c) (inst := inst).
      - by apply windowState_store.
      - congruence.
      - by rewrite windowState_instances, Hname. }
  unfold outOfOrder.
  replace (instanceName c) with (instanceName (outboxed (windowAt f c))) by done.
  apply commandTail_Ok.
  - unfold refused, leftOutbox. sred. by look.
  - unfold refused, leftOutbox, outboxed. sred. by look.
Qed.

(** *** Every way the handlers can return *)

Lemma bind_Throw {A B : Type} (m : M A) (k : A -> M B) s e s' :
  m s = Throw e s' -> bind m k s = Throw e s'.
Proof. unfold bind. by intros ->. Qed.

Lemma getController_None cid s :
  store s !! cid = None ->
  getController cid s = Throw (TypeError "controller is undefined") s.
Proof. unfold getController. by intros ->. Qed.

Lemma getInstance_None name s :
  instances s !! name = None ->
  getInstance name s = Throw (TypeError "instance is undefined") s.
Proof. unfold getInstance. by intros ->. Qed.

(** When [controllerError] returns, the controller it was called on is not
    LIVE: a LIVE controller has become OUTBOX, any other keeps its
    lifecycle. *)
Lemma controllerError_cases now cid err s s' :
  controllerError now cid err s = Ok tt s' ->
  exists c, store s !! cid = Some c
    /\ ((lifecycle c = LLive
         /\ exists inst, instances s !! instanceName c = Some inst
                         /\ s' = refused now cid c inst err s)
        \/ (lifecycle c <> LLive
            /\ s' = leftAlone cid c
                      (set_trace (trace s ++ [Send cid (MsgE err); Close cid]) s))).
Proof.
  intros Hrun. destruct (store s !! cid) as [c|] eqn:Hc.
  - exists c. split; [done|].
    assert (lifecycle c = LLive \/ lifecycle c <> LLive) as [Hlive|Hlive]
      by (destruct (lifecycle c); auto; right; discriminate).
    + left. split; [done|].
      destruct (instances s !! instanceName c) as [inst|] eqn:Hi.
      * exists inst. split; [done|].
        rewrite (controllerError_live _ _ _ _ _ _ Hc Hlive Hi) in Hrun. congruence.
      * exfalso. revert Hrun. unfold controllerError, disconnectController.
        mstep. rewrite Hlive. sred. mstep. mnorm.
        erewrite bind_Throw; [done|]. apply getInstance_None. by sred.
    + right. split; [done|].
      rewrite (controllerError_not_live _ _ _ _ _ Hc Hlive) in Hrun. congruence.
  - exfalso. revert Hrun. unfold controllerError, disconnectController. mnorm.
    erewrite bind_Throw; [done|]. apply getController_None. by sred.
Qed.


(** The three ways [validateFrameOrCommandMessage] returns: the message
    passes, it is dropped as lagged, or an error was raised. *)
Lemma validate_cases now cid message s b s' :
  validateFrameOrCommandMessage now cid message s = Ok b s' ->
  (b = true /\ s' = s
   /\ exists c inst f, store s !! cid = Some c /\ instances s !! instanceName c = Some inst
                       /\ m_f message = Some f /\ passesValidation c inst f)
  \/ (b = false /\ s' = s)
  \/ (b = false /\ exists err, controllerError now cid err s = Ok tt s').
Proof.
  unfold validateFrameOrCommandMessage. intros Hrun.
  destruct (store s !! cid) as [c|] eqn:Hc.
  2:{ exfalso. revert Hrun. erewrite bind_Throw; [done|]. by apply getController_None. }
  revert Hrun. mstep.
  assert (forall err, (controllerError now cid err;; ret false) s = Ok b s' ->
            b = false /\ (exists err, controllerError now cid err s = Ok tt s')) as Herr.
  { intros err. unfold bind. destruct (controllerError now cid err s) as [[] s1|] eqn:He;
      [|done]. unfold ret. intros [= <- <-]. eauto. }
  destruct (lifecycle c) eqn:Hlive; sred; try (intros Hrun; right; right; by eapply Herr).
  destruct (m_f message) as [f|] eqn:Hf; [|intros Hrun; right; right; by eapply Herr].
  rewrite integer_test_is_vacuous.
  destruct (Z.ltb_spec (toInt32 f) (minFrameNumber c));
    [intros Hrun; right; right; by eapply Herr|].
  destruct (instances s !! instanceName c) as [inst|] eqn:Hi.
  2:{ erewrite bind_Throw; [done|]. by apply getInstance_None. }
  mstep.
  destruct (Z.gtb_spec (toInt32 f) (getPresentFrameNumber inst + FUTURE_HORIZON_FRAMES));
    [intros Hrun; right; right; by eapply Herr|].
  destruct (Z.ltb_spec f (pastHorizonFrameNumber inst)).
  - intros [= <- <-]. right. left. done.
  - intros [= <- <-]. left. split; [done|]. split; [done|].
    exists c, inst, f. unfold passesValidation. repeat split; try done; lia.
Qed.

(** The ways [onFrameMessage] returns. *)
Lemma onFrameMessage_cases now cid message s s' :
  onFrameMessage now cid message s = Ok tt s' ->
  s' = s
  \/ (exists err, controllerError now cid err s = Ok tt s')
  \/ (exists c inst f,
        store s !! cid = Some c /\ instances s !! instanceName c = Some inst
        /\ m_f message = Some f /\ passesValidation c inst f
        /\ s' = frameAdmitted now cid c inst f message s).
Proof.
  unfold onFrameMessage. intros Hrun.
  destruct (validateFrameOrCommandMessage now cid message s) as [b s1|] eqn:Hv;
    [|by rewrite (bind_Throw _ _ _ _ _ Hv) in Hrun].
  rewrite (bind_Ok _ _ _ _ _ Hv) in Hrun.
  apply validate_cases in Hv as [(-> & -> & c & inst & f & Hc & Hi & Hf & Hpass)|[H|H]].
  - destruct (exceeds (strlen (stringOrUndefined (m_i message)))
                (playsetInputLengthLimits s !! playsetName c)) eqn:Hlen.
    + revert Hrun. mstep. rewrite Hlen. intros Hrun. right. left. eauto.
    + right. right. exists c, inst, f. do 4 (split; [done|]).
      pose proof (onFrameMessage_admitted now cid message s c inst f Hc Hi Hf Hpass Hlen)
        as Hadm.
      unfold onFrameMessage in Hadm.
      rewrite (bind_Ok _ _ _ _ _ (validate_passes _ _ _ _ _ _ _ Hc Hi Hf Hpass)) in Hadm.
      rewrite Hadm in Hrun. congruence.
  - destruct H as (-> & ->). left. revert Hrun. unfold ret. by intros [= <-].
  - destruct H as (-> & err & Herr). right. left. exists err.
    revert Hrun. unfold ret. by intros [= <-].
Qed.

(** [onCommandMessage] for a message that passes the validation, as a
    cascade of tests on the state it was called in. *)
Lemma onCommandMessage_validated now cid message s c inst f :
  store s !! cid = Some c ->
  instances s !! instanceName c = Some inst ->
  m_f message = Some f ->
  passesValidation c inst f ->
  onCommandMessage now cid message s
  = if toInt32 (default 0 (m_s message)) =? 0
    then controllerError now cid "client sent command message without serial" s
    else if exceeds (strlen (default ""%string (m_a message)))
                    (playsetArgumentLengthLimits s !! playsetName c)
    then controllerError now cid "client sent too-large command argument" s
    else match playsetCommandRateLimits s !! playsetName c with
         | None =>
             Throw (TypeError "playsetCommandRateLimits[playsetName] is undefined") s
         | Some limits =>
             match limits !! stringOrUndefined (m_o message) with
             | None =>
                 controllerError now cid "client sent invalid command for this playset" s
             | Some limit =>
                 if match commandRateCounters c !! stringOrUndefined (m_o message) with
                    | Some n => n >=? limit
                    | None => false
                    end
                 then controllerError now cid "client exceeded command rate limit" s
                 else
                   if toInt32 (default 0 (m_s message)) <=? lastCommandNumber (windowAt f c)
                   then Ok tt (outOfOrder now cid c inst f message s)
                   else Ok tt (commandStored now cid (windowAt f c) inst f message
                                 (windowState f cid c s))
             end
         end.
Proof.
  intros Hc Hi Hf Hpass.
  destruct (Z.eqb_spec (toInt32 (default 0 (m_s message))) 0) as [Hz|Hserial].
  { unfold onCommandMessage.
    rewrite (bind_Ok _ _ _ _ _ (validate_passes _ _ _ _ _ _ _ Hc Hi Hf Hpass)).
    mstep. cbv zeta. by rewrite Hz. }
  destruct (exceeds (strlen (default ""%string (m_a message)))
              (playsetArgumentLengthLimits s !! playsetName c)) eqn:Harg.
  { unfold onCommandMessage.
    rewrite (bind_Ok _ _ _ _ _ (validate_passes _ _ _ _ _ _ _ Hc Hi Hf Hpass)).
    mstep. cbv zeta.
    destruct (Z.eqb_spec (toInt32 (default 0 (m_s message))) 0) as [|_]; [done|].
    replace (match m_a message with Some a => a | None => ""%string end)
      with (default ""%string (m_a message)) by (by destruct (m_a message)).
    mnorm. by rewrite Harg. }
  assert ((forall limits limit,
                playsetCommandRateLimits s !! playsetName c = Some limits ->
                limits !! stringOrUndefined (m_o message) = Some limit ->
                match commandRateCounters c !! stringOrUndefined (m_o message) with
                | Some n => n >=? limit
                | None => false
                end = false ->
                onCommandMessage now cid message s
                = if toInt32 (default 0 (m_s message)) <=? lastCommandNumber (windowAt f c)
                  then Ok tt (outOfOrder now cid c inst f message s)
                  else Ok tt (commandStored now cid (windowAt f c) inst f message
                                (windowState f cid c s)))) as Htail.
  { intros limits limit Hlimits Hlimit Hrate.
    assert (reachesSerialTest c message s) as Hreach.
    { split; [done|]. split; [done|]. by exists limits, limit. }
    destruct (Z.leb_spec (toInt32 (default 0 (m_s message)))
                (lastCommandNumber (windowAt f c))).
    - by apply onCommandMessage_out_of_order.
    - by apply onCommandMessage_in_order. }
  destruct (playsetCommandRateLimits s !! playsetName c) as [limits|] eqn:Hlimits.
  2:{ unfold onCommandMessage.
      rewrite (bind_Ok _ _ _ _ _ (validate_passes _ _ _ _ _ _ _ Hc Hi Hf Hpass)).
      mstep. cbv zeta.
      destruct (Z.eqb_spec (toInt32 (default 0 (m_s message))) 0) as [|_]; [done|].
      replace (match m_a message with Some a => a | None => ""%string end)
        with (default ""%string (m_a message)) by (by destruct (m_a message)).
      mnorm. rewrite Harg. mnorm. by rewrite Hlimits. }
  destruct (limits !! stringOrUndefined (m_o message)) as [limit|] eqn:Hlimit.
  2:{ unfold onCommandMessage.
      rewrite (bind_Ok _ _ _ _ _ (validate_passes _ _ _ _ _ _ _ Hc Hi Hf Hpass)).
      mstep. cbv zeta.
      destruct (Z.eqb_spec (toInt32 (default 0 (m_s message))) 0) as [|_]; [done|].
      replace (match m_a message with Some a => a | None => ""%string end)
        with (default ""%string (m_a message)) by (by destruct (m_a message)).
      mnorm. rewrite Harg. mnorm. by rewrite Hlimits, Hlimit. }
  destruct (match commandRateCounters c !! stringOrUndefined (m_o message) with
            | Some n => n >=? limit
            | None => false
            end) eqn:Hrate.
  { unfold onCommandMessage.
    rewrite (bind_Ok _ _ _ _ _ (validate_passes _ _ _ _ _ _ _ Hc Hi Hf Hpass)).
    mstep. cbv zeta.
    destruct (Z.eqb_spec (toInt32 (default 0 (m_s message))) 0) as [|_]; [done|].
    replace (match m_a message with Some a => a | None => ""%string end)
      with (default ""%string (m_a message)) by (by destruct (m_a message)).
    mnorm. rewrite Harg. mnorm. by rewrite Hlimits, Hlimit, Hrate. }
  by apply (Htail limits limit).
Qed.

(** The ways [onCommandMessage] returns. *)
Lemma onCommandMessage_cases now cid message s s' :
  onCommandMessage now cid message s = Ok tt s' ->
  s' = s
  \/ (exists err, controllerError now cid err s = Ok tt s')
  \/ (exists c inst f,
        store s !! cid = Some c /\ instances s !! instanceName c = Some inst
        /\ m_f message = Some f /\ passesValidation c inst f
        /\ (s' = commandStored now cid (windowAt f c) inst f message (windowState f cid c s)
            \/ s' = outOfOrder now cid c inst f message s)).
Proof.
  intros Hrun.
  destruct (validateFrameOrCommandMessage now cid message s) as [b s1|] eqn:Hv.
  2:{ unfold onCommandMessage in Hrun. by rewrite (bind_Throw _ _ _ _ _ Hv) in Hrun. }
  pose proof Hv as Hv'.
  apply validate_cases in Hv as [(-> & -> & c & inst & f & Hc & Hi & Hf & Hpass)|[H|H]].
  - rewrite (onCommandMessage_validated _ _ _ _ _ _ _ Hc Hi Hf Hpass) in Hrun.
    repeat case_match; try discriminate; try (right; left; by eauto);
      right; right; exists c, inst, f; do 4 (split; [done|]);
      first [left; congruence | right; congruence].
  - destruct H as (-> & ->). left. unfold onCommandMessage in Hrun.
    rewrite (bind_Ok _ _ _ _ _ Hv') in Hrun. revert Hrun. unfold ret. by intros [= <-].
  - destruct H as (-> & err & Herr). right. left. exists err.
    unfold onCommandMessage in Hrun.
    rewrite (bind_Ok _ _ _ _ _ Hv') in Hrun. revert Hrun. unfold ret. by intros [= <-].
Qed.

Lemma addInstanceEvent_frame event inst :
  pastHorizonFrameNumber (addInstanceEvent event inst) = pastHorizonFrameNumber inst.
Proof. unfold addInstanceEvent. by destruct (events inst !! ev_f event). Qed.

Lemma addInstanceEvent_subscribers event inst :
  broadcastControllers (addInstanceEvent event inst) = broadcastControllers inst.
Proof. unfold addInstanceEvent. by destruct (events inst !! ev_f event). Qed.

Lemma addInstanceEvent_playset event inst :
  playset (addInstanceEvent event inst) = playset inst.
Proof. unfold addInstanceEvent. by destruct (events inst !! ev_f event). Qed.


(** ** Lagged messages *)

(** C5, counterexample.  alice's controller is LIVE with
    [minFrameNumber] 105 and the past horizon of her instance is 100.  Her
    frame message stamped 95 is answered with the error "out-of-order
    message" and her socket is closed; she is OUTBOX afterwards. *)
Lemma lagged_frame_below_minimum_is_refused :
  (lifecycle <$> store aheadAt100 !! 2, minFrameNumber <$> store aheadAt100 !! 2,
   pastHorizonFrameNumber <$> roomOf aheadAt100)
  = (Some LLive, Some 105, Some 100)
  /\ sent (onFrameMessage (13000 # 3) 2 (frameMessage 95 "x") aheadAt100) aheadAt100
     = [Send 2 (MsgE "out-of-order message"); Close 2]
  /\ lifecycle <$> store (finalState (onFrameMessage (13000 # 3) 2 (frameMessage 95 "x")
                                        aheadAt100)) !! 2
     = Some LOutbox.
Proof. repeat split; vm_compute; reflexivity. Qed.

(** C5, as amended.  A frame or command message from a LIVE controller whose
    frame field is below the past horizon of its instance, while its frame
    taken as a 32-bit integer is at least the controller's
    [minFrameNumber] and at most present + FUTURE_HORIZON_FRAMES, is
    dropped silently: nothing is sent, the socket is not closed, and the
    server state is left exactly as it was. *)
Theorem lagged_message_is_dropped_silently now cid message s c instance f :
  store s !! cid = Some c -> lifecycle c = LLive ->
  instances s !! instanceName c = Some instance ->
  m_f message = Some f ->
  minFrameNumber c <= toInt32 f ->
  toInt32 f <= getPresentFrameNumber instance + FUTURE_HORIZON_FRAMES ->
  f < pastHorizonFrameNumber instance ->
  onFrameMessage now cid message s = Ok tt s
  /\ onCommandMessage now cid message s = Ok tt s.
Proof.
  intros Hc Hlive Hi Hf Hmin Hmax Hlag.
  pose proof (validate_lagged now cid message s c instance f Hc Hlive Hi Hf Hmin Hmax Hlag)
    as Hv.
  unfold onFrameMessage, onCommandMessage.
  rewrite !(bind_Ok _ _ _ _ _ Hv). split; reflexivity.
Qed.

(** With the past horizon at 100 and an idle alice, whose [minFrameNumber]
    is still 16, her frame message stamped 95 is dropped silently. *)
Lemma lagged_message_is_dropped_silently_witness :
  onFrameMessage (13000 # 3) 2 (frameMessage 95 "x") idleAt100 = Ok tt idleAt100
  /\ onCommandMessage (13000 # 3) 2 (frameMessage 95 "x") idleAt100 = Ok tt idleAt100.
Proof.
  eapply (lagged_message_is_dropped_silently _ 2 _ idleAt100 _ _ 95).
  - vm_compute. reflexivity.
  - reflexivity.
  - vm_compute. reflexivity.
  - reflexivity.
  - vm_compute. discriminate.
  - vm_compute. discriminate.
  - vm_compute. reflexivity.
Defined.

(** ** Commands with a serial that does not increase *)

(** C4, counterexample.  alice (controller 2) is LIVE and has
    sent "fire" with serial 1 for frame 20; bob (controller 3) is subscribed
    to the same instance.  alice sends "fire" with serial 1 for frame 20
    again.  The error is sent to her and her socket is closed, and then the
    refused command is put into the bucket of frame 20, behind the first one
    and her Disconnect, and relayed to bob. *)
Lemma repeated_serial_is_stored_and_relayed :
  (lifecycle <$> store firedOnce !! 2, lastCommandNumber <$> store firedOnce !! 2,
   (fun i => events i !! 20) <$> roomOf firedOnce)
  = (Some LLive, Some 1, Some (Some [commandEvent 2 20 "fire" "" 1]))
  /\ sent (onCommandMessage 1020 2 (commandMessage 20 1 "fire") firedOnce) firedOnce
     = [Send 2 (MsgE "client sent out-of-order command message"); Close 2;
        Send 3 (MsgEvent (disconnectEvent 2 20) None);
        Send 3 (MsgEvent (commandEvent 2 20 "fire" "" 1) None)]
  /\ (fun i => events i !! 20)
       <$> roomOf (finalState (onCommandMessage 1020 2 (commandMessage 20 1 "fire")
                                 firedOnce))
     = Some (Some [commandEvent 2 20 "fire" "" 1; disconnectEvent 2 20;
                   commandEvent 2 20 "fire" "" 1]).
Proof. repeat split; vm_compute; reflexivity. Qed.

Lemma stored_added event inst : stored event (addInstanceEvent event inst).
Proof.
  unfold stored, addInstanceEvent.
  destruct (events inst !! ev_f event) as [bucket|] eqn:Hb; sred; look.
  - exists (bucket ++ [event]). split; [done|]. apply in_or_app. right. by left.
  - exists [event]. split; [done|]. by left.
Qed.

Lemma stored_kept event event' inst :
  stored event inst -> stored event (addInstanceEvent event' inst).
Proof.
  unfold stored, addInstanceEvent. intros (bucket & Hb & Hin).
  destruct (decide (ev_f event' = ev_f event)) as [Heq|Hne].
  - rewrite Heq, Hb. sred. look. exists (bucket ++ [event']).
    split; [done|]. apply in_or_app. by left.
  - destruct (events inst !! ev_f event'); sred; look; eauto.
Qed.

Lemma stored_added_inv event event' inst :
  stored event (addInstanceEvent event' inst) -> event = event' \/ stored event inst.
Proof.
  unfold stored, addInstanceEvent. intros (bucket & Hb & Hin).
  destruct (decide (ev_f event' = ev_f event)) as [Heq|Hne].
  - destruct (events inst !! ev_f event') as [old|] eqn:Hold; revert Hb; sred;
      rewrite Heq; look; intros [= <-].
    + apply in_app_or in Hin as [Hin|[->|[]]]; [|by left].
      right. exists old. by rewrite <- Heq.
    + destruct Hin as [->|[]]. by left.
  - right. destruct (events inst !! ev_f event'); revert Hb; sred; look; eauto.
Qed.

(** Every subscriber is in the list the relay loop goes through. *)
Lemma ascending_elem_of (ids : gset Z) (i : Z) : In i (ascending ids) <-> i ∈ ids.
Proof.
  unfold ascending. rewrite <- list_elem_of_In, merge_sort_Permutation.
  apply elem_of_elements.
Qed.

Lemma eventSends_plain now inst event :
  eventSends now inst event false
  = map (fun i => Send i (MsgEvent event None)) (ascending (broadcastControllers inst)).
Proof. reflexivity. Qed.

Lemma departureEvent_stamp c inst :
  departureEvent c inst
  = disconnectEvent (controllerId c)
      (Z.max (getPresentFrameNumber inst) (minFrameNumber c)).
Proof.
  unfold departureEvent. cbv zeta.
  destruct (Z.ltb_spec (getPresentFrameNumber inst) (minFrameNumber c)); f_equal; lia.
Qed.

(** C4, as amended.  A LIVE controller sends a command message that passes
    the validation and the tests on serial presence, argument length, verb
    and rate, and whose serial is not above [lastCommandNumber] of the
    current frame window.  Then [onCommandMessage] returns; the error
    "client sent out-of-order command message" is sent to the controller and
    its socket is closed; the controller is OUTBOX and disconnected, listed
    under its user name in the outbox, no longer among the live controllers
    and no longer subscribed; its Disconnect event, stamped with the later
    of the present frame and its [minFrameNumber], is in the event store of
    its instance and is sent, right after the close, to every remaining
    subscriber of the instance, in ascending order of their ids.  What is
    sent after that is the refused command, relayed to the same
    subscribers. *)
Theorem out_of_order_command_raises_error now cid message s c inst f :
  store s !! cid = Some c ->
  instances s !! instanceName c = Some inst ->
  m_f message = Some f ->
  passesValidation c inst f ->
  reachesSerialTest c message s ->
  toInt32 (default 0 (m_s message)) <= lastCommandNumber (windowAt f c) ->
  exists s' c' inst',
    onCommandMessage now cid message s = Ok tt s'
    /\ trace s'
       = trace s
         ++ [Send cid (MsgE "client sent out-of-order command message"); Close cid]
         ++ map (fun i =>
                   Send i (MsgEvent
                             (disconnectEvent (controllerId c)
                                (Z.max (getPresentFrameNumber inst)
                                       (minFrameNumber (windowAt f c)))) None))
                (ascending (broadcastControllers inst ∖ {[controllerId c]}))
         ++ map (fun i =>
                   Send i (MsgEvent
                             (commandEvent (controllerId c) f
                                (stringOrUndefined (m_o message))
                                (default ""%string (m_a message))
                                (toInt32 (default 0 (m_s message)))) None))
                (ascending (broadcastControllers inst ∖ {[controllerId c]}))
    /\ (forall i, i ∈ broadcastControllers inst -> i <> controllerId c ->
          In (Send i (MsgEvent
                        (disconnectEvent (controllerId c)
                           (Z.max (getPresentFrameNumber inst)
                                  (minFrameNumber (windowAt f c)))) None))
             (trace s'))
    /\ store s' !! cid = Some c' /\ lifecycle c' = LOutbox /\ disconnected c' = true
    /\ outboxControllers s' !! username c = Some cid
    /\ liveControllers s' !! username c = None
    /\ instances s' !! instanceName c = Some inst'
    /\ broadcastControllers inst' = broadcastControllers inst ∖ {[controllerId c]}
    /\ stored (disconnectEvent (controllerId c)
                 (Z.max (getPresentFrameNumber inst) (minFrameNumber (windowAt f c))))
              inst'.
Proof.
  intros Hc Hi Hf Hpass Hreach Hserial.
  destruct (windowAt_fields f c) as (Hlife & Hname & Hid & Hplay & Huser).
  pose proof (departureEvent_stamp (windowAt f c) inst) as Hstamp. rewrite Hid in Hstamp.
  rewrite <- Hstamp.
  assert (trace (outOfOrder now cid c inst f message s)
          = trace s
            ++ [Send cid (MsgE "client sent out-of-order command message"); Close cid]
            ++ map (fun i => Send i (MsgEvent (departureEvent (windowAt f c) inst) None))
                   (ascending (broadcastControllers inst ∖ {[controllerId c]}))
            ++ map (fun i =>
                      Send i (MsgEvent
                                (commandEvent (controllerId c) f
                                   (stringOrUndefined (m_o message))
                                   (default ""%string (m_a message))
                                   (toInt32 (default 0 (m_s message)))) None))
                   (ascending (broadcastControllers inst ∖ {[controllerId c]}))) as Htrace.
  { unfold outOfOrder, commandStored, refused, leftOutbox. cbv zeta. sred.
    rewrite !eventSends_plain, addInstanceEvent_subscribers.
    assert (broadcastControllers (departed (windowAt f c) inst)
            = broadcastControllers inst ∖ {[controllerId c]}) as ->.
    { unfold departed. rewrite addInstanceEvent_subscribers. sred. by rewrite Hid. }
    unfold admittedCommandEvent, outboxed. sred. rewrite Hid.
    assert (trace (windowState f cid c s) = trace s) as ->
      by (unfold windowState; by destruct (f >? minFrameNumber c)).
    by rewrite <- ?app_assoc. }
  eexists _, _, _. split.
  { by apply onCommandMessage_out_of_order. }
  split; [exact Htrace|]. split.
  { intros i Hin Hne. rewrite Htrace. apply in_or_app. right.
    apply in_or_app. right. apply in_or_app. left.
    apply in_map_iff. exists i. split; [done|].
    apply ascending_elem_of. set_solver. }
  unfold outOfOrder, commandStored, refused, leftOutbox, outboxed.
  sred. rewrite ?Hname, ?Huser. look.
  split; [reflexivity|]. sred. do 3 (split; [reflexivity|]).
  split; [apply lookup_delete_eq|].
  split; [reflexivity|]. split.
  { rewrite addInstanceEvent_subscribers. unfold departed.
    rewrite addInstanceEvent_subscribers. sred. by rewrite Hid. }
  apply stored_kept. unfold departed. apply stored_added.
Qed.

(** alice repeats the serial 1 in frame 20 while bob, controller 3, is
    subscribed: bob is sent her Disconnect, stamped 20. *)
Lemma out_of_order_command_raises_error_witness :
  exists s' c' inst',
    onCommandMessage 1020 2 (commandMessage 20 1 "fire") firedOnce = Ok tt s'
    /\ trace s'
       = trace firedOnce
         ++ [Send 2 (MsgE "client sent out-of-order command message"); Close 2]
         ++ map (fun i => Send i (MsgEvent (disconnectEvent 2 20) None)) [3]
         ++ map (fun i => Send i (MsgEvent (commandEvent 2 20 "fire" "" 1) None)) [3]
    /\ (forall i, i ∈ broadcastControllers (instanceOf firedOnce "room") -> i <> 2 ->
          In (Send i (MsgEvent (disconnectEvent 2 20) None)) (trace s'))
    /\ store s' !! 2 = Some c' /\ lifecycle c' = LOutbox /\ disconnected c' = true
    /\ outboxControllers s' !! "alice"%string = Some 2
    /\ liveControllers s' !! "alice"%string = None
    /\ instances s' !! "room"%string = Some inst'
    /\ broadcastControllers inst' = broadcastControllers (instanceOf firedOnce "room") ∖ {[2]}
    /\ stored (disconnectEvent 2 20) inst'.
Proof.
  apply (out_of_order_command_raises_error 1020 2 (commandMessage 20 1 "fire") firedOnce
           (controllerOf firedOnce 2) (instanceOf firedOnce "room") 20).
  - vm_compute. reflexivity.
  - vm_compute. reflexivity.
  - reflexivity.
  - repeat split; vm_compute; first [reflexivity | discriminate].
  - split; [vm_compute; discriminate|]. split; [vm_compute; reflexivity|].
    exists {[ "fire"%string := 3 ]}, 3. repeat split; vm_compute; reflexivity.
  - vm_compute. discriminate.
Defined.

(** ** LIVE controllers and the past horizon *)

Lemma run_reachable cr reg inputs :
  forall t s s', reachable cr reg t s -> run cr t inputs s = Some s' ->
                 exists t', reachable cr reg t' s'.
Proof.
  induction inputs as [|[now inp] inputs IH]; intros t s s' Hreach Hrun; simpl in Hrun.
  - injection Hrun as <-. eauto.
  - destruct (Qle_bool t now) eqn:Ht; [|done].
    destruct (enabled now inp s) eqn:Hen; [|done]. simpl in Hrun.
    destruct (handle cr now inp s) as [[] s1|] eqn:Hh; [|done].
    eapply IH; [|exact Hrun]. by eapply reach_step.
Qed.

(** A server reached by [after] is a reachable state. *)
Lemma after_reachable o inputs s :
  after o inputs = Some s -> exists t, reachable toyCrypto testRegistry t s.
Proof.
  unfold after, started.
  destruct (loadServerState testRegistry None 0 o) as [|s0] eqn:Hload; [done|].
  intros Hrun. eapply run_reachable; [|exact Hrun]. by eapply reach_load.
Qed.




Lemma first_input_moves_minimum :
  (minFrameNumber (controllerOf bothLoggedIn 2),
   minFrameNumber (controllerOf afterFirstInput 2),
   pastHorizonFrameNumber (instanceOf bothLoggedIn "room"))
  = (16, 21, 1).
Proof. vm_compute. reflexivity. Qed.

(** ** The controller id of relayed events *)

Lemma eventSends_event now inst event addTimestamp to event' t :
  In (Send to (MsgEvent event' t)) (eventSends now inst event addTimestamp) ->
  event' = event.
Proof.
  unfold eventSends. intros Hin. apply in_map_iff in Hin as (i & Heq & _).
  destruct (addTimestamp && (toInt32 i =? ev_c event)); by injection Heq.
Qed.

Lemma echoSends_event now inst event addTimestamp to event' t :
  In (Send to (MsgEvent event' t)) (echoSends now inst event addTimestamp) ->
  event' = event.
Proof.
  unfold echoSends. case_bool_decide; [|done]. intros [Heq|[]]. by injection Heq.
Qed.

Lemma newEventsCarry_refl id s : newEventsCarry id s s.
Proof.
  split; [by eauto|]. exists []. split; [by rewrite app_nil_r|]. by intros ? ? ? [].
Qed.

Lemma stored_unsubscribed event subscribers inst :
  stored event (set_broadcastControllers subscribers inst) <-> stored event inst.
Proof. reflexivity. Qed.

(** [controllerError] stores and relays at most the Disconnect of the
    controller it is called on. *)
Lemma controllerError_events now cid err s s' c :
  store s !! cid = Some c ->
  controllerError now cid err s = Ok tt s' ->
  newEventsCarry (controllerId c) s s'.
Proof.
  intros Hc Hrun. apply controllerError_cases in Hrun as (c0 & Hc0 & Hcases).
  rewrite Hc in Hc0. injection Hc0 as <-.
  destruct Hcases as [(_ & inst & Hi & ->)|(_ & ->)].
  - unfold refused, leftOutbox. split.
    + sred. intros name inst' event Hi' Hst.
      destruct (decide (name = instanceName c)) as [->|Hne]; revert Hi'; look.
      * intros [= <-]. unfold departed in Hst.
        apply stored_added_inv in Hst as [->|Hst]; [by right|]. left. eauto.
      * intros Hi'. left. eauto.
    + sred. eexists. split; [reflexivity|]. intros to event t Hin.
      destruct Hin as [Heq|[Heq|Hin]]; [done|done|].
      by apply eventSends_event in Hin as ->.
  - unfold leftAlone. split.
    + intros name inst' event Hi' Hst. left. exists inst'. split; [|done].
      revert Hi'. sred. by repeat case_match.
    + eexists. split.
      * sred. repeat case_match; sred; reflexivity.
      * intros to event t [Heq|[Heq|[]]]; done.
Qed.

Lemma frameAdmitted_events now cid c inst f message s :
  instances s !! instanceName c = Some inst ->
  newEventsCarry (controllerId c) s (frameAdmitted now cid c inst f message s).
Proof.
  intros Hi. unfold frameAdmitted. split.
  - sred. intros name inst' event Hi' Hst.
    destruct (decide (name = instanceName c)) as [->|Hne]; revert Hi'; look.
    + intros [= <-]. apply stored_added_inv in Hst as [->|Hst]; [by right|]. left. eauto.
    + intros Hi'. left. eauto.
  - sred. eexists. split; [reflexivity|]. intros to event t Hin.
    destruct (negb (bool_decide (Some (stringOrUndefined (m_i message))
                                 = lastFrameInput c))).
    + by apply eventSends_event in Hin as ->.
    + by apply echoSends_event in Hin as ->.
Qed.

Lemma commandStored_events now cid c inst f message s :
  instances s !! instanceName c = Some inst ->
  newEventsCarry (controllerId c) s (commandStored now cid c inst f message s).
Proof.
  intros Hi. unfold commandStored. split.
  - sred. intros name inst' event Hi' Hst.
    destruct (decide (name = instanceName c)) as [->|Hne]; revert Hi'; look.
    + intros [= <-]. apply stored_added_inv in Hst as [->|Hst]; [by right|]. left. eauto.
    + intros Hi'. left. eauto.
  - sred. eexists. split; [reflexivity|]. intros to event t Hin.
    by apply eventSends_event in Hin as ->.
Qed.

Lemma newEventsCarry_trans id s1 s2 s3 :
  newEventsCarry id s1 s2 -> newEventsCarry id s2 s3 -> newEventsCarry id s1 s3.
Proof.
  intros [Hst12 (new12 & Htr12 & Hnew12)] [Hst23 (new23 & Htr23 & Hnew23)]. split.
  - intros name inst' event Hi' Hst.
    destruct (Hst23 name inst' event Hi' Hst) as [(inst2 & Hi2 & Hst2)|Hid]; [|by right].
    by apply (Hst12 name inst2 event).
  - exists (new12 ++ new23). split; [by rewrite Htr23, Htr12, app_assoc|].
    intros to event t Hin. apply in_app_or in Hin as [Hin|Hin]; eauto.
Qed.

Lemma windowState_events f cid c s : newEventsCarry (controllerId c) s (windowState f cid c s).
Proof.
  unfold windowState. destruct (f >? minFrameNumber c); [|apply newEventsCarry_refl].
  split; [by eauto|]. exists []. split; [by sred; rewrite app_nil_r|]. by intros ? ? ? [].
Qed.

(** Reading the message: the handlers look at "f", "i", "s", "o" and "a"
    only. *)
Lemma handlers_ignore_identity_fields now cid m1 m2 s :
  sameButIdentity m1 m2 ->
  onFrameMessage now cid m2 s = onFrameMessage now cid m1 s
  /\ onCommandMessage now cid m2 s = onCommandMessage now cid m1 s.
Proof.
  intros (Hk & Hf & Hi & Hs & Ho & Ha & Hp & Hn).
  unfold onFrameMessage, onCommandMessage, validateFrameOrCommandMessage.
  by rewrite Hf, Hi, Hs, Ho, Ha.
Qed.

(** C10.  A frame or command message [m1] of the controller [c] has been
    handled, and [m2] differs from it at most under "u" and "c".  Then the
    handlers do with [m2] exactly what they do with [m1], and every event
    the handler has put into an event store or sent to a subscriber carries
    the controller id the server gave [c]. *)
Theorem relayed_events_carry_assigned_id now cid m1 m2 s s' c :
  store s !! cid = Some c ->
  sameButIdentity m1 m2 ->
  onFrameMessage now cid m1 s = Ok tt s' \/ onCommandMessage now cid m1 s = Ok tt s' ->
  (onFrameMessage now cid m2 s = onFrameMessage now cid m1 s
   /\ onCommandMessage now cid m2 s = onCommandMessage now cid m1 s)
  /\ newEventsCarry (controllerId c) s s'.
Proof.
  intros Hc Hsame Hrun. split; [by apply handlers_ignore_identity_fields|].
  destruct Hrun as [Hrun|Hrun].
  - apply onFrameMessage_cases in Hrun
      as [->|[(err & Herr)|(c0 & inst & f & Hc0 & Hi & Hf & Hpass & ->)]].
    + apply newEventsCarry_refl.
    + by eapply controllerError_events.
    + rewrite Hc in Hc0. injection Hc0 as <-. by apply frameAdmitted_events.
  - apply onCommandMessage_cases in Hrun
      as [->|[(err & Herr)|(c0 & inst & f & Hc0 & Hi & Hf & Hpass & [->| ->])]].
    + apply newEventsCarry_refl.
    + by eapply controllerError_events.
    + rewrite Hc in Hc0. injection Hc0 as <-.
      destruct (windowAt_fields f c) as (_ & Hname & Hid & _).
      eapply newEventsCarry_trans; [apply (windowState_events f cid c s)|].
      rewrite <- Hid. apply commandStored_events.
      by rewrite windowState_instances, Hname.
    + rewrite Hc in Hc0. injection Hc0 as <-.
      destruct (windowAt_fields f c) as (Hlife & Hname & Hid & _).
      destruct Hpass as (Hlive & _).
      unfold outOfOrder.
      eapply newEventsCarry_trans; [apply (windowState_events f cid c s)|].
      eapply newEventsCarry_trans.
      * rewrite <- Hid. eapply controllerError_events.
        -- by apply windowState_store.
        -- apply controllerError_live; [by apply windowState_store|congruence|].
           by rewrite windowState_instances, Hname.
      * replace (controllerId c) with (controllerId (outboxed (windowAt f c))) by done.
        apply commandStored_events. unfold refused, leftOutbox, outboxed. sred. by look.
Qed.

(** alice's message for frame 20, and the same message claiming to come
    from bob: both are handled alike, and the event stored and relayed is
    alice's. *)
Lemma relayed_events_carry_assigned_id_witness :
  (onFrameMessage 1010 2 forgedMessage bothLoggedIn
   = onFrameMessage 1010 2 honestMessage bothLoggedIn
   /\ onCommandMessage 1010 2 forgedMessage bothLoggedIn
      = onCommandMessage 1010 2 honestMessage bothLoggedIn)
  /\ newEventsCarry (controllerId (controllerOf bothLoggedIn 2)) bothLoggedIn
        (finalState (onFrameMessage 1010 2 honestMessage bothLoggedIn)).
Proof.
  apply (relayed_events_carry_assigned_id 1010 2 honestMessage forgedMessage bothLoggedIn).
  - vm_compute. reflexivity.
  - repeat split.
  - left. vm_compute. reflexivity.
Defined.

(** In that run the forged message is admitted as an event of controller 2. *)
Lemma forged_message_is_relayed_as_alice :
  sent (onFrameMessage 1010 2 forgedMessage bothLoggedIn) bothLoggedIn
  = [Send 2 (MsgEvent (frameEvent 2 20 "x") (Some 543));
     Send 3 (MsgEvent (frameEvent 2 20 "x") None)]
  /\ sent (onCommandMessage 1010 2 forgedMessage bothLoggedIn) bothLoggedIn
     = [Send 2 (MsgEvent (commandEvent 2 20 "fire" "" 1) None);
        Send 3 (MsgEvent (commandEvent 2 20 "fire" "" 1) None)].
Proof. split; vm_compute; reflexivity. Qed.

(** ** What a handler does to a part of the state *)

Lemma bind_Ok_inv {A B : Type} (m : M A) (k : A -> M B) s b s' :
  bind m k s = Ok b s' -> exists a s1, m s = Ok a s1 /\ k a s1 = Ok b s'.
Proof. unfold bind. destruct (m s) as [a s1|]; [|done]. eauto. Qed.

#[local] Instance same_preorder {B : Type} (f : Server -> B) : PreOrder (same f).
Proof. split; [by intros s|]. intros a b c. unfold same. congruence. Qed.

#[local] Instance carries_preorder (P : Server -> Prop) : PreOrder (carries P).
Proof. split; [by intros s H|]. intros a b c. unfold carries. tauto. Qed.

Section Steps.
Context (R : relation Server) `{!PreOrder R}.

Lemma steps_ret {A : Type} (a : A) : steps R (ret a).
Proof. intros s a' s' [= <- <-]. reflexivity. Qed.

Lemma steps_throw {A : Type} e : steps R (@throw A e).
Proof. intros s a s'. unfold throw. discriminate. Qed.

Lemma steps_gets {A : Type} (g : Server -> A) : steps R (gets g).
Proof. intros s a' s' [= <- <-]. reflexivity. Qed.

Lemma steps_modify g : (forall s, R s (g s)) -> steps R (modify g).
Proof. intros H s a s' [= ?]. subst. apply H. Qed.

Lemma steps_bind {A B : Type} (m : M A) (k : A -> M B) :
  steps R m -> (forall a, steps R (k a)) -> steps R (bind m k).
Proof.
  intros Hm Hk s b s' (a & s1 & H1 & H2)%bind_Ok_inv.
  etransitivity; [by eapply Hm|by eapply Hk].
Qed.

Lemma steps_getController cid : steps R (getController cid).
Proof.
  intros s a s'. unfold getController. destruct (store s !! cid); [|done].
  intros [= <- <-]. reflexivity.
Qed.

Lemma steps_getInstance name : steps R (getInstance name).
Proof.
  intros s a s'. unfold getInstance. destruct (instances s !! name); [|done].
  intros [= <- <-]. reflexivity.
Qed.

Lemma steps_getPlayset i : steps R (getPlayset i).
Proof.
  intros s a s'. unfold getPlayset. destruct (playset i); [|done].
  intros [= <- <-]. reflexivity.
Qed.

End Steps.

Lemma keeps_Ok {A B : Type} (f : Server -> B) (m : M A) s a s' :
  keeps f m -> m s = Ok a s' -> f s' = f s.
Proof. intros H Hrun. by apply (H s a s'). Qed.

Lemma keeps_modify {B : Type} (f : Server -> B) g :
  (forall s, f (g s) = f s) -> keeps f (modify g).
Proof. intros H. apply steps_modify. intros s. apply H. Qed.

(** The leaves of a handler: reads, and updates that visibly keep [R]. *)
Ltac steps_leaf :=
  first [ apply steps_ret; apply _ | apply steps_throw
        | apply steps_gets; apply _
        | apply steps_getController; apply _ | apply steps_getInstance; apply _
        | apply steps_getPlayset; apply _
        | apply steps_modify; intros; reflexivity
        | assumption ].

(** Walk down a handler: binds and branches. *)
Ltac steps_walk :=
  repeat first
    [ steps_leaf
    | progress cbv zeta
    | match goal with
      | |- steps _ (bind _ _) => apply steps_bind; [apply _| |intros ?]
      | |- keeps _ (bind _ _) => apply steps_bind; [apply _| |intros ?]
      | |- preserves _ (bind _ _) => apply steps_bind; [apply _| |intros ?]
      | |- _ (if ?b then _ else _) => destruct b
      | |- _ (match ?x with _ => _ end) => destruct x
      end ].

Ltac gentle_tac :=
  intros ?i; unfold tempo, addInstanceEvent;
  repeat match goal with |- context [match ?x with _ => _ end] => destruct x end;
  reflexivity.

Ltac mild_tac := intros ?c; reflexivity.

(** *** From the blocks to the inputs *)

Section Inputs.
(** [R] is kept by the blocks below; then it is kept by every input. *)
Context (R : relation Server) `{!PreOrder R}.
Hypothesis R_trace : forall v s, R s (set_trace v s).
Hypothesis R_timers : forall v s, R s (set_advanceTimers v s).
Hypothesis R_users : forall v s, R s (set_users v s).
Hypothesis R_counts : forall v s, R s (set_selfServeUserCounts v s).
Hypothesis R_perf : forall name,
  steps R (updInstance name
             (fun i => set_pastHorizonPerfTime (pastHorizonPerfTime i + frameMillis)%Q i)).
Hypothesis R_suspend : forall name, steps R (updInstance name suspendInstance).
Hypothesis R_connect : forall now address origin,
  steps R (onSocketConnection now address origin).
Hypothesis R_disconnect : forall now cid, steps R (disconnectController now cid).
Hypothesis R_login : forall cr now cid message, steps R (onLoginMessage cr now cid message).
Hypothesis R_frame : forall now cid message, steps R (onFrameMessage now cid message).
Hypothesis R_command : forall now cid message, steps R (onCommandMessage now cid message).
Hypothesis R_advance : forall now name, steps R (advanceHorizonState now name).

Lemma top_emit outs : steps R (emit outs).
Proof. apply steps_modify. intros. apply R_trace. Qed.

Lemma top_setTimer now name wait : steps R (setTimer now name wait).
Proof.
  destruct wait; [|by apply steps_ret]. apply steps_modify. intros. apply R_timers.
Qed.

Ltac tleaf :=
  first [ apply steps_ret; assumption | apply steps_throw
        | apply steps_gets; assumption
        | apply steps_getController; assumption | apply steps_getInstance; assumption
        | apply steps_getPlayset; assumption
        | apply top_emit | apply top_setTimer
        | apply R_perf | apply R_suspend | apply R_connect
        | apply R_disconnect | apply R_login | apply R_frame | apply R_command
        | apply R_advance
        | apply steps_modify; intros;
          first [apply R_trace | apply R_timers | apply R_users | apply R_counts]
        | assumption ].

Ltac tgo :=
  repeat first
    [ tleaf
    | progress cbv zeta
    | match goal with
      | |- steps _ (bind _ _) => apply steps_bind; [assumption| |intros ?]
      | |- steps _ (if ?b then _ else _) => destruct b
      | |- steps _ (match ?x with _ => _ end) => destruct x
      end ].

Lemma top_controllerError now cid err : steps R (controllerError now cid err).
Proof. unfold controllerError. tgo. Qed.

Lemma top_controllerDone now cid err : steps R (controllerDone now cid err).
Proof. unfold controllerDone. tgo. Qed.

Lemma top_validateUsername now name cid : steps R (validateUsername now name cid).
Proof. unfold validateUsername. tgo; apply top_controllerError. Qed.

Lemma top_validatePassword now password cid :
  steps R (validatePassword now password cid).
Proof. unfold validatePassword. tgo; apply top_controllerError. Qed.

Lemma top_onCreateUserMessage cr salt now cid message :
  steps R (onCreateUserMessage cr salt now cid message).
Proof.
  unfold onCreateUserMessage. cbv zeta.
  apply steps_bind; [done|apply top_validateUsername|intros ok1].
  destruct ok1; [|tgo].
  apply steps_bind; [done|apply top_validatePassword|intros ok2].
  destruct ok2; [|tgo].
  apply steps_bind; [done|unfold validateUserConfigLength; tgo|intros ok3].
  destruct ok3; [|tgo].
  tgo; first [apply top_controllerError | apply top_controllerDone].
Qed.

Lemma top_onInboundMessage cr salt now cid message :
  steps R (onInboundMessage cr salt now cid message).
Proof.
  unfold onInboundMessage.
  repeat match goal with |- steps _ (if ?b then _ else _) => destruct b end; tgo;
    first [apply top_onCreateUserMessage | apply top_controllerError].
Qed.

Lemma top_dispatchAll cr salt now cid messages :
  steps R (dispatchAll cr salt now cid messages).
Proof.
  induction messages as [|m rest IH]; cbn [dispatchAll]; [tgo|].
  apply steps_bind; [done|tgo|intros c].
  destruct (negb (disconnected c)); [|tgo].
  destruct m as [message|]; [|apply top_controllerError].
  apply steps_bind; [done|apply top_onInboundMessage|intros _]. apply IH.
Qed.

Lemma top_onSocketMessage cr salt now cid e : steps R (onSocketMessage cr salt now cid e).
Proof.
  unfold onSocketMessage. apply steps_bind; [done|tgo|intros c].
  destruct (negb (disconnected c)); [|tgo].
  destruct e; first [apply top_controllerError | apply top_onInboundMessage
                    | apply top_dispatchAll].
Qed.

Lemma top_advanceWhile fuel now name t : steps R (advanceWhile fuel now name t).
Proof.
  revert t. induction fuel as [|fuel IH]; intros t; cbn [advanceWhile]; [tgo|].
  tgo. apply IH.
Qed.

Lemma top_onAdvanceTimeout now name : steps R (onAdvanceTimeout now name).
Proof. unfold onAdvanceTimeout. tgo. apply top_advanceWhile. Qed.

(** Every input. *)
Lemma top_handle cr now inp : steps R (handle cr now inp).
Proof.
  destruct inp as [address origin|cid e salt|cid|cid|cid|name due]; cbn [handle].
  - apply R_connect.
  - apply top_onSocketMessage.
  - unfold onSocketError. tgo. apply top_controllerError.
  - unfold onSocketClose. tgo.
  - apply top_controllerError.
  - tgo. apply top_onAdvanceTimeout.
Qed.

End Inputs.

(** *** The login *)

Section Login.
Context (R : relation Server) `{!PreOrder R}.
Hypothesis R_trace : forall v s, R s (set_trace v s).
Hypothesis R_inbox : forall v s, R s (set_inboxControllers v s).
Hypothesis R_mild : forall cid h, mild h -> steps R (updController cid h).
Hypothesis R_wake : forall now name, steps R (unsuspend now name).
Hypothesis R_disconnect : forall now cid, steps R (disconnectController now cid).
Hypothesis R_makeLive : forall now cid, steps R (makeControllerLive now cid).

Lemma login_onLoginMessage cr now cid message :
  steps R (onLoginMessage cr now cid message).
Proof.
  unfold onLoginMessage, abandonConnectionTimeout.
  repeat first
    [ apply steps_ret; assumption | apply steps_throw
    | apply steps_gets; assumption
    | apply steps_getController; assumption | apply steps_getInstance; assumption
    | apply steps_getPlayset; assumption
    | apply top_controllerError; assumption
    | apply R_mild; mild_tac | apply R_wake | apply R_makeLive
    | apply steps_modify; intros; first [apply R_trace | apply R_inbox]
    | progress cbv zeta
    | match goal with
      | |- steps _ (bind _ _) => apply steps_bind; [assumption| |intros ?]
      | |- steps _ (if ?b then _ else _) => destruct b
      | |- steps _ (match ?x with _ => _ end) => destruct x
      end ].
Qed.

End Login.

(** *** From the updates to the blocks *)

Section Blocks.
(** [R] relates a state to every state reached from it by mild updates of
    controller objects, by updates of the controller tables and of the
    trace, and by gentle updates of instances. *)
Context (R : relation Server) `{!PreOrder R}.
Hypothesis R_trace : forall v s, R s (set_trace v s).
Hypothesis R_controllers : forall v s, R s (set_controllers v s).
Hypothesis R_inbox : forall v s, R s (set_inboxControllers v s).
Hypothesis R_live : forall v s, R s (set_liveControllers v s).
Hypothesis R_outbox : forall v s, R s (set_outboxControllers v s).
Hypothesis R_mild : forall cid h, mild h -> steps R (updController cid h).
Hypothesis R_gentle : forall name h, gentle h -> steps R (updInstance name h).

Lemma steps_emit outs : steps R (emit outs).
Proof. apply steps_modify. intros. apply R_trace. Qed.

Ltac kleaf :=
  first [ apply steps_ret; assumption | apply steps_throw
        | apply steps_gets; assumption
        | apply steps_getController; assumption | apply steps_getInstance; assumption
        | apply steps_getPlayset; assumption
        | apply steps_emit
        | apply R_mild; mild_tac
        | apply R_gentle; gentle_tac
        | apply steps_modify; intros;
          first [apply R_trace | apply R_controllers
                | apply R_inbox | apply R_live | apply R_outbox]
        | assumption ].

Ltac kgo :=
  repeat first
    [ kleaf
    | progress cbv zeta
    | match goal with
      | |- steps _ (bind _ _) => apply steps_bind; [assumption| |intros ?]
      | |- steps _ (if ?b then _ else _) => destruct b
      | |- steps _ (match ?x with _ => _ end) => destruct x
      end ].

Lemma steps_broadcastEventToInstance now name event t :
  steps R (broadcastEventToInstance now name event t).
Proof. unfold broadcastEventToInstance. kgo. Qed.

Lemma steps_storeAndEchoInstanceEvent now name event t :
  steps R (storeAndEchoInstanceEvent now name event t).
Proof. unfold storeAndEchoInstanceEvent. kgo. Qed.

Lemma steps_subscribe cid : steps R (subscribeControllerToBroadcasts cid).
Proof. unfold subscribeControllerToBroadcasts. kgo. Qed.

Lemma steps_unsubscribe cid : steps R (unsubscribeControllerFromBroadcasts cid).
Proof. unfold unsubscribeControllerFromBroadcasts. kgo. Qed.

Lemma steps_sendInstanceSnapshot cid : steps R (sendInstanceSnapshot cid).
Proof. unfold sendInstanceSnapshot. kgo. Qed.

Ltac kcall :=
  first [ kleaf
        | apply steps_broadcastEventToInstance | apply steps_storeAndEchoInstanceEvent
        | apply steps_subscribe
        | apply steps_unsubscribe | apply steps_sendInstanceSnapshot ].

Ltac kall :=
  repeat first
    [ kcall
    | progress cbv zeta
    | match goal with
      | |- steps _ (bind _ _) => apply steps_bind; [assumption| |intros ?]
      | |- steps _ (if ?b then _ else _) => destruct b
      | |- steps _ (match ?x with _ => _ end) => destruct x
      end ].

Lemma steps_makeControllerLive now cid : steps R (makeControllerLive now cid).
Proof. unfold makeControllerLive, resetConnectionTimeout. kall. Qed.

Lemma steps_disconnectController now cid : steps R (disconnectController now cid).
Proof. unfold disconnectController, abandonConnectionTimeout. kall. Qed.

Lemma steps_controllerError now cid err : steps R (controllerError now cid err).
Proof. unfold controllerError. kall. apply steps_disconnectController. Qed.

Lemma steps_controllerDone now cid err : steps R (controllerDone now cid err).
Proof. unfold controllerDone. kall. apply steps_disconnectController. Qed.

Lemma steps_validate now cid message :
  steps R (validateFrameOrCommandMessage now cid message).
Proof. unfold validateFrameOrCommandMessage. kall; apply steps_controllerError. Qed.

Lemma steps_onFrameMessage now cid message : steps R (onFrameMessage now cid message).
Proof.
  unfold onFrameMessage, resetConnectionTimeout.
  apply steps_bind; [done|apply steps_validate|intros valid].
  kall. apply steps_controllerError.
Qed.

Lemma steps_onCommandMessage now cid message : steps R (onCommandMessage now cid message).
Proof.
  unfold onCommandMessage, resetConnectionTimeout.
  apply steps_bind; [done|apply steps_validate|intros valid].
  kall; apply steps_controllerError.
Qed.

Lemma steps_partitionEvents name evs acc : steps R (partitionEvents name evs acc).
Proof.
  revert acc. induction evs as [|e rest IH]; intros acc; cbn [partitionEvents]; [kall|].
  destruct (ev_k e); kall; apply IH.
Qed.

Lemma steps_disconnectLoop now name ds : steps R (disconnectLoop now name ds).
Proof.
  induction ds as [|d rest IH]; cbn [disconnectLoop]; [kall|].
  kall; first [apply steps_makeControllerLive | apply IH].
Qed.

Lemma steps_prepareAdvance name : steps R (prepareAdvance name).
Proof. unfold prepareAdvance. kall. apply steps_partitionEvents. Qed.

(** The advance itself also moves the frame number. *)
Hypothesis R_tick : forall name,
  steps R (updInstance name
             (fun i => set_pastHorizonFrameNumber (pastHorizonFrameNumber i + 1) i)).

Lemma steps_advanceHorizonState now name : steps R (advanceHorizonState now name).
Proof.
  unfold advanceHorizonState.
  apply steps_bind; [done|apply steps_prepareAdvance|intros call].
  apply steps_bind; [done|kall|intros instance].
  apply steps_bind; [done|kall|intros p].
  apply steps_bind; [done|kall|intros _].
  apply steps_bind; [done|apply steps_disconnectLoop|intros _].
  apply steps_bind; [done|apply R_tick|intros _].
  apply steps_bind; [done|kall|intros instance'].
  apply steps_bind; [done|kall|intros conf].
  cbv zeta.
  match goal with |- steps _ (match ?m with _ => _ end) => destruct m end; kall.
Qed.

End Blocks.

(** A part of the state that the instances and the timers are no part of is
    kept by every update of an instance and by waking one; one that the
    controller objects are no part of, by every update of one. *)
Lemma any_updInstance {B : Type} (f : Server -> B) name h :
  (forall v s, f (set_instances v s) = f s) -> keeps f (updInstance name h).
Proof.
  intros Hf. unfold updInstance.
  apply steps_bind; [apply _|apply steps_getInstance; apply _|intros c].
  apply keeps_modify. intros. apply Hf.
Qed.

Lemma any_updController {B : Type} (f : Server -> B) cid h :
  (forall v s, f (set_store v s) = f s) -> keeps f (updController cid h).
Proof.
  intros Hf. unfold updController.
  apply steps_bind; [apply _|apply steps_getController; apply _|intros c].
  apply keeps_modify. intros. apply Hf.
Qed.

Lemma any_unsuspend {B : Type} (f : Server -> B) now name :
  (forall v s, f (set_instances v s) = f s) ->
  (forall v s, f (set_advanceTimers v s) = f s) ->
  keeps f (unsuspend now name).
Proof.
  intros Hf Ht. unfold unsuspend.
  apply steps_bind; [apply _|apply steps_getInstance; apply _|intros i]. cbv zeta.
  apply steps_bind; [apply _|by apply any_updInstance|intros _].
  unfold setTimer. destruct (snd (unsuspendInstance now i)); [|apply steps_ret; apply _].
  apply keeps_modify. intros. apply Ht.
Qed.

Ltac by_frame :=
  try apply _;
  solve [ done | intros; reflexivity
        | intros; by apply any_updInstance | intros; by apply any_updController
        | intros; by apply any_unsuspend ].

(** *** The loops of the advance *)

Ltac calm_tac := intros ?i; reflexivity.

Section Loops.
Context (R : relation Server) `{!PreOrder R}.
Hypothesis R_controllers : forall v s, R s (set_controllers v s).
Hypothesis R_inbox : forall v s, R s (set_inboxControllers v s).
Hypothesis R_outbox : forall v s, R s (set_outboxControllers v s).
Hypothesis R_calm : forall name h, calm h -> steps R (updInstance name h).
Hypothesis R_makeLive : forall now cid, steps R (makeControllerLive now cid).

Ltac lleaf :=
  first [ apply steps_ret; assumption | apply steps_throw
        | apply steps_gets; assumption
        | apply steps_getController; assumption | apply steps_getInstance; assumption
        | apply steps_getPlayset; assumption
        | apply R_calm; calm_tac
        | apply R_makeLive
        | apply steps_modify; intros;
          first [apply R_controllers | apply R_inbox | apply R_outbox]
        | assumption ].

Ltac lgo :=
  repeat first
    [ lleaf
    | progress cbv zeta
    | match goal with
      | |- steps _ (bind _ _) => apply steps_bind; [assumption| |intros ?]
      | |- steps _ (if ?b then _ else _) => destruct b
      | |- steps _ (match ?x with _ => _ end) => destruct x
      end ].

Lemma loop_partitionEvents name evs acc : steps R (partitionEvents name evs acc).
Proof.
  revert acc. induction evs as [|e rest IH]; intros acc; cbn [partitionEvents]; [lgo|].
  destruct (ev_k e); lgo; apply IH.
Qed.

Lemma loop_disconnectLoop now name ds : steps R (disconnectLoop now name ds).
Proof.
  induction ds as [|d rest IH]; cbn [disconnectLoop]; [lgo|].
  lgo; apply IH.
Qed.

End Loops.

(** ** A disconnected controller *)

(** The two ways [disconnectController] returns. *)
Lemma disconnectController_cases now cid s s' :
  disconnectController now cid s = Ok tt s' ->
  exists c, store s !! cid = Some c
    /\ ((lifecycle c = LLive
         /\ exists inst, instances s !! instanceName c = Some inst
                         /\ s' = leftOutbox now cid c inst s)
        \/ (lifecycle c <> LLive /\ s' = leftAlone cid c s)).
Proof.
  intros Hrun. destruct (store s !! cid) as [c|] eqn:Hc.
  - exists c. split; [done|].
    assert (lifecycle c = LLive \/ lifecycle c <> LLive) as [Hlive|Hlive]
      by (destruct (lifecycle c); auto; right; discriminate).
    + left. split; [done|].
      destruct (instances s !! instanceName c) as [inst|] eqn:Hi.
      * exists inst. split; [done|].
        rewrite (disconnectController_live _ _ _ _ _ Hc Hlive Hi) in Hrun. congruence.
      * exfalso. revert Hrun. unfold disconnectController.
        mstep. rewrite Hlive. sred. mstep. mnorm.
        erewrite bind_Throw; [done|]. apply getInstance_None. by sred.
    + right. split; [done|].
      rewrite (disconnectController_not_live _ _ _ _ Hc Hlive) in Hrun. congruence.
  - exfalso. revert Hrun. unfold disconnectController.
    erewrite bind_Throw; [done|]. by apply getController_None.
Qed.

Lemma disconnectController_flags now cid s s' :
  disconnectController now cid s = Ok tt s' ->
  exists c', store s' !! cid = Some c' /\ disconnected c' = true /\ lifecycle c' <> LLive
             /\ timeoutAt c' = None.
Proof.
  intros (c & Hc & [(Hlive & inst & Hi & ->)|(Hlive & ->)])%disconnectController_cases.
  - eexists. unfold leftOutbox. sred. look. split; [reflexivity|]. by unfold outboxed.
  - eexists. unfold leftAlone. sred. look. split; [reflexivity|]. by sred.
Qed.

(** X11.  Once [disconnectController] has returned for a controller, the
    controller is flagged as disconnected, is not LIVE and has no connection
    timeout pending, and whatever its socket delivers afterwards (a message,
    an error, a close) is ignored: the handlers return with the state
    untouched. *)
Theorem disconnected_socket_is_ignored now cid s s' :
  disconnectController now cid s = Ok tt s' ->
  (exists c', store s' !! cid = Some c' /\ disconnected c' = true /\ lifecycle c' <> LLive
              /\ timeoutAt c' = None)
  /\ forall cr salt later e,
       onSocketMessage cr salt later cid e s' = Ok tt s'
       /\ onSocketError later cid s' = Ok tt s'
       /\ onSocketClose later cid s' = Ok tt s'.
Proof.
  intros Hrun. destruct (disconnectController_flags _ _ _ _ Hrun) as (c' & Hc' & Hd & Hl & Ht).
  split; [by exists c'|]. intros cr salt later e.
  unfold onSocketMessage, onSocketError, onSocketClose.
  rewrite !(bind_Ok _ _ _ _ _ (getController_Ok _ _ _ Hc')), Hd. done.
Qed.

Lemma disconnected_socket_is_ignored_witness :
  (exists c', store (finalState (disconnectController 1000 2 oneSocket)) !! 2 = Some c'
              /\ disconnected c' = true /\ lifecycle c' <> LLive /\ timeoutAt c' = None)
  /\ forall cr salt later e,
       onSocketMessage cr salt later 2 e (finalState (disconnectController 1000 2 oneSocket))
       = Ok tt (finalState (disconnectController 1000 2 oneSocket))
       /\ onSocketError later 2 (finalState (disconnectController 1000 2 oneSocket))
          = Ok tt (finalState (disconnectController 1000 2 oneSocket))
       /\ onSocketClose later 2 (finalState (disconnectController 1000 2 oneSocket))
          = Ok tt (finalState (disconnectController 1000 2 oneSocket)).
Proof.
  apply (disconnected_socket_is_ignored 1000 2 oneSocket).
  vm_compute. reflexivity.
Defined.

(** ** Password hashes *)

Lemma append_cons (b : ascii) (s t : string) : String b s +:+ t = String b (s +:+ t).
Proof. reflexivity. Qed.

Lemma index_of_separator (salt rest : string) :
  String.index 0 "#" salt = None ->
  String.index 0 "#" (salt +:+ "#" +:+ rest) = Some (String.length salt).
Proof.
  induction salt as [|b salt IH]; intros Hsalt.
  - change ("" +:+ "#" +:+ rest)%string with (String "#" rest).
    cbn -[ascii_dec]. destruct (ascii_dec "#" "#"); [|done].
    by destruct rest.
  - rewrite append_cons. cbn -[ascii_dec] in Hsalt |- *.
    destruct (ascii_dec "#" b) as [Hb|Hb].
    + by destruct salt.
    + destruct (String.index 0 "#" salt) eqn:Hi; [done|].
      by rewrite IH.
Qed.

Lemma substring_of_append (salt rest : string) :
  String.substring 0 (String.length salt) (salt +:+ rest) = salt.
Proof.
  induction salt as [|b salt IH].
  - change ("" +:+ rest)%string with rest. by destruct rest.
  - rewrite append_cons. simpl. by rewrite IH.
Qed.

Lemma saltOf_makePasswordHash cr salt password :
  String.index 0 "#" salt = None ->
  saltOf (makePasswordHash cr salt password) = salt.
Proof.
  intros Hsalt. unfold saltOf, makePasswordHash.
  rewrite index_of_separator by done. apply substring_of_append.
Qed.

Lemma append_cancel (a b c : string) : a +:+ b = a +:+ c -> b = c.
Proof.
  induction a as [|ch a IH]; [done|].
  rewrite !append_cons. intros [= H]. by apply IH.
Qed.

(** X1.  A hash made by [makePasswordHash] with a salt that holds no "#" (the
    salt is eight hexadecimal digits) is matched by
    [doesPasswordMatchHash] exactly for the passwords whose salted digest is
    the digest of the password the hash was made for; in particular it is
    matched by that password. *)
Theorem password_hash_round_trip (cr : Crypto) (salt password tried : string) :
  String.index 0 "#" salt = None ->
  doesPasswordMatchHash cr password (makePasswordHash cr salt password) = true
  /\ (doesPasswordMatchHash cr tried (makePasswordHash cr salt password) = true
      <-> sha256hex cr (salt +:+ tried) = sha256hex cr (salt +:+ password)).
Proof.
  intros Hsalt.
  assert (forall p, doesPasswordMatchHash cr p (makePasswordHash cr salt password) = true
                    <-> sha256hex cr (salt +:+ p) = sha256hex cr (salt +:+ password)) as H.
  { intros p. unfold doesPasswordMatchHash.
    rewrite saltOf_makePasswordHash by done. unfold makePasswordHash.
    rewrite String.eqb_eq. split.
    - intros Heq. apply append_cancel in Heq. apply append_cancel in Heq. done.
    - by intros ->. }
  split; [by apply H|apply H].
Qed.

Lemma password_hash_round_trip_witness :
  doesPasswordMatchHash toyCrypto "pw" (makePasswordHash toyCrypto "ab12cd34" "pw") = true
  /\ (doesPasswordMatchHash toyCrypto "px" (makePasswordHash toyCrypto "ab12cd34" "pw") = true
      <-> sha256hex toyCrypto ("ab12cd34" +:+ "px") = sha256hex toyCrypto ("ab12cd34" +:+ "pw")).
Proof. apply (password_hash_round_trip toyCrypto "ab12cd34" "pw" "px"). reflexivity. Defined.

(** ** User names and self-serve creation *)

Lemma usernameCharacters_rest (chars : list ascii) :
  usernameCharacters false chars = None <-> forallb isAlphanumeric chars = true.
Proof.
  induction chars as [|ch rest IH]; [done|].
  cbn [usernameCharacters forallb]. unfold isAlphanumeric at 1. cbv zeta.
  destruct (Z.ltb_spec (charCode ch) 65), (Z.gtb_spec (charCode ch) 90),
    (Z.ltb_spec (charCode ch) 97), (Z.gtb_spec (charCode ch) 122),
    (Z.ltb_spec (charCode ch) 48), (Z.gtb_spec (charCode ch) 57),
    (Z.leb_spec 65 (charCode ch)), (Z.leb_spec (charCode ch) 90),
    (Z.leb_spec 97 (charCode ch)), (Z.leb_spec (charCode ch) 122),
    (Z.leb_spec 48 (charCode ch)), (Z.leb_spec (charCode ch) 57);
    try lia; cbn [andb orb negb]; try done.
Qed.

Lemma usernameCharacters_first (chars : list ascii) :
  usernameCharacters true chars = None
  <-> forallb isAlphanumeric chars = true
      /\ match chars with ch :: _ => negb (isDigit ch) | [] => true end = true.
Proof.
  destruct chars as [|ch rest]; [done|].
  cbn [usernameCharacters forallb]. unfold isAlphanumeric at 1, isDigit. cbv zeta.
  pose proof (usernameCharacters_rest rest) as Hrest.
  destruct (Z.ltb_spec (charCode ch) 65), (Z.gtb_spec (charCode ch) 90),
    (Z.ltb_spec (charCode ch) 97), (Z.gtb_spec (charCode ch) 122),
    (Z.ltb_spec (charCode ch) 48), (Z.gtb_spec (charCode ch) 57),
    (Z.leb_spec 65 (charCode ch)), (Z.leb_spec (charCode ch) 90),
    (Z.leb_spec 97 (charCode ch)), (Z.leb_spec (charCode ch) 122),
    (Z.leb_spec 48 (charCode ch)), (Z.leb_spec (charCode ch) 57),
    (Z.geb_spec (charCode ch) 48);
    try lia; cbn [andb orb negb]; try tauto; try (split; [done|intros [? ?]; done]).
Qed.

Lemma validateUsername_run now (name : string) cid s :
  if acceptableUsername name
  then validateUsername now name cid s = Ok true s
  else exists err,
         validateUsername now name cid s = (controllerError now cid err;; ret false) s.
Proof.
  unfold acceptableUsername, validateUsername.
  destruct (Z.ltb_spec (strlen name) MIN_USERNAME_LENGTH) as [Hmin|Hmin].
  { destruct (Z.leb_spec MIN_USERNAME_LENGTH (strlen name)); [lia|]. by eexists. }
  destruct (Z.leb_spec MIN_USERNAME_LENGTH (strlen name)); [|lia].
  destruct (Z.gtb_spec (strlen name) MAX_USERNAME_LENGTH) as [Hmax|Hmax].
  { destruct (Z.leb_spec (strlen name) MAX_USERNAME_LENGTH); [lia|]. by eexists. }
  destruct (Z.leb_spec (strlen name) MAX_USERNAME_LENGTH); [|lia].
  cbn [andb].
  pose proof (usernameCharacters_first (list_ascii_of_string name)) as Hchars.
  destruct (usernameCharacters true (list_ascii_of_string name)) as [err|].
  - destruct (forallb isAlphanumeric (list_ascii_of_string name)); cbn [andb];
      [|by eexists].
    destruct (match list_ascii_of_string name with
              | ch :: _ => negb (isDigit ch) | [] => true end); [|by eexists].
    by destruct Hchars as [_ Hc]; specialize (Hc (conj eq_refl eq_refl)).
  - destruct Hchars as [Hc _]. destruct (Hc eq_refl) as [-> ->]. done.
Qed.

Lemma validatePassword_run now (password : option string) cid s :
  if acceptablePassword password
  then validatePassword now password cid s = Ok true s
  else exists err,
         validatePassword now password cid s = (controllerError now cid err;; ret false) s.
Proof.
  unfold acceptablePassword, validatePassword.
  destruct password as [p|]; [|by eexists].
  destruct (Z.ltb_spec (strlen p) MIN_PASSWORD_LENGTH) as [Hmin|Hmin].
  { destruct (Z.leb_spec MIN_PASSWORD_LENGTH (strlen p)); [lia|]. by eexists. }
  destruct (Z.leb_spec MIN_PASSWORD_LENGTH (strlen p)); [|lia].
  destruct (Z.gtb_spec (strlen p) MAX_PASSWORD_LENGTH) as [Hmax|Hmax].
  { destruct (Z.leb_spec (strlen p) MAX_PASSWORD_LENGTH); [lia|]. by eexists. }
  destruct (Z.leb_spec (strlen p) MAX_PASSWORD_LENGTH); [|lia]. done.
Qed.

(** X2.  [validateUsername] lets a name through, touching nothing, when the
    name has 3 to 16 characters, all of them ASCII letters or digits, and
    does not start with a digit; for every other name it raises an error on
    the controller and answers false, so that it never answers true for
    such a name. *)
Theorem validateUsername_accepts now (name : string) cid s :
  if acceptableUsername name
  then validateUsername now name cid s = Ok true s
  else (exists err,
           validateUsername now name cid s = (controllerError now cid err;; ret false) s)
       /\ forall s', validateUsername now name cid s <> Ok true s'.
Proof.
  pose proof (validateUsername_run now name cid s) as H.
  destruct (acceptableUsername name); [done|].
  split; [done|]. destruct H as [err ->]. intros s'.
  unfold bind. by destruct (controllerError now cid err s).
Qed.

(** The accounts are not touched by an error on a controller. *)
Lemma users_kept_by_controllerError now cid err : keeps users (controllerError now cid err).
Proof. apply steps_controllerError; by_frame. Qed.

Lemma users_kept_by_controllerDone now cid err : keeps users (controllerDone now cid err).
Proof. apply steps_controllerDone; by_frame. Qed.

Lemma refusal_keeps_users now cid err (b : bool) s s' :
  (controllerError now cid err;; ret false) s = Ok b s' -> b = false /\ users s' = users s.
Proof.
  intros Hrun. apply bind_Ok_inv in Hrun as ([] & s1 & Herr & [= <- <-]).
  split; [done|]. by apply (keeps_Ok users _ _ _ _ (users_kept_by_controllerError _ _ _)) in Herr.
Qed.

Lemma optional_error_keeps_users now cid err (b : bool) s s' :
  (when b then controllerError now cid err) s = Ok tt s' -> users s' = users s.
Proof.
  destruct b; [|by intros [= <-]].
  apply (keeps_Ok users), users_kept_by_controllerError.
Qed.

(** X3.  When [onCreateUserMessage] returns, either the users table is what
    it was, or exactly one record has been written: under the name asked
    for (the text "undefined" when the message has no "u"), which
    [validateUsername] accepts, with a password of 3 to 64 characters hashed
    with the fresh salt, a configuration of at most 10000 characters, no
    administrator rights, and the address of the caller. *)
Theorem created_users_are_valid cr salt now cid message s s' :
  onCreateUserMessage cr salt now cid message s = Ok tt s' ->
  users s' = users s
  \/ exists name password conf c,
       name = stringOrUndefined (m_u message) /\ m_p message = Some password
       /\ acceptableUsername name = true /\ acceptablePassword (Some password) = true
       /\ strlen conf <= MAX_USER_CONFIG_LENGTH
       /\ store s !! cid = Some c
       /\ users s' = <[name := mkUser name (makePasswordHash cr salt password) conf false
                                (Some (remoteAddress c))]> (users s).
Proof.
  unfold onCreateUserMessage. cbv zeta. intros Hrun.
  apply bind_Ok_inv in Hrun as (ok & s1 & Hname & Hrun).
  pose proof (validateUsername_run now (stringOrUndefined (m_u message)) cid s) as Hn.
  destruct (acceptableUsername (stringOrUndefined (m_u message))) eqn:Hacc.
  2:{ destruct Hn as [err Hn]. rewrite Hn in Hname.
      apply refusal_keeps_users in Hname as [-> Hu]. left.
      revert Hrun. intros [= <-]. done. }
  rewrite Hn in Hname. revert Hname. intros [= <- <-].
  apply bind_Ok_inv in Hrun as (ok & s1 & Hpw & Hrun).
  pose proof (validatePassword_run now (m_p message) cid s) as Hp.
  destruct (acceptablePassword (m_p message)) eqn:Haccp.
  2:{ destruct Hp as [err Hp]. rewrite Hp in Hpw.
      apply refusal_keeps_users in Hpw as [-> Hu]. left.
      revert Hrun. intros [= <-]. done. }
  rewrite Hp in Hpw. revert Hpw. intros [= <- <-].
  apply bind_Ok_inv in Hrun as (ok & s1 & Hconf & Hrun).
  unfold validateUserConfigLength in Hconf.
  match type of Hconf with context [strlen ?c >? _] => set (conf := c) in * end.
  destruct (Z.gtb_spec (strlen conf) MAX_USER_CONFIG_LENGTH) as [|Hlen]; [done|].
  revert Hconf. intros [= <- <-].
  apply bind_Ok_inv in Hrun as (c & s1 & Hc & Hrun).
  unfold getController in Hc. destruct (store s !! cid) as [c0|] eqn:Hstore; [|done].
  revert Hc. intros [= <- <-].
  rewrite bind_gets, bind_gets in Hrun.
  apply bind_Ok_inv in Hrun as ([] & s1 & Hauth & Hrun).
  apply optional_error_keeps_users in Hauth.
  rewrite bind_gets in Hrun.
  apply bind_Ok_inv in Hrun as ([] & s2 & Htaken & Hrun).
  apply optional_error_keeps_users in Htaken.
  rewrite bind_modify, bind_modify in Hrun.
  apply (keeps_Ok users _ _ _ _ (users_kept_by_controllerDone _ _ _)) in Hrun.
  right. destruct (m_p message) as [password|] eqn:Hpassword; [|done].
  exists (stringOrUndefined (m_u message)), password, conf, c0.
  do 6 (split; [done|]). rewrite Hrun. cbn. by rewrite Htaken, Hauth.
Qed.

Lemma created_users_are_valid_witness :
  users (finalState (onCreateUserMessage toyCrypto "cd" 1000 2
                       (createUserMessage "carol" "secret") oneSocket))
  = users oneSocket
  \/ exists name password conf c,
       name = stringOrUndefined (m_u (createUserMessage "carol" "secret"))
       /\ m_p (createUserMessage "carol" "secret") = Some password
       /\ acceptableUsername name = true /\ acceptablePassword (Some password) = true
       /\ strlen conf <= MAX_USER_CONFIG_LENGTH
       /\ store oneSocket !! 2 = Some c
       /\ users (finalState (onCreateUserMessage toyCrypto "cd" 1000 2
                               (createUserMessage "carol" "secret") oneSocket))
          = <[name := mkUser name (makePasswordHash toyCrypto "cd" password) conf
                        false (Some (remoteAddress c))]> (users oneSocket).
Proof.
  apply (created_users_are_valid toyCrypto "cd" 1000 2 (createUserMessage "carol" "secret")
           oneSocket).
  vm_compute. reflexivity.
Defined.

(** ** Who changes the accounts *)

Lemma accounts_kept_by_disconnectController now cid :
  keeps accounts (disconnectController now cid).
Proof. apply steps_disconnectController; by_frame. Qed.

Lemma accounts_kept_by_makeControllerLive now cid :
  keeps accounts (makeControllerLive now cid).
Proof. apply steps_makeControllerLive; by_frame. Qed.

Lemma accounts_kept_by_controllerError now cid err :
  keeps accounts (controllerError now cid err).
Proof. apply steps_controllerError; by_frame. Qed.

Lemma accounts_kept_by_onLoginMessage cr now cid message :
  keeps accounts (onLoginMessage cr now cid message).
Proof.
  apply login_onLoginMessage;
    first [ apply accounts_kept_by_disconnectController
          | apply accounts_kept_by_makeControllerLive | by_frame ].
Qed.

Lemma accounts_kept_by_onAdvanceTimeout now name :
  keeps accounts (onAdvanceTimeout now name).
Proof.
  apply top_onAdvanceTimeout; try by_frame.
  intros. apply steps_advanceHorizonState; by_frame.
Qed.

Lemma accounts_kept_by_onSocketConnection now address origin :
  keeps accounts (onSocketConnection now address origin).
Proof.
  unfold onSocketConnection. steps_walk. unfold resetConnectionTimeout.
  by apply any_updController.
Qed.

Lemma accounts_kept_by_onInboundMessage cr salt now cid message :
  asksForUser (Some message) = false ->
  keeps accounts (onInboundMessage cr salt now cid message).
Proof.
  cbn [asksForUser]. intros Hk. unfold onInboundMessage. rewrite Hk.
  repeat match goal with |- keeps _ (if ?b then _ else _) => destruct b end.
  - apply steps_onFrameMessage; by_frame.
  - apply steps_onCommandMessage; by_frame.
  - apply accounts_kept_by_onLoginMessage.
  - apply accounts_kept_by_controllerError.
Qed.

Lemma accounts_kept_by_dispatchAll cr salt now cid messages :
  existsb asksForUser messages = false ->
  keeps accounts (dispatchAll cr salt now cid messages).
Proof.
  induction messages as [|m rest IH]; cbn [dispatchAll existsb]; [intros _; steps_walk|].
  intros [Hm Hrest]%orb_false_elim.
  apply steps_bind; [apply _|steps_walk|intros c].
  destruct (negb (disconnected c)); [|steps_walk].
  destruct m as [message|]; [|apply accounts_kept_by_controllerError].
  apply steps_bind; [apply _|by apply accounts_kept_by_onInboundMessage|intros _].
  by apply IH.
Qed.

(** X4.  Among the inputs whose handlers are embedded here (a connection, a
    message of kind "f", "o", "l", "selfServeCreateUser" or of an unknown
    kind, a socket error or close, a connection timeout, an advance of the
    horizon), the users table and the self-serve counts are changed by
    "selfServeCreateUser" messages only: when the handler of any other such
    input returns, both are what they were. *)
Theorem accounts_change_only_on_create cr now inp s s' :
  enabled now inp s = true ->
  createsUser inp = false ->
  handle cr now inp s = Ok tt s' ->
  users s' = users s /\ selfServeUserCounts s' = selfServeUserCounts s.
Proof.
  intros _ Hinp Hrun.
  assert (keeps accounts (handle cr now inp)) as H.
  { destruct inp as [address origin|cid e salt|cid|cid|cid|name due]; cbn [handle].
    - apply accounts_kept_by_onSocketConnection.
    - unfold onSocketMessage. apply steps_bind; [apply _|steps_walk|intros c].
      destruct (negb (disconnected c)); [|steps_walk].
      destruct e as [| |message|messages].
      + apply accounts_kept_by_controllerError.
      + apply accounts_kept_by_controllerError.
      + by apply accounts_kept_by_onInboundMessage.
      + by apply accounts_kept_by_dispatchAll.
    - unfold onSocketError. steps_walk. apply accounts_kept_by_controllerError.
    - unfold onSocketClose. steps_walk. apply accounts_kept_by_disconnectController.
    - apply accounts_kept_by_controllerError.
    - apply steps_bind; [apply _|steps_walk|intros _].
      apply accounts_kept_by_onAdvanceTimeout. }
  apply (keeps_Ok accounts _ _ _ _ H) in Hrun. unfold accounts in Hrun.
  by injection Hrun.
Qed.

Lemma accounts_change_only_on_create_witness :
  users (finalState (handle toyCrypto 1000
                       (SocketMessage 2 (One (loginMessage "alice")) "") oneSocket))
  = users oneSocket
  /\ selfServeUserCounts
       (finalState (handle toyCrypto 1000
                      (SocketMessage 2 (One (loginMessage "alice")) "") oneSocket))
     = selfServeUserCounts oneSocket.
Proof.
  apply (accounts_change_only_on_create toyCrypto 1000
           (SocketMessage 2 (One (loginMessage "alice")) "") oneSocket).
  - vm_compute. reflexivity.
  - reflexivity.
  - vm_compute. reflexivity.
Defined.

(** ** Account calls *)

Lemma matches_own_hash cr salt password :
  String.index 0 "#" salt = None ->
  doesPasswordMatchHash cr password (makePasswordHash cr salt password) = true.
Proof.
  intros Hsalt. unfold doesPasswordMatchHash.
  rewrite saltOf_makePasswordHash by done. apply String.eqb_refl.
Qed.

Lemma knownUser_Some cr message us user :
  knownUser cr message us = Some user ->
  us !! stringOrUndefined (m_u message) = Some user
  /\ doesPasswordMatchHash cr (stringOrUndefined (m_p message)) (u_password user) = true.
Proof.
  unfold knownUser. destruct (us !! _) as [u|]; [|done].
  destruct (doesPasswordMatchHash _ _ _) eqn:H; [|done]. by intros [= <-].
Qed.

Lemma leftAlone_trace cid c s : trace (leftAlone cid c s) = trace s.
Proof.
  unfold leftAlone.
  destruct (bool_decide (controllerId c ∈ controllers s) && negb (isOutbox (lifecycle c)));
    [destruct (isInbox (lifecycle c))|]; done.
Qed.

Lemma eventSends_relay now inst event stamp :
  forallb isRelay (eventSends now inst event stamp) = true.
Proof.
  unfold eventSends. induction (ascending (broadcastControllers inst)) as [|i l IH]; [done|].
  cbn [map forallb]. rewrite IH. by destruct (stamp && (toInt32 i =? ev_c event)).
Qed.

(** What a controller that is turned away is sent: the reply, the close,
    and nothing else; the others are relayed its departure. *)
Lemma disconnectController_trace now cid s s' :
  disconnectController now cid s = Ok tt s' ->
  exists rest, trace s' = trace s ++ rest /\ forallb isRelay rest = true.
Proof.
  intros (c & Hc & [(Hlive & inst & Hi & ->)|(Hlive & ->)])%disconnectController_cases.
  - eexists. unfold leftOutbox. sred. split; [reflexivity|]. apply eventSends_relay.
  - exists []. rewrite leftAlone_trace. by rewrite app_nil_r.
Qed.

Lemma controllerDone_trace now cid text s s' :
  controllerDone now cid text s = Ok tt s' ->
  exists rest, trace s' = trace s ++ Send cid (MsgD text) :: Close cid :: rest
               /\ forallb isRelay rest = true.
Proof.
  unfold controllerDone. mnorm.
  intros (rest & -> & Hrest)%disconnectController_trace. exists rest. sred.
  split; [|done]. by rewrite <- ?app_assoc.
Qed.


(** X18.  "changeMyPassword" cannot change a password: the handler takes the
    wanted password and the current one from the same field of the message.
    When it returns, every account is still there with its name,
    configuration, rights and address, and its password hash is either what
    it was, or, for the account the message names, a fresh hash of the
    password that matched the old one, which it still matches. *)
Theorem changeMyPassword_keeps_the_password cr salt now cid message s s' n user :
  String.index 0 "#" salt = None ->
  onChangePasswordMessage cr salt now cid message s = Ok tt s' ->
  users s !! n = Some user ->
  exists user',
    users s' !! n = Some user'
    /\ (u_username user', u_config user', u_admin user', u_selfServeAddress user')
       = (u_username user, u_config user, u_admin user, u_selfServeAddress user)
    /\ (u_password user' = u_password user
        \/ (n = stringOrUndefined (m_u message)
            /\ doesPasswordMatchHash cr (stringOrUndefined (m_p message)) (u_password user)
               = true
            /\ u_password user'
               = makePasswordHash cr salt (stringOrUndefined (m_p message))
            /\ doesPasswordMatchHash cr (stringOrUndefined (m_p message)) (u_password user')
               = true)).
Proof.
  intros Hsalt Hrun Hn. unfold onChangePasswordMessage in Hrun. cbv zeta in Hrun.
  apply bind_Ok_inv in Hrun as (ok & s1 & Hpw & Hrun).
  pose proof (validatePassword_run now (Some (stringOrUndefined (m_p message))) cid s) as Hp.
  destruct (acceptablePassword (Some (stringOrUndefined (m_p message)))).
  2:{ destruct Hp as [err Hp]. rewrite Hp in Hpw.
      apply refusal_keeps_users in Hpw as [-> Hu]. revert Hrun. intros [= <-].
      exists user. rewrite Hu. auto. }
  rewrite Hp in Hpw. revert Hpw. intros [= <- <-]. rewrite bind_gets in Hrun.
  destruct (knownUser cr message (users s)) as [known|] eqn:Hknown.
  2:{ apply (keeps_Ok users _ _ _ _ (users_kept_by_controllerError _ _ _)) in Hrun.
      exists user. rewrite Hrun. auto. }
  apply knownUser_Some in Hknown as [Hlook Hmatch].
  rewrite bind_modify in Hrun.
  apply (keeps_Ok users _ _ _ _ (users_kept_by_controllerDone _ _ _)) in Hrun.
  rewrite Hrun. cbn. destruct (decide (n = stringOrUndefined (m_u message))) as [->|Hne].
  - rewrite lookup_insert_eq. eexists. split; [reflexivity|].
    rewrite Hlook in Hn. injection Hn as ->. split; [done|]. right. cbn.
    do 3 (split; [done|]). by apply matches_own_hash.
  - rewrite lookup_insert_ne by done. exists user. auto.
Qed.

(** dave's call is answered with "password changed": his record now holds
    the hash of "longpw" under the fresh salt, which "longpw" matches. *)
Lemma changeMyPassword_keeps_the_password_witness :
  exists user',
    users (finalState (onChangePasswordMessage toyCrypto "cd34" 1000 2 passwordCall
                         daveConnected)) !! "dave"%string = Some user'
    /\ (u_username user', u_config user', u_admin user', u_selfServeAddress user')
       = ("dave"%string, ""%string, false, None)
    /\ u_password user' = makePasswordHash toyCrypto "cd34" "longpw"
    /\ u_password user' <> makePasswordHash toyCrypto "ab12" "longpw"
    /\ doesPasswordMatchHash toyCrypto "longpw" (u_password user') = true.
Proof.
  destruct (changeMyPassword_keeps_the_password toyCrypto "cd34" 1000 2 passwordCall
              daveConnected
              (finalState (onChangePasswordMessage toyCrypto "cd34" 1000 2 passwordCall
                             daveConnected))
              "dave"
              (mkUser "dave" (makePasswordHash toyCrypto "ab12" "longpw") "" false None))
    as (user' & Hlook & Hfields & Hpassword).
  - reflexivity.
  - vm_compute. reflexivity.
  - vm_compute. reflexivity.
  - exists user'. split; [exact Hlook|]. split; [exact Hfields|].
    assert (u_password user' = makePasswordHash toyCrypto "cd34" "longpw") as Hnew.
    { vm_compute in Hlook. injection Hlook as <-. vm_compute. reflexivity. }
    split; [exact Hnew|]. split.
    + rewrite Hnew. vm_compute. discriminate.
    + rewrite Hnew. vm_compute. reflexivity.
Defined.

(** The reply dave is sent, and the hash before and after. *)
Lemma password_change_only_salts_again :
  sent (onChangePasswordMessage toyCrypto "cd34" 1000 2 passwordCall daveConnected)
       daveConnected
  = [Send 2 (MsgD "password changed"); Close 2]
  /\ u_password <$> users daveConnected !! "dave"%string
     = Some (makePasswordHash toyCrypto "ab12" "longpw")
  /\ u_password
       <$> users (finalState (onChangePasswordMessage toyCrypto "cd34" 1000 2 passwordCall
                               daveConnected)) !! "dave"%string
     = Some (makePasswordHash toyCrypto "cd34" "longpw").
Proof. repeat split; vm_compute; reflexivity. Qed.

(** X19.  A configuration set by "setMyConfig" is the one "getMyConfig"
    answers with: when the set call returns for a user whose password
    matched, the user's record holds the text sent (of at most 10000
    characters) and nothing else of it has changed, and as long as the users
    table stays as it is, a get call with the same credentials, from any
    controller, is answered with that text, followed by the close. *)
Theorem config_set_then_get cr now cid message d s s1 user :
  knownUser cr message (users s) = Some user ->
  onSetConfigMessage cr now cid message d s = Ok tt s1 ->
  strlen (configText d) <= MAX_USER_CONFIG_LENGTH
  /\ users s1 = <[stringOrUndefined (m_u message) := set_userConfig (configText d) user]>
                  (users s)
  /\ forall now' cid' s2 s3,
       users s2 = users s1 ->
       onGetConfigMessage cr now' cid' message s2 = Ok tt s3 ->
       exists rest,
         trace s3 = trace s2 ++ Send cid' (MsgD (configText d)) :: Close cid' :: rest
         /\ forallb isRelay rest = true.
Proof.
  intros Hknown Hrun. unfold onSetConfigMessage in Hrun. cbv zeta in Hrun.
  apply bind_Ok_inv in Hrun as (ok & s0 & Hconf & Hrun).
  unfold validateUserConfigLength in Hconf.
  destruct (Z.gtb_spec (strlen (configText d)) MAX_USER_CONFIG_LENGTH) as [|Hlen]; [done|].
  revert Hconf. intros [= <- <-]. rewrite bind_gets, Hknown, bind_modify, bind_gets in Hrun.
  revert Hrun. sred. look. intros Hrun.
  apply (keeps_Ok users _ _ _ _ (users_kept_by_controllerDone _ _ _)) in Hrun.
  cbn in Hrun. split; [done|]. split; [done|].
  intros now' cid' s2 s3 Hsame Hget. unfold onGetConfigMessage in Hget.
  rewrite bind_gets in Hget.
  apply knownUser_Some in Hknown as [Hlook Hmatch].
  assert (knownUser cr message (users s2)
          = Some (set_userConfig (configText d) user)) as Hknown2.
  { unfold knownUser. rewrite Hsame, Hrun, lookup_insert_eq.
    cbn [u_password set_userConfig]. by rewrite Hmatch. }
  rewrite Hknown2 in Hget. by apply controllerDone_trace in Hget.
Qed.

Lemma config_set_then_get_witness :
  strlen (configText (Some (VString "dark"))) <= MAX_USER_CONFIG_LENGTH
  /\ users (finalState (onSetConfigMessage toyCrypto 1000 2 configCall
                          (Some (VString "dark")) oneSocket))
     = <[stringOrUndefined (m_u configCall) :=
           set_userConfig (configText (Some (VString "dark"))) (userRecord "alice")]>
         (users oneSocket)
  /\ forall now' cid' s2 s3,
       users s2 = users (finalState (onSetConfigMessage toyCrypto 1000 2 configCall
                                       (Some (VString "dark")) oneSocket)) ->
       onGetConfigMessage toyCrypto now' cid' configCall s2 = Ok tt s3 ->
       exists rest,
         trace s3 = trace s2 ++ Send cid' (MsgD (configText (Some (VString "dark"))))
                                 :: Close cid' :: rest
         /\ forallb isRelay rest = true.
Proof.
  apply (config_set_then_get toyCrypto 1000 2 configCall (Some (VString "dark")) oneSocket).
  - vm_compute. reflexivity.
  - vm_compute. reflexivity.
Defined.



(** ** Sorting *)

Section SortFacts.
Context {A : Type} (cmp : A -> A -> Z).

Lemma sortInsert_perm x l : sortInsert cmp x l ≡ₚ x :: l.
Proof.
  induction l as [|y l IH]; cbn [sortInsert]; [done|].
  destruct (cmp x y <=? 0); [done|]. rewrite IH. apply Permutation_swap.
Qed.

Lemma arraySort_perm l : arraySort cmp l ≡ₚ l.
Proof.
  induction l as [|x l IH]; [done|].
  unfold arraySort in *. cbn [fold_right]. rewrite sortInsert_perm. by f_equiv.
Qed.

Context (R : relation A) `{!Transitive R}.
Hypothesis before : forall x y, (cmp x y <=? 0) = true -> R x y.
Hypothesis after : forall x y, (cmp x y <=? 0) = false -> R y x.

Lemma sortInsert_sorted x l :
  StronglySorted R l -> StronglySorted R (sortInsert cmp x l).
Proof.
  induction l as [|y l IH]; cbn [sortInsert]; intros Hl.
  - repeat constructor.
  - apply StronglySorted_inv in Hl as [Hl Hy].
    destruct (cmp x y <=? 0) eqn:Hxy.
    + constructor; [by constructor|]. constructor; [by apply before|].
      eapply Forall_impl; [exact Hy|]. intros z Hz. simpl in Hz.
      transitivity y; [by apply before|done].
    + constructor; [by apply IH|].
      rewrite sortInsert_perm. constructor; [by apply after|done].
Qed.

Lemma arraySort_sorted l : StronglySorted R (arraySort cmp l).
Proof.
  induction l as [|x l IH]; [constructor|].
  unfold arraySort in *. cbn [fold_right]. by apply sortInsert_sorted.
Qed.

End SortFacts.

(** Elements the comparator cannot tell apart from [x] and from each other
    stay behind [x] when [x] is inserted in front of them. *)
Lemma filter_sortInsert_other {A : Type} (cmp : A -> A -> Z) (P : A -> bool) x l :
  P x = false -> List.filter P (sortInsert cmp x l) = List.filter P l.
Proof.
  intros Hx. induction l as [|y l IH]; cbn [sortInsert List.filter].
  - by rewrite Hx.
  - destruct (cmp x y <=? 0); cbn [List.filter]; [by rewrite Hx|]. by rewrite IH.
Qed.

Lemma filter_sortInsert_same {A : Type} (cmp : A -> A -> Z) (P : A -> bool) x l :
  P x = true -> Forall (fun y => P y = true -> (cmp x y <=? 0) = true) l ->
  List.filter P (sortInsert cmp x l) = x :: List.filter P l.
Proof.
  intros Hx Hl. induction l as [|y l IH]; cbn [sortInsert List.filter].
  - by rewrite Hx.
  - apply Forall_cons in Hl as [Hy Hl].
    destruct (cmp x y <=? 0) eqn:Hxy; cbn [List.filter]; [by rewrite Hx|].
    destruct (P y); [by specialize (Hy eq_refl)|]. by apply IH.
Qed.

(** *** The order of strings *)

Lemma ascii_compare_Lt a b : Ascii.compare a b = Lt <-> (N_of_ascii a < N_of_ascii b)%N.
Proof. unfold Ascii.compare. apply N.compare_lt_iff. Qed.

Lemma string_compare_Lt_trans a : forall b c,
  String.compare a b = Lt -> String.compare b c = Lt -> String.compare a c = Lt.
Proof.
  induction a as [|x a IH]; intros [|y b] [|z c]; cbn [String.compare]; try done.
  destruct (Ascii.compare x y) eqn:Hxy; [|intros _|done].
  - apply Ascii.compare_eq_iff in Hxy as ->.
    destruct (Ascii.compare y z); [apply IH|done|done].
  - destruct (Ascii.compare y z) eqn:Hyz; [|intros _|done].
    + apply Ascii.compare_eq_iff in Hyz as ->. by rewrite Hxy.
    + pose proof (proj1 (ascii_compare_Lt _ _) Hxy).
      pose proof (proj1 (ascii_compare_Lt _ _) Hyz).
      assert (Ascii.compare x z = Lt) as -> by (apply ascii_compare_Lt; lia). done.
Qed.

#[local] Instance stringLe_trans : Transitive stringLe.
Proof.
  intros a b c. unfold stringLe, String.leb.
  destruct (String.compare a b) eqn:Hab; [|intros _|done].
  - by apply String.compare_eq_iff in Hab as ->.
  - destruct (String.compare b c) eqn:Hbc; [|intros _|done].
    + by apply String.compare_eq_iff in Hbc as <-; rewrite Hab.
    + by rewrite (string_compare_Lt_trans a b c).
Qed.

#[local] Instance stringLe_antisym : AntiSymm eq stringLe.
Proof. intros a b. apply String.leb_antisym. Qed.

Lemma stringLt_leb a b : stringLt a b = true -> String.leb a b = true.
Proof. unfold stringLt, String.ltb, String.leb. by destruct (String.compare a b). Qed.

Lemma not_stringLt_leb a b : stringLt a b = false -> String.leb b a = true.
Proof.
  unfold stringLt, String.ltb, String.leb. rewrite (String.compare_antisym b a).
  by destruct (String.compare a b).
Qed.

(** Comparing names with [<], as [integerComparator] and the default sort
    do, arranges them in the order of their text. *)
Lemma textual_sort_sorted (cmp : string -> string -> Z) l :
  (forall a b, cmp a b = if stringLt a b then -1 else if stringLt b a then 1 else 0) ->
  StronglySorted stringLe (arraySort cmp l).
Proof.
  intros Hcmp. apply arraySort_sorted; [apply _| |]; intros x y; rewrite Hcmp.
  - destruct (stringLt x y) eqn:Hxy; [intros _; by apply stringLt_leb|].
    destruct (stringLt y x) eqn:Hyx; [done|]. intros _. by apply not_stringLt_leb.
  - destruct (stringLt x y) eqn:Hxy; [done|]. intros _. by apply not_stringLt_leb.
Qed.

Lemma textual_sort_unique (cmp : string -> string -> Z) l l' :
  (forall a b, cmp a b = if stringLt a b then -1 else if stringLt b a then 1 else 0) ->
  l ≡ₚ l' -> arraySort cmp l = arraySort cmp l'.
Proof.
  intros Hcmp Hperm.
  apply (StronglySorted_unique stringLe); try by apply textual_sort_sorted.
  by rewrite !arraySort_perm.
Qed.

(** ** More on the structural hash *)

Section HashMore.
Import Hash.

Lemma combine_range a b : 0 <= a -> 0 <= b -> 0 <= combine a b < 2147483647.
Proof. intros Ha Hb. rewrite combine_is_ref by done. apply combine_ref_range. Qed.

Lemma recurseString_range s : 0 <= recurseString s < 2147483647.
Proof. rewrite recurseString_is_ref. apply string_ref_range. Qed.

Lemma hashNumber_range n : 0 <= hashNumber n < 2147483647.
Proof.
  unfold hashNumber. apply combine_range; [lia|].
  apply recurseString_range.
Qed.

Lemma hashedProperty_nonneg table key :
  Forall (fun p => 0 <= snd p) table -> 0 <= hashedProperty table key.
Proof.
  induction table as [|[k h] table IH]; cbn [hashedProperty]; [lia|].
  intros [Hh Htable]%Forall_cons. destruct (String.eqb k key); [exact Hh|by apply IH].
Qed.

Lemma fold_keys_nonneg table keys acc :
  Forall (fun p => 0 <= snd p) table -> 0 <= acc ->
  0 <= fold_left (fun hash key =>
                    combine (combine hash (recurseString key)) (hashedProperty table key))
                 keys acc.
Proof.
  intros Htable. revert acc.
  induction keys as [|key keys IH]; intros acc Hacc; cbn [fold_left]; [done|].
  apply IH. apply combine_range.
  - apply combine_range; [done|]. apply recurseString_range.
  - by apply hashedProperty_nonneg.
Qed.

Lemma recurseContainer_range table :
  Forall (fun p => 0 <= snd p) table -> 0 <= recurseContainer table < 2147483647.
Proof.
  intros Htable. unfold recurseContainer. apply combine_range; [|lia].
  by apply fold_keys_nonneg.
Qed.

Lemma indexed_nonneg (hashes : list Z) i :
  Forall (fun h => 0 <= h) hashes -> Forall (fun p => 0 <= snd p) (indexed i hashes).
Proof.
  revert i. induction hashes as [|h hashes IH]; intros i; cbn [indexed]; [constructor|].
  intros [Hh Hhashes]%Forall_cons. constructor; [done|by apply IH].
Qed.

(** X5.  The default hash of any value, canonical or not, is an integer
    from 0 up to 2147483646. *)
Theorem default_hash_in_range (v : value) : 0 <= defaultGameStateHash v < 2147483647.
Proof.
  induction v as [ | | b | n | s | elems IH | props IH | t] using value_nested_ind;
    cbn [defaultGameStateHash].
  - lia.
  - lia.
  - destruct b; lia.
  - apply hashNumber_range.
  - apply combine_range; [lia|apply recurseString_range].
  - apply combine_range; [lia|]. apply recurseContainer_range.
    unfold arrayTable. apply Forall_app. split.
    + apply indexed_nonneg. apply Forall_forall. intros h Hh.
      apply list_elem_of_In, in_map_iff in Hh as (x & <- & Hx).
      rewrite Forall_forall in IH. apply IH. by apply list_elem_of_In.
    + constructor; [|constructor]. apply hashNumber_range.
  - apply combine_range; [lia|]. apply recurseContainer_range.
    apply Forall_forall. intros p Hp.
    apply list_elem_of_In, in_map_iff in Hp as (x & <- & Hx).
    rewrite Forall_forall in IH. apply IH. by apply list_elem_of_In.
  - apply combine_range; [lia|apply recurseString_range].
Qed.

Lemma defaultCompare_textual a b :
  defaultCompare a b = if stringLt a b then -1 else if stringLt b a then 1 else 0.
Proof. reflexivity. Qed.

Lemma hashedProperty_missing table key :
  ~ In key (map fst table) -> hashedProperty table key = 101.
Proof.
  induction table as [|[k h] table IH]; cbn [hashedProperty map fst In]; [done|].
  intros Hnot. destruct (String.eqb_spec k key) as [->|Hne]; [tauto|].
  apply IH. tauto.
Qed.

Lemma recurseContainer_perm table table' :
  NoDup (map fst table) -> table ≡ₚ table' ->
  recurseContainer table = recurseContainer table'.
Proof.
  intros Hnd Hperm. unfold recurseContainer.
  assert (map fst table ≡ₚ map fst table') as Hnames by (by apply Permutation_map).
  assert (NoDup (map fst table')) as Hnd' by (by rewrite <- Hnames).
  rewrite (textual_sort_unique defaultCompare _ _ defaultCompare_textual Hnames).
  f_equal. apply fold_left_agree. intros key Hkey acc. f_equal.
  apply list_elem_of_In in Hkey. rewrite arraySort_perm in Hkey.
  apply list_elem_of_In, in_map_iff in Hkey as ([k h] & <- & Hin).
  cbn [fst]. rewrite (hashedProperty_In table' k h) by done.
  apply hashedProperty_In; [done|].
  by apply (Permutation_in _ (Permutation_sym Hperm)).
Qed.

(** X6.  The default hash of an object does not depend on the order in
    which its properties were added: two objects with the same properties
    (distinct names) listed in different orders have the same hash. *)
Theorem default_hash_ignores_property_order (props props' : list (string * value)) :
  NoDup (map fst props) -> props ≡ₚ props' ->
  defaultGameStateHash (VObject props) = defaultGameStateHash (VObject props').
Proof.
  intros Hnd Hperm. cbn [defaultGameStateHash]. f_equal.
  apply recurseContainer_perm.
  - by rewrite map_map.
  - by apply Permutation_map.
Qed.

Lemma default_hash_ignores_property_order_witness :
  defaultGameStateHash (VObject [("x"%string, VNumber (NumInt 1)); ("y"%string, VNull)])
  = defaultGameStateHash (VObject [("y"%string, VNull); ("x"%string, VNumber (NumInt 1))]).
Proof.
  apply default_hash_ignores_property_order.
  - cbn [map fst]. apply NoDup_cons. split; [|apply NoDup_singleton].
    rewrite list_elem_of_singleton. discriminate.
  - apply Permutation_swap.
Defined.

End HashMore.

(** ** The sorted bucket *)

#[local] Instance kindBefore_trans : Transitive kindBefore.
Proof. intros a b c. unfold kindBefore. lia. Qed.

Lemma comparator_before a b :
  (instanceEventComparator a b <=? 0) = true -> kindBefore a b.
Proof.
  unfold instanceEventComparator, kindBefore. cbv zeta.
  destruct (Z.ltb_spec (EVENT_KIND_ORDERING (ev_k a)) (EVENT_KIND_ORDERING (ev_k b)));
    [lia|].
  destruct (Z.gtb_spec (EVENT_KIND_ORDERING (ev_k a)) (EVENT_KIND_ORDERING (ev_k b)));
    [done|lia].
Qed.

Lemma comparator_after a b :
  (instanceEventComparator a b <=? 0) = false -> kindBefore b a.
Proof.
  unfold instanceEventComparator, kindBefore. cbv zeta.
  destruct (Z.ltb_spec (EVENT_KIND_ORDERING (ev_k a)) (EVENT_KIND_ORDERING (ev_k b)));
    [done|]. lia.
Qed.

(** X7.  Sorting a bucket with [instanceEventComparator] keeps every event,
    each as often as it was there, and puts the kinds in the order Connect,
    Command, Frame, Disconnect. *)
Theorem sorted_bucket_orders_kinds (evs : list Event) :
  arraySort instanceEventComparator evs ≡ₚ evs
  /\ StronglySorted kindBefore (arraySort instanceEventComparator evs).
Proof.
  split; [apply arraySort_perm|].
  apply arraySort_sorted; [apply _|apply comparator_before|apply comparator_after].
Qed.

Lemma comparator_same_kind k a b :
  ofKind k a = true -> ofKind k b = true ->
  ev_u a = None -> ev_s a = None ->
  (instanceEventComparator a b <=? 0) = true.
Proof.
  unfold ofKind, instanceEventComparator. cbv zeta.
  intros Ha%Z.eqb_eq Hb%Z.eqb_eq -> ->. rewrite Ha, Hb, Z.ltb_irrefl.
  rewrite Z.gtb_ltb, Z.ltb_irrefl.
  cbn [ltStringOrUndefined ltNumberOrUndefined].
  by destruct (ev_u b), (ev_s b).
Qed.

(** X8.  Among the events of one kind that carry neither a user name nor a
    serial (the Frame and the Disconnect events the server makes), the sort
    keeps the order in which they were stored. *)
Theorem sorted_bucket_keeps_arrival_order (k : EventKind) (evs : list Event) :
  Forall (fun e => ofKind k e = true -> ev_u e = None /\ ev_s e = None) evs ->
  List.filter (ofKind k) (arraySort instanceEventComparator evs)
  = List.filter (ofKind k) evs.
Proof.
  induction evs as [|x evs IH]; [done|].
  intros [Hx Hevs]%Forall_cons. specialize (IH Hevs).
  unfold arraySort in *. cbn [fold_right List.filter].
  destruct (ofKind k x) eqn:Hk.
  - rewrite filter_sortInsert_same, IH; [done|done|].
    destruct (Hx eq_refl) as [Hu Hs].
    apply Forall_forall. intros y _ Hy. by apply (comparator_same_kind k).
  - by rewrite filter_sortInsert_other.
Qed.

Lemma sorted_bucket_keeps_arrival_order_witness :
  List.filter (ofKind KFrame)
    (arraySort instanceEventComparator
       [frameEvent 3 20 "l"; disconnectEvent 2 20; frameEvent 2 20 "r";
        connectEvent 4 "carol" 20 ""])
  = List.filter (ofKind KFrame)
      [frameEvent 3 20 "l"; disconnectEvent 2 20; frameEvent 2 20 "r";
       connectEvent 4 "carol" 20 ""].
Proof.
  apply sorted_bucket_keeps_arrival_order.
  repeat constructor; try done; cbn; discriminate.
Defined.

(** ** The inputs argument, as it is *)

Lemma integerComparator_textual a b :
  integerComparator a b = if stringLt a b then -1 else if stringLt b a then 1 else 0.
Proof. reflexivity. Qed.

(** X9.  The inputs argument lists every entry of [pastHorizonControllerStatus]
    exactly once, each with the last input stored for it, in the ascending
    order of the controller numbers taken as text. *)
Theorem inputs_list_every_controller (status : gmap string ControllerStatus) :
  map in_c (buildInputs status) ≡ₚ map fst (map_to_list status)
  /\ StronglySorted stringLe (map in_c (buildInputs status))
  /\ forall x, In x (buildInputs status) ->
               exists st, status !! in_c x = Some st /\ in_i x = cs_i st.
Proof.
  unfold buildInputs.
  assert (map in_c (map (fun c => mkInputArg c (default ""%string (cs_i <$> status !! c)))
                        (controllersConnected status)) = controllersConnected status) as ->.
  { rewrite map_map. cbn [in_c]. apply map_id. }
  split; [apply arraySort_perm|]. split.
  - apply textual_sort_sorted, integerComparator_textual.
  - intros x (c & <- & Hc)%in_map_iff. cbn [in_c in_i].
    apply list_elem_of_In in Hc. unfold controllersConnected in Hc.
    rewrite arraySort_perm in Hc.
    apply list_elem_of_In, in_map_iff in Hc as ([c' st] & <- & Hin).
    apply list_elem_of_In, elem_of_map_to_list in Hin. cbn [fst].
    exists st. by rewrite Hin.
Qed.

(** ** The default advance of a playset *)

Lemma commandsOf_app c l1 l2 : commandsOf c (l1 ++ l2) = commandsOf c l1 ++ commandsOf c l2.
Proof. unfold commandsOf. by rewrite filter_app, map_app. Qed.

Lemma commandsOf_one c cmd :
  commandsOf c [cmd] = if decide (keyOf (co_c cmd) = c) then [(co_o cmd, co_a cmd)] else [].
Proof.
  unfold commandsOf. rewrite filter_cons, filter_nil. by destruct (decide _).
Qed.

Lemma fold_left_same {A B : Type} (f g : A -> B -> A) (l : list B) (a : A) :
  (forall a b, f a b = g a b) -> fold_left f l a = fold_left g l a.
Proof.
  intros H. revert a. induction l as [|b l IH]; intros a; [done|].
  cbn. by rewrite H, IH.
Qed.

(** What the loop over [commands] has built once it has gone through
    [done]: the commands have been applied one by one, and every controller
    with a command has its commands under its id. *)
Lemma commands_loop this commands done state cc :
  (forall c, default [] (cc !! c) = commandsOf c done) ->
  let r := fold_left (commandTurn this) commands (state, cc) in
  fst r = fold_left (fun st cmd =>
                       match applyCommand this with
                       | Some f => f st (co_c cmd) (co_o cmd) (co_a cmd)
                       | None => st
                       end) commands state
  /\ forall c, default [] (snd r !! c) = commandsOf c (done ++ commands).
Proof.
  revert done state cc. induction commands as [|cmd rest IH]; intros done state cc Hcc.
  - cbn. split; [done|]. intros c. by rewrite app_nil_r.
  - cbn [fold_left]. unfold commandTurn at 2 4. cbn [fst snd].
    replace (done ++ cmd :: rest) with ((done ++ [cmd]) ++ rest)
      by (by rewrite <- app_assoc).
    apply IH. intros c. rewrite commandsOf_app, commandsOf_one, <- Hcc.
    destruct (decide (keyOf (co_c cmd) = c)) as [<-|Hne].
    + destruct (cc !! keyOf (co_c cmd)); by rewrite lookup_insert_eq.
    + destruct (cc !! keyOf (co_c cmd)); rewrite lookup_insert_ne by done;
        by rewrite app_nil_r.
Qed.

(** X21.  The default advance of a playset applies the connects in order,
    then the commands one by one in order (when the playset has an
    [applyCommand]), then calls [applyControllerFrame] once per input, in
    order, handing it exactly the commands of that input's controller in
    this frame, in the order they were applied (none for a controller
    without a command), then [applyStateFrame] when there is one, then the
    disconnects in order. *)
Theorem default_advance_hands_each_controller_its_commands this state connects commands
    inputs disconnects :
  defaultPlaysetAdvanceGameState this state connects commands inputs disconnects
  = let connected :=
      fold_left (fun st c => applyConnect this st (ca_c c) (ca_u c) (ca_d c))
                connects state in
    let commanded :=
      fold_left (fun st cmd =>
                   match applyCommand this with
                   | Some f => f st (co_c cmd) (co_o cmd) (co_a cmd)
                   | None => st
                   end) commands connected in
    let framed :=
      fold_left (fun st inp =>
                   applyControllerFrame this st (in_c inp) (in_i inp)
                     (commandsOf (in_c inp) commands)) inputs commanded in
    let stepped :=
      match applyStateFrame this with
      | Some f => f framed
      | None => framed
      end in
    fold_left (applyDisconnect this) disconnects stepped.
Proof.
  unfold defaultPlaysetAdvanceGameState. cbv zeta.
  destruct (commands_loop this commands []
              (fold_left (fun st c => applyConnect this st (ca_c c) (ca_u c) (ca_d c))
                         connects state) ∅) as [Hstate Hcc].
  { intros c. by rewrite lookup_empty. }
  rewrite Hstate.
  rewrite (fold_left_same _
             (fun st inp =>
                applyControllerFrame this st (in_c inp) (in_i inp)
                  (commandsOf (in_c inp) commands)) inputs); [done|].
  intros st inp. by rewrite Hcc.
Qed.

(** ** The horizon only moves forward *)

#[local] Instance neverBack_preorder : PreOrder neverBack.
Proof.
  split.
  - intros s name i Hi. exists i. split; [done|]. split; [lia|done].
  - intros a b c Hab Hbc name i Hi.
    destruct (Hab name i Hi) as (i1 & Hi1 & Hle1 & Hp1).
    destruct (Hbc name i1 Hi1) as (i2 & Hi2 & Hle2 & Hp2).
    exists i2. split; [done|]. split; [lia|congruence].
Qed.

Lemma neverBack_frame s s' : instances s' = instances s -> neverBack s s'.
Proof. intros H name i Hi. exists i. rewrite H. split; [done|]. split; [lia|done]. Qed.

Lemma neverBack_keeps {A : Type} (m : M A) : keeps instances m -> steps neverBack m.
Proof. intros H s a s' Hrun. apply neverBack_frame. by apply (H s a s'). Qed.

Lemma neverBack_updInstance name h :
  (forall i, pastHorizonFrameNumber i <= pastHorizonFrameNumber (h i)
             /\ playset (h i) = playset i) ->
  steps neverBack (updInstance name h).
Proof.
  intros Hh s a s' Hrun. destruct (instances s !! name) as [i0|] eqn:Hi0.
  2:{ unfold updInstance in Hrun. by rewrite (bind_Throw _ _ _ _ _ (getInstance_None _ _ Hi0)) in Hrun. }
  rewrite (updInstance_Ok _ _ _ _ Hi0) in Hrun. revert Hrun. intros [= ?]. subst.
  intros name' i Hi. cbn. destruct (decide (name' = name)) as [->|Hne].
  - rewrite lookup_insert_eq. exists (h i0). split; [done|].
    rewrite Hi0 in Hi. injection Hi as <-. apply Hh.
  - rewrite lookup_insert_ne by done. exists i. split; [done|]. split; [lia|done].
Qed.

Lemma neverBack_gentle name h : gentle h -> steps neverBack (updInstance name h).
Proof.
  intros Hh. apply neverBack_updInstance. intros i. specialize (Hh i).
  unfold tempo in Hh. injection Hh as -> _ _ ->. split; [lia|done].
Qed.

Lemma neverBack_unsuspend now name : steps neverBack (unsuspend now name).
Proof.
  unfold unsuspend. intros s a s' Hrun.
  apply bind_Ok_inv in Hrun as (i & s1 & Hi & Hrun).
  unfold getInstance in Hi. destruct (instances s !! name) as [i0|] eqn:Hi0; [|done].
  revert Hi. intros [= ? ?]. subst. cbv zeta in Hrun.
  apply bind_Ok_inv in Hrun as ([] & s2 & Hupd & Hrun).
  transitivity s2.
  - rewrite (updInstance_Ok _ _ _ _ Hi0) in Hupd. revert Hupd. intros [= ?]. subst.
    intros name' i' Hi'. cbn. destruct (decide (name' = name)) as [->|Hne].
    + rewrite lookup_insert_eq. eexists. split; [done|].
      rewrite Hi0 in Hi'. injection Hi' as <-.
      unfold unsuspendInstance. destruct (suspended i); cbn [fst]; [|split; [lia|done]].
      cbv zeta. match goal with |- context [if ?b then _ else _] => destruct b end;
        cbn; split; first [lia | done].
    + rewrite lookup_insert_ne by done. exists i'. split; [done|]. split; [lia|done].
  - apply neverBack_frame. unfold setTimer in Hrun.
    destruct (snd (unsuspendInstance now i)); revert Hrun; intros [= ?]; by subst.
Qed.

Lemma neverBack_onSocketConnection now address origin :
  steps neverBack (onSocketConnection now address origin).
Proof.
  apply neverBack_keeps. unfold onSocketConnection. steps_walk.
  unfold resetConnectionTimeout. by apply any_updController.
Qed.

Ltac neverBack_frame_tac :=
  first [ by (intros; apply neverBack_frame)
        | by (intros; apply neverBack_keeps, any_updController)
        | by (intros; apply neverBack_gentle) ].

Lemma neverBack_handle cr now inp : steps neverBack (handle cr now inp).
Proof.
  apply top_handle; try apply _; try neverBack_frame_tac.
  - intros. apply neverBack_updInstance. intros i. cbn. split; [lia|done].
  - intros. apply neverBack_updInstance. intros i. unfold suspendInstance.
    destruct (suspended i); cbn; split; first [lia|done].
  - apply neverBack_onSocketConnection.
  - intros. apply steps_disconnectController; try apply _; neverBack_frame_tac.
  - intros. apply login_onLoginMessage; try apply _; try neverBack_frame_tac.
    + apply neverBack_unsuspend.
    + intros. apply steps_disconnectController; try apply _; neverBack_frame_tac.
    + intros. apply steps_makeControllerLive; try apply _; neverBack_frame_tac.
  - intros. apply steps_onFrameMessage; try apply _; neverBack_frame_tac.
  - intros. apply steps_onCommandMessage; try apply _; neverBack_frame_tac.
  - intros. apply steps_advanceHorizonState; try apply _; try neverBack_frame_tac.
    intros. apply neverBack_updInstance. intros i. cbn. split; [lia|done].
Qed.

(** X14.  No input whose handler is embedded here removes an instance,
    changes the playset of one or moves the past horizon of one backwards:
    when the handler returns, every instance is still there, with its
    playset and with a [pastHorizonFrameNumber] at least as large as
    before. *)
Theorem horizon_never_moves_back cr now inp s s' name i :
  enabled now inp s = true ->
  handle cr now inp s = Ok tt s' ->
  instances s !! name = Some i ->
  exists i', instances s' !! name = Some i'
    /\ pastHorizonFrameNumber i <= pastHorizonFrameNumber i'
    /\ playset i' = playset i.
Proof. intros _ Hrun. by apply (neverBack_handle cr now inp s tt s'). Qed.

Lemma horizon_never_moves_back_witness :
  exists i',
    instances (finalState (handle toyCrypto (3100 # 3) (AdvanceTimeout "room" (3100 # 3))
                             aliceLoggedIn)) !! "room"%string = Some i'
    /\ pastHorizonFrameNumber (instanceOf aliceLoggedIn "room") <= pastHorizonFrameNumber i'
    /\ playset i' = playset (instanceOf aliceLoggedIn "room").
Proof.
  apply (horizon_never_moves_back toyCrypto (3100 # 3) (AdvanceTimeout "room" (3100 # 3))
           aliceLoggedIn).
  - vm_compute. reflexivity.
  - vm_compute. reflexivity.
  - vm_compute. reflexivity.
Defined.

(** ** Controller ids *)

Lemma idsAssigned_frame s s' :
  store s' = store s -> nextControllerID s' = nextControllerID s ->
  carries idsAssigned s s'.
Proof. intros Hs Hn H cid c. rewrite Hs, Hn. apply H. Qed.

Lemma idsAssigned_mild cid h : mild h -> preserves idsAssigned (updController cid h).
Proof.
  intros Hh s a s' Hrun Hinv. destruct (store s !! cid) as [c0|] eqn:Hc0.
  2:{ unfold updController in Hrun.
      by rewrite (bind_Throw _ _ _ _ _ (getController_None _ _ Hc0)) in Hrun. }
  rewrite (updController_Ok _ _ _ _ Hc0) in Hrun. revert Hrun. intros [= ?]. subst.
  intros cid' c. cbn. destruct (decide (cid' = cid)) as [->|Hne].
  - rewrite lookup_insert_eq. intros [= <-]. specialize (Hh c0). injection Hh as -> _ _.
    by apply Hinv.
  - rewrite lookup_insert_ne by done. apply Hinv.
Qed.

Lemma idsAssigned_keeps {A : Type} (m : M A) :
  keeps (fun s => (store s, nextControllerID s)) m -> preserves idsAssigned m.
Proof.
  intros H s a s' Hrun. specialize (H s a s' Hrun). unfold same in H.
  injection H as Hs Hn. by apply idsAssigned_frame.
Qed.

Lemma idsAssigned_onSocketConnection now address origin :
  preserves idsAssigned (onSocketConnection now address origin).
Proof.
  intros s a s' Hrun Hinv. unfold onSocketConnection in Hrun. cbv zeta in Hrun.
  rewrite bind_gets in Hrun.
  match type of Hrun with (if ?b then _ else _) _ = _ => destruct b end.
  - revert Hrun. intros [= ?]. subst. intros cid c. cbn. apply Hinv.
  - revert Hrun. rewrite bind_gets, bind_modify.
    unfold resetConnectionTimeout.
    erewrite (bind_Ok (updController _ _)) by (apply updController_Ok; sred; by look).
    mnorm. intros [= ?]. subst. intros cid c. sred.
    destruct (decide (cid = nextControllerID s)) as [->|Hne].
    + rewrite lookup_insert_eq. intros [= <-]. cbn. split; [done|lia].
    + rewrite lookup_insert_ne by done. intros Hc.
      destruct (Hinv cid c Hc). split; [done|lia].
Qed.

Ltac ids_frame_tac :=
  first [ by (intros; apply idsAssigned_frame)
        | by (intros; apply idsAssigned_mild)
        | by (intros; apply idsAssigned_keeps, any_updInstance)
        | by (intros; apply idsAssigned_keeps, any_unsuspend) ].

Lemma idsAssigned_handle cr now inp : preserves idsAssigned (handle cr now inp).
Proof.
  apply top_handle; try apply _; try ids_frame_tac.
  - apply idsAssigned_onSocketConnection.
  - intros. apply steps_disconnectController; try apply _; ids_frame_tac.
  - intros. apply login_onLoginMessage; try apply _; try ids_frame_tac.
    + intros. apply steps_disconnectController; try apply _; ids_frame_tac.
    + intros. apply steps_makeControllerLive; try apply _; ids_frame_tac.
  - intros. apply steps_onFrameMessage; try apply _; ids_frame_tac.
  - intros. apply steps_onCommandMessage; try apply _; ids_frame_tac.
  - intros. apply steps_advanceHorizonState; try apply _; ids_frame_tac.
Qed.

Lemma loadServerState_store reg origin now o s :
  loadServerState reg origin now o = inr s -> store s = ∅ /\ controllers s = ∅.
Proof.
  unfold loadServerState. destruct (loadInstances reg now (o_instances o) ∅); [done|].
  by intros [= <-].
Qed.

(** X15.  In every state the server can reach from a loaded snapshot
    through the inputs embedded here, each controller object carries the id
    it was stored under when its socket connected, and every id in use is
    below [nextControllerID]: ids are not changed and not given twice. *)
Theorem controller_ids_are_assigned_once cr reg t s cid c :
  reachable cr reg t s -> store s !! cid = Some c ->
  controllerId c = cid /\ cid < nextControllerID s.
Proof.
  intros Hreach. revert cid c. change (idsAssigned s).
  induction Hreach as [origin now o s Hload|t s now inp s' Hreach IH Ht Hen Hrun].
  - apply loadServerState_store in Hload as [Hs _]. intros cid c. by rewrite Hs.
  - by apply (idsAssigned_handle cr now inp s tt s').
Qed.

Lemma controller_ids_are_assigned_once_witness :
  controllerId (controllerOf aliceLoggedIn 2) = 2 /\ 2 < nextControllerID aliceLoggedIn.
Proof.
  destruct (after_reachable freshSnapshot (connectAndLogin 1000 2 "alice") aliceLoggedIn)
    as [t Hreach]; [vm_compute; reflexivity|].
  apply (controller_ids_are_assigned_once toyCrypto testRegistry t aliceLoggedIn 2
           (controllerOf aliceLoggedIn 2) Hreach).
  vm_compute. reflexivity.
Defined.

(** ** The subscribers of an instance *)

Lemma subscribed_store_insert st ins cid c c' :
  subscribed st ins -> st !! cid = Some c ->
  (lifecycle c = LLive -> lifecycle c' = LLive /\ instanceName c' = instanceName c) ->
  subscribed (<[cid := c']> st) ins.
Proof.
  intros H Hc Hl name i cid' Hi Hin.
  destruct (H name i cid' Hi Hin) as (c0 & Hc0 & Hlive & Hname).
  destruct (decide (cid' = cid)) as [->|Hne].
  - rewrite lookup_insert_eq. exists c'. rewrite Hc in Hc0. injection Hc0 as ->.
    destruct (Hl Hlive) as [? ?]. split; [done|]. split; [done|]. congruence.
  - rewrite lookup_insert_ne by done. eauto.
Qed.

Lemma subscribed_store_fresh st ins cid c' :
  subscribed st ins -> st !! cid = None -> subscribed (<[cid := c']> st) ins.
Proof.
  intros H Hc name i cid' Hi Hin.
  destruct (H name i cid' Hi Hin) as (c0 & Hc0 & Hlive & Hname).
  destruct (decide (cid' = cid)) as [->|Hne]; [congruence|].
  rewrite lookup_insert_ne by done. eauto.
Qed.

Lemma subscribed_instance_insert st ins name i i' :
  subscribed st ins -> ins !! name = Some i ->
  broadcastControllers i' = broadcastControllers i ->
  subscribed st (<[name := i']> ins).
Proof.
  intros H Hi Hb n j cid. destruct (decide (n = name)) as [->|Hne].
  - rewrite lookup_insert_eq. intros [= <-]. rewrite Hb. by apply H.
  - rewrite lookup_insert_ne by done. apply H.
Qed.

Lemma subscribed_join st ins cid c i i' :
  subscribed st ins -> st !! cid = Some c -> lifecycle c = LLive ->
  ins !! instanceName c = Some i ->
  broadcastControllers i' = {[cid]} ∪ broadcastControllers i ->
  subscribed st (<[instanceName c := i']> ins).
Proof.
  intros H Hc Hlive Hi Hb n j cid'. destruct (decide (n = instanceName c)) as [->|Hne].
  - rewrite lookup_insert_eq. intros [= <-]. rewrite Hb.
    intros [->%elem_of_singleton|Hin]%elem_of_union; [eauto|]. by apply (H _ i).
  - rewrite lookup_insert_ne by done. apply H.
Qed.

Lemma subscribed_leave st ins cid c c' i i' :
  subscribed st ins -> st !! cid = Some c -> ins !! instanceName c = Some i ->
  broadcastControllers i' = broadcastControllers i ∖ {[cid]} ->
  subscribed (<[cid := c']> st) (<[instanceName c := i']> ins).
Proof.
  intros H Hc Hi Hb n j cid'. destruct (decide (n = instanceName c)) as [->|Hne].
  - rewrite lookup_insert_eq. intros [= <-]. rewrite Hb.
    intros [Hin Hout]%elem_of_difference. rewrite elem_of_singleton in Hout.
    rewrite lookup_insert_ne by done. by apply (H _ i).
  - rewrite lookup_insert_ne by done. intros Hj Hin.
    destruct (H n j cid' Hj Hin) as (c0 & Hc0 & Hlive & Hname).
    destruct (decide (cid' = cid)) as [->|Hcid]; [congruence|].
    rewrite lookup_insert_ne by done. eauto.
Qed.

Lemma idsAssigned_insert s s' cid c c' :
  idsAssigned s -> store s !! cid = Some c -> controllerId c' = controllerId c ->
  store s' = <[cid := c']> (store s) -> nextControllerID s' = nextControllerID s ->
  idsAssigned s'.
Proof.
  intros H Hc Hid Hs Hn cid' c0. rewrite Hs, Hn.
  destruct (decide (cid' = cid)) as [->|Hne].
  - rewrite lookup_insert_eq. intros [= <-]. rewrite Hid. by apply H.
  - rewrite lookup_insert_ne by done. apply H.
Qed.

Lemma orderly_frame s s' :
  store s' = store s -> nextControllerID s' = nextControllerID s ->
  instances s' = instances s -> carries orderly s s'.
Proof.
  intros Hs Hn Hi [Hids Hsub]. split; [by apply (idsAssigned_frame s)|].
  by rewrite Hs, Hi.
Qed.

Lemma orderly_keeps {A : Type} (m : M A) :
  keeps (fun s => (store s, nextControllerID s, instances s)) m -> preserves orderly m.
Proof.
  intros H s a s' Hrun. specialize (H s a s' Hrun). unfold same in H.
  injection H as Hs Hn Hi. by apply orderly_frame.
Qed.

(** A change of the controller under [cid] and of one instance that keeps
    the id, the lifecycle state, the instance name and the subscribers. *)
Lemma orderly_shape s s' cid c c' name inst inst' :
  orderly s -> store s !! cid = Some c -> instances s !! name = Some inst ->
  store s' = <[cid := c']> (store s) ->
  instances s' = <[name := inst']> (instances s) ->
  nextControllerID s' = nextControllerID s ->
  (controllerId c', lifecycle c', instanceName c')
  = (controllerId c, lifecycle c, instanceName c) ->
  broadcastControllers inst' = broadcastControllers inst ->
  orderly s'.
Proof.
  intros [Hids Hsub] Hc Hi Hs Hin Hn [= Hid Hl Hname] Hb. split.
  - by apply (idsAssigned_insert s s' cid c c').
  - rewrite Hs, Hin. apply (subscribed_instance_insert _ _ _ inst); [|done|done].
    apply (subscribed_store_insert _ _ _ c); [done|done|]. intros. by rewrite Hl, Hname.
Qed.

Lemma orderly_store s s' cid c c' :
  orderly s -> store s !! cid = Some c ->
  store s' = <[cid := c']> (store s) ->
  instances s' = instances s ->
  nextControllerID s' = nextControllerID s ->
  controllerId c' = controllerId c ->
  (lifecycle c = LLive -> lifecycle c' = LLive /\ instanceName c' = instanceName c) ->
  orderly s'.
Proof.
  intros [Hids Hsub] Hc Hs Hin Hn Hid Hl. split.
  - by apply (idsAssigned_insert s s' cid c c').
  - rewrite Hs, Hin. by apply (subscribed_store_insert _ _ _ c).
Qed.

Lemma orderly_updInstance name h :
  (forall i, broadcastControllers (h i) = broadcastControllers i) ->
  preserves orderly (updInstance name h).
Proof.
  intros Hh s a s' Hrun [Hids Hsub]. destruct (instances s !! name) as [i|] eqn:Hi.
  2:{ unfold updInstance in Hrun.
      by rewrite (bind_Throw _ _ _ _ _ (getInstance_None _ _ Hi)) in Hrun. }
  rewrite (updInstance_Ok _ _ _ _ Hi) in Hrun. revert Hrun. intros [= ?]. subst.
  split; [by apply (idsAssigned_frame s)|]. cbn.
  by apply (subscribed_instance_insert _ _ _ i).
Qed.

Lemma orderly_steady cid h : steady h -> preserves orderly (updController cid h).
Proof.
  intros Hh s a s' Hrun Hinv. destruct (store s !! cid) as [c|] eqn:Hc.
  2:{ unfold updController in Hrun.
      by rewrite (bind_Throw _ _ _ _ _ (getController_None _ _ Hc)) in Hrun. }
  rewrite (updController_Ok _ _ _ _ Hc) in Hrun. revert Hrun. intros [= ?]. subst.
  specialize (Hh c). injection Hh as Hid Hl Hname.
  apply (orderly_store s _ cid c (h c)); try done. intros. by rewrite Hl, Hname.
Qed.

Lemma orderly_set_live cid : preserves orderly (updController cid (set_lifecycle LLive)).
Proof.
  intros s a s' Hrun Hinv. destruct (store s !! cid) as [c|] eqn:Hc.
  2:{ unfold updController in Hrun.
      by rewrite (bind_Throw _ _ _ _ _ (getController_None _ _ Hc)) in Hrun. }
  rewrite (updController_Ok _ _ _ _ Hc) in Hrun. revert Hrun. intros [= ?]. subst.
  by apply (orderly_store s _ cid c (set_lifecycle LLive c)).
Qed.

Lemma orderly_unsuspend now name : preserves orderly (unsuspend now name).
Proof.
  intros s a s' Hrun [Hids Hsub]. unfold unsuspend in Hrun.
  destruct (instances s !! name) as [i|] eqn:Hi.
  2:{ by rewrite (bind_Throw _ _ _ _ _ (getInstance_None _ _ Hi)) in Hrun. }
  rewrite (bind_Ok _ _ _ _ _ (getInstance_Ok _ _ _ Hi)) in Hrun. cbv zeta in Hrun.
  rewrite (bind_Ok _ _ _ _ _ (updInstance_Ok _ _ _ _ Hi)) in Hrun.
  assert (orderly (set_instances (<[name := (unsuspendInstance now i).1]> (instances s)) s))
    as Hmid.
  { split; [by apply (idsAssigned_frame s)|]. cbn.
    apply (subscribed_instance_insert _ _ _ i); [done|done|].
    unfold unsuspendInstance. destruct (suspended i); [|done]. cbn.
    by repeat case_match. }
  revert Hrun. unfold setTimer. destruct (unsuspendInstance now i).2.
  - intros [= ?]. subst. revert Hmid. by apply orderly_frame.
  - unfold ret. intros [= ?]. by subst.
Qed.

Lemma orderly_onSocketConnection now address origin :
  preserves orderly (onSocketConnection now address origin).
Proof.
  intros s a s' Hrun Hinv. split.
  { apply (idsAssigned_onSocketConnection now address origin s a s' Hrun), Hinv. }
  destruct Hinv as [Hids Hsub].
  unfold onSocketConnection in Hrun. cbv zeta in Hrun.
  rewrite bind_gets in Hrun.
  match type of Hrun with (if ?b then _ else _) _ = _ => destruct b end.
  - revert Hrun. intros [= ?]. by subst.
  - revert Hrun. rewrite bind_gets, bind_modify.
    unfold resetConnectionTimeout.
    erewrite (bind_Ok (updController _ _)) by (apply updController_Ok; sred; by look).
    mnorm. intros [= ?]. subst. sred. rewrite ?insert_insert_eq.
    apply subscribed_store_fresh; [done|].
    destruct (store s !! nextControllerID s) as [c|] eqn:Hc; [|done].
    destruct (Hids _ _ Hc). lia.
Qed.

(** *** Leaving and joining *)

Lemma orderly_leftOutbox now cid c inst s :
  orderly s -> store s !! cid = Some c -> instances s !! instanceName c = Some inst ->
  orderly (leftOutbox now cid c inst s).
Proof.
  intros [Hids Hsub] Hc Hi. split.
  - by apply (idsAssigned_insert s _ cid c (outboxed c)).
  - unfold leftOutbox. sred. apply (subscribed_leave _ _ _ _ _ inst); [done|done|done|].
    unfold departed. rewrite addInstanceEvent_subscribers. cbn.
    by destruct (Hids _ _ Hc) as [-> _].
Qed.

Lemma leftAlone_store cid c s :
  store (leftAlone cid c s) = <[cid := set_disconnected true (set_timeoutAt None c)]> (store s)
  /\ instances (leftAlone cid c s) = instances s
  /\ nextControllerID (leftAlone cid c s) = nextControllerID s.
Proof.
  unfold leftAlone.
  destruct (bool_decide (controllerId c ∈ controllers s) && negb (isOutbox (lifecycle c)));
    [destruct (isInbox (lifecycle c))|]; done.
Qed.

Lemma orderly_leftAlone cid c s :
  orderly s -> store s !! cid = Some c -> orderly (leftAlone cid c s).
Proof.
  intros Hinv Hc. destruct (leftAlone_store cid c s) as (Hs & Hi & Hn).
  by apply (orderly_store s _ cid c (set_disconnected true (set_timeoutAt None c))).
Qed.

Lemma orderly_disconnectController now cid :
  preserves orderly (disconnectController now cid).
Proof.
  intros s a s' Hrun Hinv. destruct a.
  apply disconnectController_cases in Hrun
    as (c & Hc & [(Hlive & inst & Hi & ->)|(Hlive & ->)]).
  - by apply orderly_leftOutbox.
  - by apply orderly_leftAlone.
Qed.

Lemma orderly_controllerError now cid err :
  preserves orderly (controllerError now cid err).
Proof.
  unfold controllerError.
  apply steps_bind; [apply _| |intros _]; [apply steps_modify; intros; by apply orderly_frame|].
  apply steps_bind; [apply _| |intros _]; [apply steps_modify; intros; by apply orderly_frame|].
  apply orderly_disconnectController.
Qed.

Lemma makeControllerLive_shape now cid s s' :
  makeControllerLive now cid s = Ok tt s' ->
  exists c inst c' inst',
    store s !! cid = Some c /\ instances s !! instanceName c = Some inst
    /\ store s' = <[cid := c']> (store s)
    /\ instances s' = <[instanceName c := inst']> (instances s)
    /\ nextControllerID s' = nextControllerID s
    /\ (controllerId c', lifecycle c', instanceName c')
       = (controllerId c, LLive, instanceName c)
    /\ broadcastControllers inst' = {[controllerId c]} ∪ broadcastControllers inst.
Proof.
  unfold makeControllerLive. intros Hrun.
  destruct (store s !! cid) as [c|] eqn:Hc.
  2:{ exfalso. revert Hrun. unfold updController. rewrite bind_assoc.
      erewrite bind_Throw; [done|]. by apply getController_None. }
  destruct (instances s !! instanceName c) as [inst|] eqn:Hi.
  2:{ exfalso. revert Hrun. mstep. mstep.
      erewrite bind_Throw; [done|]. apply getInstance_None. by sred. }
  revert Hrun. mstep. mstep. mstep. mstep.
  destruct (users s !! username c) as [u|] eqn:Hu; [|done].
  mbroadcast. unfold subscribeControllerToBroadcasts. mstep. mstep. mstep.
  unfold sendInstanceSnapshot. mstep. mstep.
  unfold getPlayset. sred. rewrite addInstanceEvent_playset.
  destruct (playset inst) as [p|] eqn:Hp; [|done].
  mnorm. unfold resetConnectionTimeout. erewrite updController_Ok by side.
  intros [= <-]. eexists c, inst, _, _. sred.
  do 2 (split; [done|]). rewrite ?insert_insert_eq.
  split; [reflexivity|]. split; [reflexivity|]. split; [reflexivity|]. sred.
  split; [reflexivity|]. by rewrite addInstanceEvent_subscribers.
Qed.

Lemma orderly_makeControllerLive now cid : preserves orderly (makeControllerLive now cid).
Proof.
  intros s a s' Hrun [Hids Hsub]. destruct a.
  apply makeControllerLive_shape in Hrun
    as (c & inst & c' & inst' & Hc & Hi & Hs & Hin & Hn & [= Hid Hl Hname] & Hb).
  split; [by apply (idsAssigned_insert s s' cid c c')|].
  rewrite Hs, Hin, <- Hname.
  apply (subscribed_join _ _ cid c' inst inst').
  - apply (subscribed_store_insert _ _ _ c); [done|done|]. intros. by rewrite Hl, Hname.
  - by rewrite lookup_insert_eq.
  - done.
  - by rewrite Hname.
  - rewrite Hb. by destruct (Hids _ _ Hc) as [-> _].
Qed.

(** *** Frames and commands *)

Lemma orderly_onFrameMessage now cid message :
  preserves orderly (onFrameMessage now cid message).
Proof.
  intros s a s' Hrun Hinv. destruct a.
  apply onFrameMessage_cases in Hrun
    as [->|[[err Herr]|(c & inst & f & Hc & Hi & Hf & Hpass & ->)]].
  - done.
  - by apply (orderly_controllerError now cid err s tt s').
  - unfold frameAdmitted. cbv zeta.
    eapply (orderly_shape s _ cid c _ (instanceName c) inst);
      [done|done|done|sred; reflexivity|sred; reflexivity|reflexivity|
      |apply addInstanceEvent_subscribers].
    by destruct (negb _).
Qed.

Lemma orderly_windowState f cid c s :
  orderly s -> store s !! cid = Some c ->
  orderly (windowState f cid c s)
  /\ store (windowState f cid c s) !! cid = Some (windowAt f c).
Proof.
  intros Hinv Hc. unfold windowState, windowAt. destruct (f >? minFrameNumber c).
  - split; [|sred; by look].
    by eapply (orderly_store s _ cid c); [done|done|reflexivity|reflexivity|reflexivity
                                          |reflexivity|].
  - done.
Qed.

Lemma orderly_commandStored now cid c inst f message s :
  orderly s -> store s !! cid = Some c -> instances s !! instanceName c = Some inst ->
  orderly (commandStored now cid c inst f message s).
Proof.
  intros Hinv Hc Hi. unfold commandStored. cbv zeta.
  eapply (orderly_shape s _ cid c _ (instanceName c) inst);
    [done|done|done|sred; reflexivity|sred; reflexivity|reflexivity|reflexivity
    |apply addInstanceEvent_subscribers].
Qed.

Lemma windowAt_instanceName f c : instanceName (windowAt f c) = instanceName c.
Proof. unfold windowAt. by destruct (f >? minFrameNumber c). Qed.

Lemma orderly_onCommandMessage now cid message :
  preserves orderly (onCommandMessage now cid message).
Proof.
  intros s a s' Hrun Hinv. destruct a.
  apply onCommandMessage_cases in Hrun
    as [->|[[err Herr]|(c & inst & f & Hc & Hi & Hf & Hpass & [->| ->])]].
  - done.
  - by apply (orderly_controllerError now cid err s tt s').
  - destruct (orderly_windowState f cid c s Hinv Hc) as [Hw Hcw].
    apply orderly_commandStored; [done|done|].
    by rewrite windowAt_instanceName, windowState_instances.
  - destruct (orderly_windowState f cid c s Hinv Hc) as [Hw Hcw].
    unfold outOfOrder. cbv zeta.
    assert (instances (windowState f cid c s) !! instanceName (windowAt f c) = Some inst)
      as Hiw by (by rewrite windowAt_instanceName, windowState_instances).
    apply orderly_commandStored.
    + unfold refused. apply orderly_leftOutbox; [|done|done].
      revert Hw. by apply orderly_frame.
    + unfold refused, leftOutbox. sred. by look.
    + unfold refused, leftOutbox, outboxed. sred. by look.
Qed.

(** *** The advance *)

Lemma orderly_emit outs : preserves orderly (emit outs).
Proof. apply steps_modify. intros. by apply orderly_frame. Qed.

Lemma orderly_calm name h : calm h -> preserves orderly (updInstance name h).
Proof. intros Hh. apply orderly_updInstance. intros i. specialize (Hh i). congruence. Qed.

Lemma orderly_advanceHorizonState now name :
  preserves orderly (advanceHorizonState now name).
Proof.
  assert (forall ev acc, preserves orderly (partitionEvents name ev acc)) as Hpart.
  { intros. apply loop_partitionEvents; try apply _;
      first [ by (intros; apply orderly_frame) | apply orderly_calm
            | apply orderly_makeControllerLive ]. }
  assert (forall ds, preserves orderly (disconnectLoop now name ds)) as Hloop.
  { intros. apply loop_disconnectLoop; try apply _;
      first [ by (intros; apply orderly_frame) | apply orderly_calm
            | apply orderly_makeControllerLive ]. }
  unfold advanceHorizonState, prepareAdvance.
  repeat first
    [ steps_leaf
    | apply Hpart | apply Hloop | apply orderly_emit
    | apply orderly_updInstance; intros ?i; reflexivity
    | progress cbv zeta
    | match goal with
      | |- steps _ (bind _ _) => apply steps_bind; [apply _| |intros ?]
      | |- preserves _ (bind _ _) => apply steps_bind; [apply _| |intros ?]
      | |- _ (if ?b then _ else _) => destruct b
      | |- _ (match ?x with _ => _ end) => destruct x
      end ].
Qed.

(** *** The login *)

Lemma leads_bind {A B : Type} P Q' Q (m : M A) (k : A -> M B) :
  leads P m Q' -> (forall a, leads Q' (k a) Q) -> leads P (bind m k) Q.
Proof.
  intros Hm Hk s b s' (a & s1 & H1 & H2)%bind_Ok_inv HP.
  eapply Hk; [done|]. by eapply Hm.
Qed.

Lemma leads_read {A B : Type} P Q (m : M A) (k : A -> M B) :
  (forall s a s', m s = Ok a s' -> s' = s) ->
  (forall a, leads P (k a) Q) -> leads P (bind m k) Q.
Proof.
  intros Hm Hk. apply (leads_bind P P); [|done].
  intros s a s' Hrun. by rewrite (Hm s a s' Hrun).
Qed.

Lemma leads_weaken {A : Type} (P P' Q : Server -> Prop) (m : M A) :
  (forall s, P s -> P' s) -> leads P' m Q -> leads P m Q.
Proof. intros HP Hm s a s' Hrun H. eapply Hm; [done|]. by apply HP. Qed.

Lemma getInstance_reads name s a s' : getInstance name s = Ok a s' -> s' = s.
Proof. unfold getInstance. destruct (instances s !! name); [|done]. by intros [= _ <-]. Qed.

Lemma getPlayset_reads i s a s' : getPlayset i s = Ok a s' -> s' = s.
Proof. unfold getPlayset. destruct (playset i); [|done]. by intros [= _ <-]. Qed.

Lemma gets_reads {A : Type} (g : Server -> A) s a s' : gets g s = Ok a s' -> s' = s.
Proof. by intros [= _ <-]. Qed.

Lemma offAir_frame cid s s' : store s' = store s -> offAir cid s -> offAir cid s'.
Proof. intros Hs. unfold offAir. by rewrite Hs. Qed.

(** A controller that is not LIVE has no subscription to keep: its object
    may change in any way that keeps its id and does not make it LIVE. *)
Lemma offAir_updController cid h :
  (forall c, controllerId (h c) = controllerId c) ->
  (forall c, lifecycle c <> LLive -> lifecycle (h c) <> LLive) ->
  leads (fun s => orderly s /\ offAir cid s) (updController cid h)
        (fun s => orderly s /\ offAir cid s).
Proof.
  intros Hid Hl s a s' Hrun [Hinv (c & Hc & Hoff)].
  rewrite (updController_Ok _ _ _ _ Hc) in Hrun. revert Hrun. intros [= ?]. subst. split.
  - by apply (orderly_store s _ cid c (h c)).
  - exists (h c). sred. look. split; [done|]. by apply Hl.
Qed.

Lemma orderly_onLoginMessage cr now cid message :
  preserves orderly (onLoginMessage cr now cid message).
Proof.
  intros s a s' Hrun Hinv. destruct a. unfold onLoginMessage in Hrun.
  destruct (store s !! cid) as [c|] eqn:Hc.
  2:{ by rewrite (bind_Throw _ _ _ _ _ (getController_None _ _ Hc)) in Hrun. }
  rewrite (bind_Ok _ _ _ _ _ (getController_Ok _ _ _ Hc)) in Hrun.
  destruct (isNew (lifecycle c)) eqn:Hnew; cbn [negb] in Hrun.
  2:{ by eapply (orderly_controllerError _ _ _ s tt s'). }
  assert (offAir cid s) as Hoff.
  { exists c. split; [done|]. by destruct (lifecycle c). }
  refine ((_ : leads (fun s => orderly s /\ offAir cid s) _ orderly)
            s tt s' Hrun (conj Hinv Hoff)).
  clear.
  assert (forall err, leads (fun s => orderly s /\ offAir cid s)
                        (controllerError now cid err) orderly) as Herr.
  { intros err. apply (leads_weaken _ orderly); [tauto|]. apply orderly_controllerError. }
  cbv zeta. apply leads_read; [apply gets_reads|intros us].
  destruct (negb _); [apply Herr|].
  apply leads_read; [apply gets_reads|intros insts].
  destruct (insts !! _) as [instance|]; [|apply Herr].
  apply leads_read; [apply gets_reads|intros inbox].
  apply leads_read; [apply gets_reads|intros live].
  destruct (_ || _); [apply Herr|].
  apply (leads_bind _ (fun s => orderly s /\ offAir cid s)).
  { intros s a s' Hrun [Hinv Hoff]. split.
    - by eapply (orderly_unsuspend _ _ s a s').
    - apply (offAir_frame cid s); [|done].
      eapply (keeps_Ok store _ s a s'); [|exact Hrun]. by apply any_unsuspend. }
  intros _. apply leads_read; [apply getPlayset_reads|intros p].
  apply (leads_bind _ (fun s => orderly s /\ offAir cid s)).
  { by apply offAir_updController. }
  intros _. apply leads_read; [apply getInstance_reads|intros instance'].
  apply (leads_bind _ (fun s => orderly s /\ offAir cid s)).
  { intros s a s'. unfold emit, modify. intros [= ?] [Hinv Hoff]. subst.
    split; [revert Hinv; by apply orderly_frame|by apply (offAir_frame cid s)]. }
  intros _. apply leads_read; [apply gets_reads|intros outbox].
  destruct (bool_decide _).
  - apply (leads_bind _ (fun s => orderly s /\ offAir cid s)).
    { by apply offAir_updController. }
    intros _. apply (leads_bind _ orderly).
    { intros s a s'. unfold modify. intros [= ?] [Hinv Hoff]. subst.
      revert Hinv. by apply orderly_frame. }
    intros _. unfold abandonConnectionTimeout. by apply orderly_steady.
  - apply (leads_weaken _ orderly); [tauto|]. apply orderly_makeControllerLive.
Qed.

(** *** Every input *)

Lemma orderly_handle cr now inp : preserves orderly (handle cr now inp).
Proof.
  apply top_handle; try apply _.
  - intros. by apply orderly_frame.
  - intros. by apply orderly_frame.
  - intros. by apply orderly_frame.
  - intros. by apply orderly_frame.
  - intros. by apply orderly_updInstance.
  - intros. apply orderly_updInstance. intros i. unfold suspendInstance.
    by destruct (suspended i).
  - apply orderly_onSocketConnection.
  - apply orderly_disconnectController.
  - apply orderly_onLoginMessage.
  - apply orderly_onFrameMessage.
  - apply orderly_onCommandMessage.
  - apply orderly_advanceHorizonState.
Qed.

Lemma loadInstance_subscribers reg now inst i :
  loadInstance reg now inst = inr i -> broadcastControllers i = ∅.
Proof.
  unfold loadInstance. repeat case_match; try done; by intros [= <-].
Qed.

Lemma loadInstances_subscribers reg now l acc ins :
  (forall name i, acc !! name = Some i -> broadcastControllers i = ∅) ->
  loadInstances reg now l acc = inr ins ->
  forall name i, ins !! name = Some i -> broadcastControllers i = ∅.
Proof.
  revert acc. induction l as [|[k inst] rest IH]; intros acc Hacc; cbn [loadInstances].
  - by intros [= <-].
  - destruct (loadInstance reg now inst) as [e|i0] eqn:Hload; [done|].
    apply IH. intros name i. destruct (decide (name = k)) as [->|Hne].
    + rewrite lookup_insert_eq. intros [= <-]. by eapply loadInstance_subscribers.
    + rewrite lookup_insert_ne by done. apply Hacc.
Qed.

Lemma loadServerState_orderly reg origin now o s :
  loadServerState reg origin now o = inr s -> orderly s.
Proof.
  unfold loadServerState.
  destruct (loadInstances reg now (o_instances o) ∅) as [e|ins] eqn:Hload; [done|].
  intros [= <-]. split.
  - intros cid c. cbn. by rewrite lookup_empty.
  - intros name i cid Hi Hin. cbn in Hi.
    rewrite (loadInstances_subscribers _ _ _ _ _ ltac:(by intros ? ?; rewrite lookup_empty)
               Hload name i Hi) in Hin.
    by apply not_elem_of_empty in Hin.
Qed.

(** X17.  In every state the server can reach from a loaded snapshot
    through the inputs embedded here, every controller subscribed to the
    broadcasts of an instance is in the store, is LIVE, and is logged into
    that very instance: events are relayed to no controller that has left,
    that waits in the inbox, or that plays elsewhere. *)
Theorem subscribers_are_live cr reg t s name i cid :
  reachable cr reg t s -> instances s !! name = Some i ->
  cid ∈ broadcastControllers i ->
  exists c, store s !! cid = Some c /\ lifecycle c = LLive /\ instanceName c = name.
Proof.
  intros Hreach. revert name i cid. cut (orderly s); [by intros [_ H]|].
  induction Hreach as [origin now o s Hload|t s now inp s' Hreach IH Ht Hen Hrun].
  - by eapply loadServerState_orderly.
  - by apply (orderly_handle cr now inp s tt s').
Qed.

Lemma subscribers_are_live_witness :
  exists c, store aliceLoggedIn !! 2 = Some c /\ lifecycle c = LLive
            /\ instanceName c = "room"%string.
Proof.
  destruct (after_reachable freshSnapshot (connectAndLogin 1000 2 "alice") aliceLoggedIn)
    as [t Hreach]; [vm_compute; reflexivity|].
  apply (subscribers_are_live toyCrypto testRegistry t aliceLoggedIn "room"
           (instanceOf aliceLoggedIn "room") 2 Hreach).
  - vm_compute. reflexivity.
  - vm_compute. reflexivity.
Defined.

(** ** No stored event is behind the horizon *)

Lemma aheadBy_same d i i' :
  events i' = events i -> pastHorizonFrameNumber i' = pastHorizonFrameNumber i ->
  aheadBy d i -> aheadBy d i'.
Proof. intros He Hp H f l. rewrite He, Hp. apply H. Qed.

Lemma aheadBy_add d e i :
  aheadBy d i -> pastHorizonFrameNumber i + d <= ev_f e -> aheadBy d (addInstanceEvent e i).
Proof.
  intros H He f l. unfold addInstanceEvent.
  destruct (events i !! ev_f e) as [bucket|] eqn:Hb; cbn;
    (destruct (decide (f = ev_f e)) as [->|Hne];
     [rewrite lookup_insert_eq; intros [= <-]|rewrite lookup_insert_ne by done; apply H]).
  - split; [done|]. apply Forall_app. split; [by apply (H _ _ Hb)|by constructor].
  - split; [done|]. by constructor.
Qed.

Lemma aheadMap_insert margin m name i :
  aheadMap margin m -> aheadBy (margin name) i -> aheadMap margin (<[name := i]> m).
Proof.
  intros Hm Hi name' i'. destruct (decide (name' = name)) as [->|Hne].
  - rewrite lookup_insert_eq. by intros [= <-].
  - rewrite lookup_insert_ne by done. apply Hm.
Qed.

Lemma ahead_frame margin s s' : instances s' = instances s -> carries (ahead margin) s s'.
Proof. intros H. unfold carries, ahead. by rewrite H. Qed.

Lemma ahead_keeps margin {A : Type} (m : M A) :
  keeps instances m -> preserves (ahead margin) m.
Proof. intros H s a s' Hrun. apply ahead_frame. by apply (H s a s'). Qed.

Lemma ahead_updInstance margin name h :
  (forall i, events (h i) = events i
             /\ pastHorizonFrameNumber (h i) = pastHorizonFrameNumber i) ->
  preserves (ahead margin) (updInstance name h).
Proof.
  intros Hh s a s' Hrun Hinv. destruct (instances s !! name) as [i0|] eqn:Hi0.
  2:{ unfold updInstance in Hrun.
      by rewrite (bind_Throw _ _ _ _ _ (getInstance_None _ _ Hi0)) in Hrun. }
  rewrite (updInstance_Ok _ _ _ _ Hi0) in Hrun. revert Hrun. intros [= ?]. subst.
  unfold ahead. cbn. apply aheadMap_insert; [done|].
  destruct (Hh i0) as [He Hp]. eapply aheadBy_same; [done|done|]. by apply Hinv.
Qed.

Lemma ahead_calm margin name h : calm h -> preserves (ahead margin) (updInstance name h).
Proof.
  intros Hh. apply ahead_updInstance. intros i. specialize (Hh i).
  unfold tempo in Hh. by injection Hh as -> -> _ _ _ _.
Qed.

Lemma ahead_unsuspend margin now name : preserves (ahead margin) (unsuspend now name).
Proof.
  unfold unsuspend. intros s a s' Hrun Hinv.
  destruct (instances s !! name) as [i|] eqn:Hi0.
  2:{ by rewrite (bind_Throw _ _ _ _ _ (getInstance_None _ _ Hi0)) in Hrun. }
  rewrite (bind_Ok _ _ _ _ _ (getInstance_Ok _ _ _ Hi0)) in Hrun. cbv zeta in Hrun.
  apply bind_Ok_inv in Hrun as ([] & s2 & Hupd & Hrun).
  rewrite (updInstance_Ok _ _ _ _ Hi0) in Hupd. revert Hupd. intros [= ?]. subst s2.
  assert (instances s' = <[name := fst (unsuspendInstance now i)]> (instances s)) as Hs'.
  { unfold setTimer in Hrun.
    destruct (snd (unsuspendInstance now i)); revert Hrun; intros [= ?]; by subst. }
  unfold ahead. rewrite Hs'. apply aheadMap_insert; [done|].
  eapply aheadBy_same; [| |by apply (Hinv name i)];
    unfold unsuspendInstance; destruct (suspended i); cbn [fst]; try done; cbv zeta;
    match goal with |- context [if ?b then _ else _] => destruct b end; done.
Qed.

Lemma ahead_disconnectController margin now cid :
  small margin -> preserves (ahead margin) (disconnectController now cid).
Proof.
  intros Hm s a s' Hrun Hinv. destruct a.
  apply disconnectController_cases in Hrun
    as (c & Hc & [(Hlive & inst & Hi & ->)|(Hlive & ->)]).
  - unfold ahead, leftOutbox. sred. apply aheadMap_insert; [done|].
    unfold departed. apply aheadBy_add.
    + eapply aheadBy_same; [| |by apply (Hinv _ _ Hi)]; done.
    + unfold departureEvent, getPresentFrameNumber. cbn.
      specialize (Hm (instanceName c)). revert Hm.
      generalize PAST_HORIZON_FRAMES as present. intros present Hm.
      destruct (Z.ltb_spec (pastHorizonFrameNumber inst + present)
                  (minFrameNumber c)); lia.
  - revert Hinv. apply ahead_frame. unfold leftAlone.
    destruct (bool_decide _ && _); [destruct (isInbox _)|]; done.
Qed.

(** The instances [makeControllerLive] leaves. *)
Lemma makeControllerLive_instances now cid s s' :
  makeControllerLive now cid s = Ok tt s' ->
  exists c inst d,
    store s !! cid = Some c /\ instances s !! instanceName c = Some inst
    /\ instances s'
       = <[instanceName c :=
             set_broadcastControllers
               ({[controllerId c]} ∪ broadcastControllers inst)
               (addInstanceEvent
                  (connectEvent (controllerId c) (username c) (getPresentFrameNumber inst) d)
                  inst)]> (instances s).
Proof.
  unfold makeControllerLive. intros Hrun.
  destruct (store s !! cid) as [c|] eqn:Hc.
  2:{ exfalso. revert Hrun. unfold updController. rewrite bind_assoc.
      erewrite bind_Throw; [done|]. by apply getController_None. }
  destruct (instances s !! instanceName c) as [inst|] eqn:Hi.
  2:{ exfalso. revert Hrun. mstep. mstep.
      erewrite bind_Throw; [done|]. apply getInstance_None. by sred. }
  revert Hrun. mstep. mstep. mstep. mstep.
  destruct (users s !! username c) as [u|] eqn:Hu; [|done].
  mbroadcast. unfold subscribeControllerToBroadcasts. mstep. mstep. mstep.
  unfold sendInstanceSnapshot. mstep. mstep.
  unfold getPlayset. sred. rewrite addInstanceEvent_playset.
  destruct (playset inst) as [p|] eqn:Hp; [|done].
  mnorm. unfold resetConnectionTimeout. erewrite updController_Ok by side.
  intros [= <-]. exists c, inst, (u_config u). sred.
  rewrite addInstanceEvent_subscribers. done.
Qed.

Lemma ahead_makeControllerLive margin now cid :
  small margin -> preserves (ahead margin) (makeControllerLive now cid).
Proof.
  intros Hm s a s' Hrun Hinv. destruct a.
  apply makeControllerLive_instances in Hrun as (c & inst & d & Hc & Hi & Hs').
  unfold ahead. rewrite Hs'. apply aheadMap_insert; [done|].
  eapply aheadBy_same; [reflexivity|reflexivity|]. cbn.
  apply aheadBy_add; [by apply (Hinv _ _ Hi)|].
  unfold getPresentFrameNumber. cbn. specialize (Hm (instanceName c)).
  apply Z.add_le_mono_l. tauto.
Qed.

Lemma ahead_controllerError margin now cid err :
  small margin -> preserves (ahead margin) (controllerError now cid err).
Proof.
  intros Hm. apply top_controllerError; [apply _| |].
  - intros. by apply ahead_frame.
  - intros. by apply ahead_disconnectController.
Qed.

Lemma small_zero : small (fun _ => 0).
Proof. intros name. split; [done|]. by vm_compute. Qed.

Lemma small_oneAhead name : small (oneAhead name).
Proof.
  intros n. unfold oneAhead.
  destruct (String.eqb n name); split; by vm_compute.
Qed.

Lemma departure_not_behind c (inst inst' : Instance) :
  pastHorizonFrameNumber inst' = pastHorizonFrameNumber inst ->
  pastHorizonFrameNumber inst' + 0 <= ev_f (departureEvent c inst).
Proof.
  intros ->. unfold departureEvent, getPresentFrameNumber. cbn.
  assert (0 <= PAST_HORIZON_FRAMES) as H by (by vm_compute). revert H.
  generalize PAST_HORIZON_FRAMES as present. intros present H.
  destruct (Z.ltb_spec (pastHorizonFrameNumber inst + present) (minFrameNumber c)); lia.
Qed.

Lemma eventsAhead_onFrameMessage now cid message :
  preserves eventsAhead (onFrameMessage now cid message).
Proof.
  intros s a s' Hrun Hinv. destruct a.
  apply onFrameMessage_cases in Hrun
    as [->|[(err & Herr)|(c & inst & f & Hc & Hi & Hf & Hpass & ->)]]; [done| |].
  - by apply (ahead_controllerError _ _ _ _ small_zero _ _ _ Herr).
  - unfold eventsAhead, ahead, frameAdmitted. cbv zeta. sred.
    apply aheadMap_insert; [done|]. apply aheadBy_add; [by apply (Hinv _ _ Hi)|].
    destruct Hpass as (_ & _ & _ & Hph). cbn. lia.
Qed.

Lemma eventsAhead_onCommandMessage now cid message :
  preserves eventsAhead (onCommandMessage now cid message).
Proof.
  intros s a s' Hrun Hinv. destruct a.
  apply onCommandMessage_cases in Hrun
    as [->|[(err & Herr)|(c & inst & f & Hc & Hi & Hf & Hpass & [->| ->])]]; [done| | |].
  - by apply (ahead_controllerError _ _ _ _ small_zero _ _ _ Herr).
  - unfold eventsAhead, ahead, commandStored. cbv zeta. sred.
    rewrite windowState_instances.
    apply aheadMap_insert; [done|]. apply aheadBy_add; [by apply (Hinv _ _ Hi)|].
    destruct Hpass as (_ & _ & _ & Hph). cbn. lia.
  - unfold eventsAhead, ahead, outOfOrder, commandStored, refused, leftOutbox.
    cbv zeta. sred. rewrite windowState_instances.
    destruct Hpass as (_ & _ & _ & Hph).
    apply aheadMap_insert; [done|].
    apply aheadBy_add.
    + unfold departed. apply aheadBy_add.
      * eapply aheadBy_same; [| |by apply (Hinv _ _ Hi)]; done.
      * by apply departure_not_behind.
    + unfold departed. rewrite addInstanceEvent_frame. cbn. lia.
Qed.

Lemma oneAhead_here name : oneAhead name name = 1.
Proof. unfold oneAhead. by rewrite String.eqb_refl. Qed.

Lemma oneAhead_elsewhere name n : n <> name -> oneAhead name n = 0.
Proof. unfold oneAhead. by intros ->%String.eqb_neq. Qed.

Lemma aheadMap_insert_other margin margin' m name i :
  (forall n, n <> name -> margin' n = margin n) ->
  aheadMap margin m -> aheadBy (margin' name) i -> aheadMap margin' (<[name := i]> m).
Proof.
  intros Hother Hm Hi name' i'. destruct (decide (name' = name)) as [->|Hne].
  - rewrite lookup_insert_eq. by intros [= <-].
  - rewrite lookup_insert_ne by done. rewrite Hother by done. apply Hm.
Qed.

Lemma ahead_partitionEvents margin name evs acc :
  preserves (ahead margin) (partitionEvents name evs acc).
Proof.
  apply loop_partitionEvents; [apply _|]. intros. by apply ahead_calm.
Qed.

Lemma ahead_disconnectLoop margin now name ds :
  small margin -> preserves (ahead margin) (disconnectLoop now name ds).
Proof.
  intros Hm. apply loop_disconnectLoop; try apply _.
  - intros. by apply ahead_frame.
  - intros. by apply ahead_frame.
  - intros. by apply ahead_frame.
  - intros. by apply ahead_calm.
  - intros. by apply ahead_makeControllerLive.
Qed.

(** Taking the bucket of the horizon's frame leaves the instance one frame
    ahead. *)
Lemma prepareAdvance_ahead name s call s1 :
  prepareAdvance name s = Ok call s1 -> eventsAhead s -> ahead (oneAhead name) s1.
Proof.
  unfold prepareAdvance. intros Hrun Hinv.
  destruct (instances s !! name) as [i|] eqn:Hi.
  2:{ by rewrite (bind_Throw _ _ _ _ _ (getInstance_None _ _ Hi)) in Hrun. }
  rewrite (bind_Ok _ _ _ _ _ (getInstance_Ok _ _ _ Hi)) in Hrun. cbv zeta in Hrun.
  rewrite (bind_Ok _ _ _ _ _ (updInstance_Ok _ _ _ _ Hi)) in Hrun.
  apply bind_Ok_inv in Hrun as (parts & s2 & Hparts & Hrun).
  apply (ahead_partitionEvents (oneAhead name)) in Hparts.
  assert (ahead (oneAhead name) s2) as H2.
  { apply Hparts. unfold ahead. cbn.
    apply (aheadMap_insert_other (fun _ => 0)); [apply oneAhead_elsewhere|apply Hinv|].
    rewrite oneAhead_here. intros f bucket. cbn.
    destruct (decide (f = pastHorizonFrameNumber i)) as [->|Hne].
    - by rewrite lookup_delete_eq.
    - rewrite lookup_delete_ne by done. intros Hb.
      destruct (Hinv _ _ Hi _ _ Hb) as [Hle Hall]. split; [lia|done]. }
  apply bind_Ok_inv in Hrun as (i2 & s3 & Hi2 & Hrun).
  unfold getInstance in Hi2. destruct (instances s2 !! name); [|done].
  revert Hi2. intros [= ? ?]. subst. revert Hrun. intros [= ? ?]. by subst.
Qed.

Lemma eventsAhead_advanceHorizonState now name :
  preserves eventsAhead (advanceHorizonState now name).
Proof.
  intros s a s' Hrun Hinv. unfold advanceHorizonState in Hrun.
  apply bind_Ok_inv in Hrun as (call & s1 & Hprep & Hrun).
  apply prepareAdvance_ahead in Hprep; [|done].
  apply bind_Ok_inv in Hrun as (i1 & s1' & Hi1 & Hrun).
  unfold getInstance in Hi1. destruct (instances s1 !! name) as [i1'|] eqn:Hi1'; [|done].
  revert Hi1. intros [= ? ?]. subst i1' s1'.
  apply bind_Ok_inv in Hrun as (p & s1' & Hp & Hrun).
  unfold getPlayset in Hp. destruct (playset i1) as [p'|]; [|done].
  revert Hp. intros [= ? ?]. subst p' s1'.
  apply bind_Ok_inv in Hrun as ([] & s2 & Hstate & Hrun).
  apply (ahead_calm (oneAhead name)) in Hstate; [|calm_tac]. specialize (Hstate Hprep).
  apply bind_Ok_inv in Hrun as ([] & s3 & Hloop & Hrun).
  apply (ahead_disconnectLoop (oneAhead name)) in Hloop; [|apply small_oneAhead].
  specialize (Hloop Hstate).
  apply bind_Ok_inv in Hrun as ([] & s4 & Hinc & Hrun).
  assert (eventsAhead s4) as H4.
  { destruct (instances s3 !! name) as [i3|] eqn:Hi3.
    2:{ unfold updInstance in Hinc.
        by rewrite (bind_Throw _ _ _ _ _ (getInstance_None _ _ Hi3)) in Hinc. }
    rewrite (updInstance_Ok _ _ _ _ Hi3) in Hinc. revert Hinc. intros [= ?]. subst s4.
    unfold eventsAhead, ahead. cbn.
    apply (aheadMap_insert_other (oneAhead name)).
    - intros n Hn. by rewrite oneAhead_elsewhere.
    - exact Hloop.
    - intros f bucket. cbn. intros Hb.
      destruct (Hloop _ _ Hi3 _ _ Hb) as [Hle Hall]. rewrite oneAhead_here in Hle.
      split; [lia|done]. }
  revert H4. apply ahead_frame.
  apply bind_Ok_inv in Hrun as (i4 & s4' & Hi4 & Hrun).
  unfold getInstance in Hi4. destruct (instances s4 !! name); [|done].
  revert Hi4. intros [= ? ?]. subst. rewrite bind_gets in Hrun. cbv zeta in Hrun.
  match type of Hrun with (match ?m with _ => _ end) _ = _ => destruct m end;
    revert Hrun; intros [= ?]; by subst.
Qed.

Lemma eventsAhead_handle cr now inp : preserves eventsAhead (handle cr now inp).
Proof.
  apply top_handle; try apply _.
  - intros. by apply ahead_frame.
  - intros. by apply ahead_frame.
  - intros. by apply ahead_frame.
  - intros. by apply ahead_frame.
  - intros. apply ahead_updInstance. by intros i.
  - intros. apply ahead_updInstance. intros i. unfold suspendInstance.
    by destruct (suspended i).
  - intros. apply ahead_keeps. unfold onSocketConnection. steps_walk.
    unfold resetConnectionTimeout. by apply any_updController.
  - intros. apply ahead_disconnectController, small_zero.
  - intros. apply login_onLoginMessage; try apply _.
    + intros. by apply ahead_frame.
    + intros. by apply ahead_frame.
    + intros. by apply ahead_keeps, any_updController.
    + apply ahead_unsuspend.
    + intros. apply ahead_disconnectController, small_zero.
    + intros. apply ahead_makeControllerLive, small_zero.
  - apply eventsAhead_onFrameMessage.
  - apply eventsAhead_onCommandMessage.
  - apply eventsAhead_advanceHorizonState.
Qed.

Lemma loadInstance_ahead reg now inst i :
  loadInstance reg now inst = inr i -> aheadBy 0 i.
Proof.
  unfold loadInstance. cbv zeta.
  destruct (match si_state inst with
            | inl text => match playsets reg !! si_playsetName inst with
                          | Some p => inr (deserializeGameState p text)
                          | None => inl (TypeError "playset is null")
                          end
            | inr v => inr v
            end) as [e|state]; [done|].
  intros [= <-] f bucket. cbn.
  destruct (decide (f = 1)) as [->|Hne].
  - rewrite lookup_singleton_eq. intros [= <-]. split; [done|].
    apply Forall_forall. intros e (c & <- & _)%list_elem_of_In%in_map_iff. done.
  - by rewrite lookup_singleton_ne.
Qed.

Lemma loadInstances_ahead reg now l : forall acc m,
  loadInstances reg now l acc = inr m ->
  aheadMap (fun _ => 0) acc -> aheadMap (fun _ => 0) m.
Proof.
  induction l as [|[k inst] rest IH]; intros acc m; cbn [loadInstances].
  - by intros [= <-].
  - destruct (loadInstance reg now inst) as [e|i] eqn:Hi; [done|].
    intros Hrest Hacc. apply (IH _ _ Hrest). apply aheadMap_insert; [done|].
    by apply (loadInstance_ahead reg now inst).
Qed.

Lemma loadServerState_ahead reg origin now o s :
  loadServerState reg origin now o = inr s -> eventsAhead s.
Proof.
  unfold loadServerState.
  destruct (loadInstances reg now (o_instances o) ∅) as [e|m] eqn:Hm; [done|].
  intros [= <-]. unfold eventsAhead, ahead. cbn.
  apply (loadInstances_ahead _ _ _ _ _ Hm). by intros name i.
Qed.

(** X16.  As long as the frame fields of the messages received are integer
    numbers ([m_f] is one; the server does not check it, and files a frame
    such as 20.5 under a name no advance looks up): in every state the
    server can reach from a loaded snapshot through the inputs embedded
    here, each event kept for an instance lies in the bucket of the frame
    it is stamped with, and no bucket is for a frame behind the past
    horizon: every event the server has admitted is still to be handed to
    the playset. *)
Theorem stored_events_are_not_behind cr reg t s name i f bucket :
  reachable cr reg t s ->
  instances s !! name = Some i -> events i !! f = Some bucket ->
  pastHorizonFrameNumber i <= f /\ Forall (fun e => ev_f e = f) bucket.
Proof.
  intros Hreach Hi Hb.
  assert (eventsAhead s) as Hinv.
  { clear Hi Hb.
    induction Hreach as [origin now o s Hload|t s now inp s' Hreach IH Ht Hen Hrun].
    - by apply (loadServerState_ahead reg origin now o).
    - by apply (eventsAhead_handle cr now inp s tt s'). }
  destruct (Hinv name i Hi f bucket Hb) as [Hle Hall]. split; [lia|done].
Qed.

Lemma stored_events_are_not_behind_witness :
  pastHorizonFrameNumber (instanceOf firedOnce "room") <= 20
  /\ Forall (fun e => ev_f e = 20) [commandEvent 2 20 "fire" "" 1].
Proof.
  destruct (after_reachable freshSnapshot
              (connectAndLogin 1000 2 "alice" ++ connectAndLogin 1000 3 "bob"
               ++ [(1010%Q, SocketMessage 2 (One (commandMessage 20 1 "fire")) "")])
              firedOnce) as [t Hreach]; [vm_compute; reflexivity|].
  apply (stored_events_are_not_behind toyCrypto testRegistry t firedOnce "room"
           (instanceOf firedOnce "room") 20 [commandEvent 2 20 "fire" "" 1] Hreach).
  - vm_compute. reflexivity.
  - vm_compute. reflexivity.
Defined.
